(** * sensorReporter, [i2c/pwm.py]: the smooth dimmer of the PWM HAT actuator

    A shallow embedding of
    - the pure helpers [scale_color_val] and [take_radial_step];
    - the state the command path and the background thread share: a heap of
      mutable color objects, the attributes of [PwmHatColorLED] and
      [_SmoothDimmer] that refer to them, the flags, and the trace of the
      calls made outward;
    - the thread body [_SmoothDimmer._smooth_dimmer] as a step function on
      that state, one step per iteration of the loop the thread is in;
    - the command path ([apply_value_change], [start_dimming],
      [stop_dimming], [_start_thread], [PwmHatColorLED.on_message]) as
      functions on that state;
    - the PWM channels [PwmHatColorLED.__init__] creates and the callback
      [set_pwm_value] that writes their duty cycles;
    - the relay actuator of [i2c/relay.py] and the OR gate of
      [local/local_logic.py], each as functions on a record of its
      attributes with the trace of the calls made outward.

    Conventions.
    - Python [int] is [Z].
    - Python [float] quantities (seconds, and the quotient inside
      [scale_color_val]) are exact rationals [Q]: rounding of binary floating
      point is not modelled.
    - The two threads interleave at the granularity of loop iterations of
      the background thread.  How far the background thread gets while the
      command path waits for it is an input of the operation: the number of
      iterations it completes within a bounded join, and the number of
      iterations an unbounded join is followed for.
    - Python dictionaries keyed by strings ([self.channel], [self.pwm],
      [self.src_is_on]) are finite maps; what is read of [dev_cfg] is a
      parameter.
    - Functions of modules that are not among the sources ([core/utils.py],
      [lib8relay]) are variables of the sections that use them. *)

From Stdlib Require Import ZArith QArith Qround List String Ascii Bool Lia Lqa.
From stdpp Require gmap strings.
Import ListNotations.
Local Open Scope Z_scope.

(** ** Level scaling *)

Module Scale.

(** [0xffff], the full-scale duty cycle of the PCA9685. *)
Definition max_duty : Z := 65535.

(** Python's [int(x)] on a non-integer number: truncation toward zero. *)
Definition int_of (x : Q) : Z := Z.quot (Qnum x) (Zpos (Qden x)).

(** [scale_color_val], pwm.py lines 38-43:
    [val = abs(value) / 100; return int(val * 0xffff)]. *)
Definition scale_color_val (value : Z) : Z :=
  let val := (inject_Z (Z.abs value) / inject_Z 100)%Q in
  int_of (val * inject_Z max_duty)%Q.



End Scale.

(** ** Radial step *)

Module Radial.

(** [take_radial_step], pwm.py lines 45-67. *)
Definition take_radial_step (current_angle target_angle step : Z) : Z :=
  let diff := target_angle - current_angle in
  if (Z.abs diff <=? step) || (360 - Z.abs diff <=? step) then target_angle
  else
    let sign :=
      if 180 <? Z.abs diff
      then (if 0 <? diff then -1 else 1)
      else (if 0 <? diff then 1 else -1) in
    let new := current_angle + sign * step in
    if new <? 0 then 360 + new
    else if 360 <=? new then new - 360
    else new.

(** The distance of two angles on the circle,
    [min(|target-current|, 360-|target-current|)]. *)
Definition circular_distance (current target : Z) : Z :=
  Z.min (Z.abs (target - current)) (360 - Z.abs (target - current)).

(** The direction [take_radial_step] moves in when it does not snap: the sign
    of the naive difference, reversed when that difference exceeds 180. *)
Definition shorter_arc_sign (current target : Z) : Z :=
  let diff := target - current in
  if 180 <? Z.abs diff then - Z.sgn diff else Z.sgn diff.

(** [n] successive calls, each result fed back as the current angle. *)
Fixpoint radial_steps (n : nat) (current target step : Z) : Z :=
  match n with
  | O => current
  | S k => radial_steps k (take_radial_step current target step) target step
  end.

(** [ceil(a / b)] for positive [b]. *)
Definition ceil_div (a b : Z) : Z := (a + b - 1) / b.

Definition valid_angle (a : Z) : Prop := 0 <= a < 360.

End Radial.

(** ** Color model *)

Module Color.

(** Modelled from the spec: the keys [ColorHSV.C_HUE], [ColorHSV.C_SAT] and
    [ColorHSV.C_VAL] of [core/utils.py], which is not among the sources,
    naming the three HSV components. *)
Inductive hsv_param := C_HUE | C_SAT | C_VAL.

Definition param_eqb (p q : hsv_param) : bool :=
  match p, q with
  | C_HUE, C_HUE | C_SAT, C_SAT | C_VAL, C_VAL => true
  | _, _ => false
  end.

(** Modelled from the spec: class [ColorHSV] of [core/utils.py] is not among
    the sources.  Spec section 3: a color has hue, saturation,
    value/brightness and a flag telling whether a white channel is
    configured. *)
Record ColorHSV := mkColor {
  hue : Z;
  saturation : Z;
  brightness : Z;
  white_in_use : bool
}.

(** Modelled from the spec: [get(channel)] reads one HSV component. *)
Definition get_hsv (c : ColorHSV) (param : hsv_param) : Z :=
  match param with
  | C_HUE => hue c
  | C_SAT => saturation c
  | C_VAL => brightness c
  end.

(** Modelled from the spec: [set(channel, value)] writes one HSV component;
    "hue wraps modulo 360", saturation and value are stored as given
    (spec section 4.1). *)
Definition set_hsv (c : ColorHSV) (param : hsv_param) (v : Z) : ColorHSV :=
  match param with
  | C_HUE => mkColor (v mod 360) (saturation c) (brightness c) (white_in_use c)
  | C_SAT => mkColor (hue c) v (brightness c) (white_in_use c)
  | C_VAL => mkColor (hue c) (saturation c) v (white_in_use c)
  end.

(** Modelled from the spec: "Equality is structural (all HSV fields
    equal)". *)
Definition color_eqb (a b : ColorHSV) : bool :=
  (hue a =? hue b) && (saturation a =? saturation b)
  && (brightness a =? brightness b).

(** Modelled from the spec: [hsv_dict.items()], the HSV components of a color
    with their values. *)
Definition hsv_items (c : ColorHSV) : list (hsv_param * Z) :=
  [(C_HUE, hue c); (C_SAT, saturation c); (C_VAL, brightness c)].

(** The three HSV components of a color. *)
Definition hsv_of (c : ColorHSV) : Z * Z * Z :=
  (hue c, saturation c, brightness c).

(** The data-model invariant on the hue. *)
Definition valid_hue (c : ColorHSV) : Prop := 0 <= hue c < 360.

End Color.

(** ** The store of color objects

    Colors are mutable Python objects: the background thread steps the very
    object [caller.state.current] refers to, and [on_message] rebinds
    attributes to objects it has handed to the thread.  Objects live in a
    heap and are named by references. *)

Module Store.
Import Color.

Definition ref := nat.

Record heap := mkHeap {
  cell : ref -> ColorHSV;
  next_free : ref
}.

Definition load (h : heap) (r : ref) : ColorHSV := cell h r.

Definition store (h : heap) (r : ref) (c : ColorHSV) : heap :=
  mkHeap (fun r' => if Nat.eqb r' r then c else cell h r') (next_free h).

Definition alloc (h : heap) (c : ColorHSV) : ref * heap :=
  (next_free h,
   mkHeap (fun r' => if Nat.eqb r' (next_free h) then c else cell h r')
          (S (next_free h))).

(** [copy.deepcopy] of a color object. *)
Definition deepcopy (h : heap) (r : ref) : ref * heap := alloc h (load h r).

(** [obj.set_hsv(param, v)] on the object at [r]. *)
Definition set_hsv_at (h : heap) (r : ref) (param : hsv_param) (v : Z) : heap :=
  store h r (set_hsv (load h r) param v).

Definition get_hsv_at (h : heap) (r : ref) (param : hsv_param) : Z :=
  get_hsv (load h r) param.

End Store.

(** ** The engine: [_SmoothDimmer] and the parts of [PwmHatColorLED] it uses *)

Module Engine.
Import Color Store Radial.

Inductive log_level := DEBUG | INFO | WARNING.

Inductive log_message :=
| ThreadStillActive      (* "smooth dimmer thread still active, PWM value not published" *)
| DimmedTo               (* "dimmed PWM-HAT LEDs to ..." *)
| ToggleWithinDebounce   (* "received toggle command ... within debounce time" *)
| UnrecognizedCommand    (* "received unrecognized command" *)
| EqualToCurrent         (* "which is equal to current state. Ignoring command!" *)
| SettingLeds.           (* "received ..., setting LEDs to ..." *)

(** What [publish_actuator_state] sends. *)
Inductive payload :=
| PubBrightness (v : Z)
| PubHsv (c : ColorHSV).

(** The calls made outward, in the order they happen. *)
Inductive event :=
| Sleep (seconds : Q)
| SetPwm (value : ColorHSV)
| Publish (p : payload)
| Log (level : log_level) (m : log_message)
| Join (timeout : option Q)
| Start (start_delay interval_time : Q) (target_value : ref).

(** Where the thread running [_smooth_dimmer] stands. *)
Inductive phase :=
| Waiting (waited : Q)
| Stepping (current_value : ref)
| Exited.

Record thread := mkThread {
  start_delay : Q;
  interval_time : Q;
  target_value : ref;
  pc : phase
}.

(** [dimming.state_before] is the integer [0] until [start_dimming] stores a
    copy of the current color in it. *)
Inductive snapshot :=
| NoSnapshot
| Snapshot (c : ColorHSV).

Record world := mkWorld {
  objects : heap;
  (* PwmHatColorLED *)
  state_current : ref;
  state_last : ref;
  single_channel : bool;             (* len(self.pwm) == 1 *)
  (* _SmoothDimmer *)
  dimming_interval : Q;
  dimming_delay : Q;
  dimming_state_before : snapshot;
  smooth_change_interval : Q;
  smooth_change_in_progress : bool;
  _thread : option thread;
  _stop_thread : bool;
  (* calls made so far *)
  trace : list event
}.

Definition set_objects (w : world) (h : heap) : world :=
  mkWorld h (state_current w) (state_last w) (single_channel w)
    (dimming_interval w) (dimming_delay w) (dimming_state_before w)
    (smooth_change_interval w) (smooth_change_in_progress w)
    (_thread w) (_stop_thread w) (trace w).

Definition set_state_current (w : world) (r : ref) : world :=
  mkWorld (objects w) r (state_last w) (single_channel w)
    (dimming_interval w) (dimming_delay w) (dimming_state_before w)
    (smooth_change_interval w) (smooth_change_in_progress w)
    (_thread w) (_stop_thread w) (trace w).

Definition set_state_last (w : world) (r : ref) : world :=
  mkWorld (objects w) (state_current w) r (single_channel w)
    (dimming_interval w) (dimming_delay w) (dimming_state_before w)
    (smooth_change_interval w) (smooth_change_in_progress w)
    (_thread w) (_stop_thread w) (trace w).

Definition set_state_before (w : world) (s : snapshot) : world :=
  mkWorld (objects w) (state_current w) (state_last w) (single_channel w)
    (dimming_interval w) (dimming_delay w) s
    (smooth_change_interval w) (smooth_change_in_progress w)
    (_thread w) (_stop_thread w) (trace w).

Definition set_in_progress (w : world) (b : bool) : world :=
  mkWorld (objects w) (state_current w) (state_last w) (single_channel w)
    (dimming_interval w) (dimming_delay w) (dimming_state_before w)
    (smooth_change_interval w) b
    (_thread w) (_stop_thread w) (trace w).

Definition set_thread (w : world) (t : option thread) : world :=
  mkWorld (objects w) (state_current w) (state_last w) (single_channel w)
    (dimming_interval w) (dimming_delay w) (dimming_state_before w)
    (smooth_change_interval w) (smooth_change_in_progress w)
    t (_stop_thread w) (trace w).

Definition set_stop_thread (w : world) (b : bool) : world :=
  mkWorld (objects w) (state_current w) (state_last w) (single_channel w)
    (dimming_interval w) (dimming_delay w) (dimming_state_before w)
    (smooth_change_interval w) (smooth_change_in_progress w)
    (_thread w) b (trace w).

Definition emit (w : world) (e : event) : world :=
  mkWorld (objects w) (state_current w) (state_last w) (single_channel w)
    (dimming_interval w) (dimming_delay w) (dimming_state_before w)
    (smooth_change_interval w) (smooth_change_in_progress w)
    (_thread w) (_stop_thread w) (trace w ++ [e]).

Definition set_pc (t : thread) (p : phase) : thread :=
  mkThread (start_delay t) (interval_time t) (target_value t) p.

(** Truth value of a Python float: non-zero. *)
Definition truthy (x : Q) : bool := negb (Qeq_bool x 0).

Definition Qlt_bool (x y : Q) : bool := negb (Qle_bool y x).

(** *** The background thread, [_smooth_dimmer] (pwm.py lines 188-241) *)

(** Body of the [for (param, target) in target_value.hsv_dict.items()] loop,
    lines 220-232. *)
Definition step_param (current_value target_value : ref)
    (h : heap) (item : hsv_param * Z) : heap :=
  let (param, target) := item in
  if param_eqb param C_HUE then
    let curr_hue := get_hsv_at h current_value C_HUE in
    let target_hue := get_hsv_at h target_value C_HUE in
    set_hsv_at h current_value C_HUE (take_radial_step curr_hue target_hue 5)
  else if Z.abs (get_hsv_at h current_value param - target) <? 5 then
    set_hsv_at h current_value param target
  else if get_hsv_at h current_value param <? target then
    set_hsv_at h current_value param (get_hsv_at h current_value param + 5)
  else
    set_hsv_at h current_value param (get_hsv_at h current_value param - 5).

(** One pass of the body of the main loop, lines 218-239. *)
Definition tick (t : thread) (current_value : ref) (w : world) : world :=
  let w1 := emit w (Sleep (interval_time t)) in
  let h2 := fold_left (step_param current_value (target_value t))
                      (hsv_items (load (objects w1) (target_value t)))
                      (objects w1) in
  let w3 := emit (set_objects w1 h2) (SetPwm (load h2 current_value)) in
  if truthy (start_delay t)
     && (get_hsv_at h2 current_value C_VAL =? 0)
     && (get_hsv_at h2 (target_value t) C_VAL =? 0)
  then set_objects w3 (set_hsv_at h2 (target_value t) C_VAL 100)
  else w3.

(** One iteration of whichever loop the thread is in.  The cancellation flag
    and the color objects are read from the shared state at the head of the
    iteration; when the main loop ends the thread clears
    [smooth_change.in_progress] and returns. *)
Definition smooth_dimmer_step (w : world) : world :=
  match _thread w with
  | None => w
  | Some t =>
    match pc t with
    | Waiting waited =>
      if Qlt_bool waited (start_delay t) && negb (_stop_thread w) then
        emit (set_thread w (Some (set_pc t (Waiting (waited + 0.1)%Q))))
             (Sleep 0.1)
      else
        set_thread w (Some (set_pc t (Stepping (state_current w))))
    | Stepping current_value =>
      if negb (color_eqb (load (objects w) current_value)
                         (load (objects w) (target_value t)))
         && negb (_stop_thread w)
      then tick t current_value w
      else set_in_progress (set_thread w (Some (set_pc t Exited))) false
    | Exited => w
    end
  end.

(** The thread left to itself for [n] iterations. *)
Fixpoint background (n : nat) (w : world) : world :=
  match n with
  | O => w
  | S k => background k (smooth_dimmer_step w)
  end.

(** [Thread.is_alive()]. *)
Definition is_alive (t : thread) : bool :=
  match pc t with
  | Exited => false
  | _ => true
  end.

Definition thread_alive (w : world) : bool :=
  match _thread w with
  | Some t => is_alive t
  | None => false
  end.

(** [Thread.join(timeout=None)]: the caller lets the thread run until it has
    returned; [None] when it has not after [fuel] iterations. *)
Fixpoint join_forever (fuel : nat) (w : world) : option world :=
  if thread_alive w then
    match fuel with
    | O => None
    | S k => join_forever k (smooth_dimmer_step w)
    end
  else Some w.

(** [Thread.join(timeout=0.2)]: the thread runs until it has returned or the
    time is up; [budget] is the number of iterations it completes in that
    time. *)
Fixpoint join_timeout (budget : nat) (w : world) : world :=
  if thread_alive w then
    match budget with
    | O => w
    | S k => join_timeout k (smooth_dimmer_step w)
    end
  else w.

(** *** The command path *)

(** [_start_thread], pwm.py lines 168-186. *)
Definition _start_thread (fuel : nat) (start_delay interval_time : Q)
    (value : ref) (w : world) : option world :=
  let joined :=
    match _thread w with
    | Some _ => join_forever fuel (emit w (Join None))
    | None => Some w
    end in
  match joined with
  | None => None
  | Some w1 =>
    let w2 := set_stop_thread w1 false in
    let w3 := set_thread w2
                (Some (mkThread start_delay interval_time value (Waiting 0))) in
    Some (emit w3 (Start start_delay interval_time value))
  end.

(** [apply_value_change], pwm.py lines 109-120. *)
Definition apply_value_change (fuel : nat) (value : ref) (w : world)
    : option world :=
  if truthy (smooth_change_interval w) then
    let w1 := set_stop_thread w true in
    let w2 := set_in_progress w1 true in
    _start_thread fuel 0 (smooth_change_interval w2) value w2
  else
    Some (emit w (SetPwm (load (objects w) value))).

(** [start_dimming], pwm.py lines 122-139. *)
Definition start_dimming (fuel : nat) (w : world) : option world :=
  if negb (smooth_change_in_progress w) then
    let w1 := set_state_before w
                (Snapshot (load (objects w) (state_current w))) in
    let (new_color, h2) := deepcopy (objects w1) (state_current w1) in
    let h3 :=
      if negb (get_hsv_at h2 new_color C_VAL =? 0)
      then set_hsv_at h2 new_color C_VAL 0
      else set_hsv_at h2 new_color C_VAL 100 in
    let w3 := set_objects w1 h3 in
    _start_thread fuel (dimming_delay w3) (dimming_interval w3) new_color w3
  else Some w.

(** [dimming.state_before != caller.state.current].  Equality of colors is
    structural; the integer the snapshot starts as is taken to differ from
    every color. *)
Definition snapshot_differs (s : snapshot) (c : ColorHSV) : bool :=
  match s with
  | NoSnapshot => true
  | Snapshot b => negb (color_eqb b c)
  end.

(** [stop_dimming], pwm.py lines 141-166. *)
Definition stop_dimming (budget : nat) (w : world) : bool * world :=
  if negb (smooth_change_in_progress w) then
    let w1 := set_stop_thread w true in
    match _thread w1 with
    | Some _ =>
      let w2 := join_timeout budget (emit w1 (Join (Some 0.2%Q))) in
      if negb (thread_alive w2) then
        if snapshot_differs (dimming_state_before w2)
                            (load (objects w2) (state_current w2))
        then (true, w2)
        else (false, w2)
      else (false, emit w2 (Log DEBUG ThreadStillActive))
    | None => (false, w1)
    end
  else (false, w).

(** [publish_actuator_state], pwm.py lines 441-448. *)
Definition publish_actuator_state (w : world) : world :=
  let c := load (objects w) (state_current w) in
  if single_channel w
  then emit w (Publish (PubBrightness (get_hsv c C_VAL)))
  else emit w (Publish (PubHsv c)).

(** *** The command interpreter, [PwmHatColorLED.on_message]
    (pwm.py lines 369-439) *)

(** [needle in s]. *)
Definition contains (needle s : string) : bool :=
  match index 0 needle s with
  | Some _ => true
  | None => false
  end.

Definition is_digit (c : ascii) : bool :=
  let n := N_of_ascii c in (48 <=? n)%N && (n <=? 57)%N.

(** [str.isdigit()], on ASCII text. *)
Definition isdigit (s : string) : bool :=
  negb (String.eqb s EmptyString) && forallb is_digit (list_ascii_of_string s).

(** [int(msg)] on a string of decimal digits. *)
Definition int_of_digits (s : string) : Z :=
  fold_left (fun acc c => 10 * acc + (Z.of_N (N_of_ascii c) - 48))
            (list_ascii_of_string s) 0.

(** What the surroundings decide while one command is handled. *)
Record env := mkEnv {
  join_fuel : nat;        (* iterations an unbounded join is followed for *)
  join_budget : nat;      (* iterations the thread completes within the 0.2 s join *)
  head_start : nat;       (* iterations a thread just started completes
                             before the command path goes on *)
  within_debounce : bool  (* debounce.is_within_debounce_time() *)
}.

(** How the chain of [if]/[elif] of lines 376-424 ends. *)
Inductive interpreted :=
| Candidate (new_color : ref) (w : world)  (* falls through to line 426 *)
| Handled (w : world)                      (* [return] inside the chain *)
| Failed (w : world)                       (* the color parser raised *)
| Stuck.                                   (* an unbounded join has not returned *)

(** How [on_message] ends. *)
Inductive result :=
| Returned (w : world)
| Raised (w : world)
| Blocked.

Section Interpreter.

(** The setter of [ColorHSV.color_hsv_str] ([core/utils.py], not among the
    sources): the content of the object after [obj.color_hsv_str = msg], or
    [None] when it raises. *)
Variable set_color_hsv_str : ColorHSV -> string -> option ColorHSV.

(** [utils.is_toggle_cmd] ([core/utils.py], not among the sources). *)
Variable is_toggle_cmd : string -> bool.

Definition interpret (e : env) (msg : string) (w : world) : interpreted :=
  let (new_color, h1) := deepcopy (objects w) (state_current w) in
  let w1 := set_objects w h1 in
  if contains "," msg && negb (contains "NaN" msg) then
    match set_color_hsv_str (load h1 new_color) msg with
    | Some c => Candidate new_color (set_objects w1 (store h1 new_color c))
    | None => Failed w1
    end
  else if isdigit msg then
    Candidate new_color
      (set_objects w1 (set_hsv_at h1 new_color C_VAL (int_of_digits msg)))
  else if String.eqb msg "ON" then
    Candidate new_color (set_objects w1 (set_hsv_at h1 new_color C_VAL 100))
  else if String.eqb msg "OFF" then
    Candidate new_color (set_objects w1 (set_hsv_at h1 new_color C_VAL 0))
  else if String.eqb msg "DIM" then
    match start_dimming (join_fuel e) w1 with
    | Some w2 => Handled w2
    | None => Stuck
    end
  else if String.eqb msg "STOP" then
    let (val_changed, w2) := stop_dimming (join_budget e) w1 in
    if val_changed
    then Handled (publish_actuator_state (emit w2 (Log INFO DimmedTo)))
    else Handled w2
  else if is_toggle_cmd msg then
    if within_debounce e then
      Handled (emit w1 (Log INFO ToggleWithinDebounce))
    else if 0 <? get_hsv_at h1 (state_current w1) C_VAL then
      let (last, h2) := deepcopy h1 (state_current w1) in
      Candidate new_color
        (set_objects (set_state_last w1 last)
                     (set_hsv_at h2 new_color C_VAL 0))
    else
      Candidate (state_last w1) w1
  else
    Handled (emit w1 (Log WARNING UnrecognizedCommand)).

Definition on_message (e : env) (msg : string) (w : world) : result :=
  match interpret e msg w with
  | Candidate new_color w1 =>
    if color_eqb (load (objects w1) (state_current w1))
                 (load (objects w1) new_color)
    then Returned (emit w1 (Log INFO EqualToCurrent))
    else
      let w2 := emit w1 (Log INFO SettingLeds) in
      match apply_value_change (join_fuel e) new_color w2 with
      | None => Blocked
      | Some w3 =>
        let w4 := background (head_start e) w3 in
        Returned (publish_actuator_state (set_state_current w4 new_color))
      end
  | Handled w1 => Returned w1
  | Failed w1 => Raised w1
  | Stuck => Blocked
  end.

End Interpreter.

(** The state [PwmHatColorLED.__init__] leaves (pwm.py lines 294-299, 341
    and 350, with [_SmoothDimmer.__init__], lines 99-107): the configured
    color as current state, a copy of it at full brightness as last state,
    no thread, and the initial state published. *)
Definition init_world (initial : ColorHSV) (single : bool)
    (dim_interval dim_delay smooth_interval : Q) : world :=
  let (current, h1) := alloc (mkHeap (fun _ => initial) 0%nat) initial in
  let (last, h2) := deepcopy h1 current in
  let h3 := set_hsv_at h2 last C_VAL 100 in
  publish_actuator_state
    (mkWorld h3 current last single dim_interval dim_delay NoSnapshot
             smooth_interval false None false []).

(** The states the actuator can be in: those the commands and the iterations
    of the thread lead to from the initial one. *)
Inductive reachable (set_color_hsv_str : ColorHSV -> string -> option ColorHSV)
    (is_toggle_cmd : string -> bool) : world -> Prop :=
| reach_init initial single dim_interval dim_delay smooth_interval :
    reachable set_color_hsv_str is_toggle_cmd
      (init_world initial single dim_interval dim_delay smooth_interval)
| reach_step w :
    reachable set_color_hsv_str is_toggle_cmd w ->
    reachable set_color_hsv_str is_toggle_cmd (smooth_dimmer_step w)
| reach_returned e msg w w' :
    reachable set_color_hsv_str is_toggle_cmd w ->
    on_message set_color_hsv_str is_toggle_cmd e msg w = Returned w' ->
    reachable set_color_hsv_str is_toggle_cmd w'
| reach_raised e msg w w' :
    reachable set_color_hsv_str is_toggle_cmd w ->
    on_message set_color_hsv_str is_toggle_cmd e msg w = Raised w' ->
    reachable set_color_hsv_str is_toggle_cmd w'.

(** The events a step has added to the trace. *)
Definition added (before after : world) : list event :=
  skipn (List.length (trace before)) (trace after).

Definition is_set_pwm (e : event) : bool :=
  match e with SetPwm _ => true | _ => false end.

Definition is_publish (e : event) : bool :=
  match e with Publish _ => true | _ => false end.

Definition is_start (e : event) : bool :=
  match e with Start _ _ _ => true | _ => false end.

(** The brightness handed to the hardware callback, call after call. *)
Fixpoint pwm_brightness (es : list event) : list Z :=
  match es with
  | [] => []
  | SetPwm c :: rest => brightness c :: pwm_brightness rest
  | _ :: rest => pwm_brightness rest
  end.

Fixpoint non_decreasing (l : list Z) : bool :=
  match l with
  | x :: ((y :: _) as rest) => (x <=? y) && non_decreasing rest
  | _ => true
  end.

End Engine.

(** ** The main loop of the thread on the contents of its two objects

    What one pass of the loop does to the content of the object
    [current_value] refers to and to the content of the target object, when
    these are two distinct objects.  [TickFacts.tick_spec] relates it to
    [Engine.tick]. *)

Module Ticks.
Import Color Store Radial Engine.

(** Lines 226-232 on one component. *)
Definition step_toward (current target : Z) : Z :=
  if Z.abs (current - target) <? 5 then target
  else if current <? target then current + 5
  else current - 5.

(** Lines 219-232 on the content of the current object. *)
Definition step_color (c t : ColorHSV) : ColorHSV :=
  mkColor (take_radial_step (hue c) (hue t) 5 mod 360)
          (step_toward (saturation c) (saturation t))
          (step_toward (brightness c) (brightness t))
          (white_in_use c).

(** Lines 235-239 on the content of the target object. *)
Definition flip_target (delay : Q) (c t : ColorHSV) : ColorHSV :=
  if truthy delay && (brightness c =? 0) && (brightness t =? 0)
  then set_hsv t C_VAL 100
  else t.

Definition tick_contents (delay : Q) (ct : ColorHSV * ColorHSV)
    : ColorHSV * ColorHSV :=
  let c := step_color (fst ct) (snd ct) in
  (c, flip_target delay c (snd ct)).

Fixpoint iter_tick (n : nat) (delay : Q) (ct : ColorHSV * ColorHSV)
    : ColorHSV * ColorHSV :=
  match n with
  | O => ct
  | S k => iter_tick k delay (tick_contents delay ct)
  end.

(** The calls of [n] passes. *)
Fixpoint tick_events (n : nat) (delay interval : Q)
    (ct : ColorHSV * ColorHSV) : list event :=
  match n with
  | O => []
  | S k =>
    let ct' := tick_contents delay ct in
    Sleep interval :: SetPwm (fst ct') :: tick_events k delay interval ct'
  end.

(** How far a color is from a target: the distance of the hues on the
    circle plus the distances of saturation and brightness. *)
Definition color_distance (c t : ColorHSV) : Z :=
  circular_distance (hue c) (hue t)
  + Z.abs (saturation c - saturation t)
  + Z.abs (brightness c - brightness t).

(** The loop condition, [current_value != target_value]. *)
Definition differ (ct : ColorHSV * ColorHSV) : bool :=
  negb (color_eqb (fst ct) (snd ct)).

(** A thread in its main loop, not cancelled, on two distinct objects. *)
Definition in_loop (w : world) (t : thread) (cv : ref) : Prop :=
  _thread w = Some t /\ pc t = Stepping cv /\ _stop_thread w = false
  /\ cv <> target_value t.

(** The contents of the two objects the thread works on. *)
Definition contents (w : world) (t : thread) (cv : ref)
    : ColorHSV * ColorHSV :=
  (load (objects w) cv, load (objects w) (target_value t)).

(** References in use name allocated objects. *)
Definition allocated (w : world) (r : ref) : Prop :=
  (r < next_free (objects w))%nat.

Definition well_formed (w : world) : Prop :=
  allocated w (state_current w)
  /\ allocated w (state_last w)
  /\ match _thread w with
     | Some t =>
       allocated w (target_value t)
       /\ match pc t with
          | Stepping cv => allocated w cv
          | _ => True
          end
     | None => True
     end.

(** The object at [r] is none the thread can reach. *)
Definition untouched (w : world) (r : ref) : Prop :=
  r <> state_current w
  /\ match _thread w with
     | Some t =>
       r <> target_value t
       /\ match pc t with
          | Stepping cv => r <> cv
          | _ => True
          end
     | None => True
     end.

(** What the thread never writes. *)
Definition command_state_kept (w w' : world) : Prop :=
  state_current w' = state_current w
  /\ state_last w' = state_last w
  /\ single_channel w' = single_channel w
  /\ dimming_interval w' = dimming_interval w
  /\ dimming_delay w' = dimming_delay w
  /\ dimming_state_before w' = dimming_state_before w
  /\ smooth_change_interval w' = smooth_change_interval w
  /\ _stop_thread w' = _stop_thread w.

End Ticks.

(** ** Sample worlds *)

Module Samples.
Import Color Store Engine.

(** A heap of two objects: the current color at reference 0 and another color
    at reference 1. *)
Definition two_objects (current other : ColorHSV) : heap :=
  mkHeap (fun r => match r with O => current | _ => other end) 2%nat.

(** An actuator with several channels and the default configuration of
    [_SmoothDimmer.__init__] (DimInterval 0.2, DimDelay 0.5,
    SmoothChangeInterval 0.05), its current color at reference 0, its last
    color at reference 1, and the given thread. *)
Definition sample (current other : ColorHSV) (t : option thread) : world :=
  mkWorld (two_objects current other) 0%nat 1%nat false
          0.2 0.5 NoSnapshot 0.05 false t false [].

(** A manual dim of (10,20,60) towards brightness 0 that has reached 45,
    the thread being in its main loop. *)
Definition dimming_world : world :=
  mkWorld (two_objects (mkColor 10 20 45 false) (mkColor 10 20 0 false))
          0%nat 1%nat false
          0.2 0.5 (Snapshot (mkColor 10 20 60 false)) 0.05 false
          (Some (mkThread 0.5 0.2 1%nat (Stepping 0%nat))) false [].

Definition black : ColorHSV := mkColor 0 0 0 false.
Definition white : ColorHSV := mkColor 0 0 100 false.

(** The thread [apply_value_change] starts towards the object at
    reference 1. *)
Definition smooth_thread : thread := mkThread 0 0.05 1%nat (Waiting 0).

(** The thread [start_dimming] starts towards the object at reference 1. *)
Definition dim_thread : thread := mkThread 0.5 0.2 1%nat (Waiting 0).

(** Stand-ins for the two functions of [core/utils.py] the interpreter
    calls: a color parser that always raises, and "TOGGLE" as the only
    toggle command. *)
Definition no_parser (c : ColorHSV) (msg : string) : option ColorHSV := None.
Definition toggle_only (msg : string) : bool := String.eqb msg "TOGGLE".

(** What a scenario shows of its outcome: the trace, the brightness of the
    current color, whether the thread is alive, the in-progress flag. *)
Definition outcome (r : result) : option (list event * Z * bool * bool) :=
  match r with
  | Returned w =>
    Some (trace w, brightness (load (objects w) (state_current w)),
          thread_alive w, smooth_change_in_progress w)
  | _ => None
  end.

(** The next command, if the previous one has returned. *)
Definition and_then (r : result) (next : world -> result) : result :=
  match r with
  | Returned w => next w
  | other => other
  end.

End Samples.

(** ** What is seen of a run of the dimmer *)

Module Views.
Import Color Store Engine.

(** The colors handed to the hardware callback, call after call. *)
Fixpoint pwm_values (es : list event) : list ColorHSV :=
  match es with
  | [] => []
  | SetPwm c :: rest => c :: pwm_values rest
  | _ :: rest => pwm_values rest
  end.

(** Two worlds the thread cannot tell apart once it has left its wait loop:
    the same objects, the same thread, the same cancellation flag. *)
Definition same_run (w u : world) : Prop :=
  objects w = objects u /\ _thread w = _thread u
  /\ _stop_thread w = _stop_thread u.

(** The thread, if there is one, has left its wait loop: [current_value] is
    bound. *)
Definition bound (w : world) : Prop :=
  match _thread w with
  | Some t => match pc t with Waiting _ => False | _ => True end
  | None => True
  end.


(** The brightness a message asks for, when it is one of the brightness
    commands of the chain of [on_message]: digits, "ON" or "OFF". *)
Definition brightness_command (msg : string) : option Z :=
  if contains "," msg && negb (contains "NaN" msg) then None
  else if isdigit msg then Some (int_of_digits msg)
  else if String.eqb msg "ON" then Some 100
  else if String.eqb msg "OFF" then Some 0
  else None.

End Views.

(** ** Python built-ins the actuators use *)

Module Py.

(** [l[i]] on a Python list: a negative index counts from the end, an index
    out of range raises [IndexError] ([None]). *)
Definition py_index {A : Type} (l : list A) (i : Z) : option A :=
  let n := Z.of_nat (List.length l) in
  if (0 <=? i) && (i <? n) then nth_error l (Z.to_nat i)
  else if (- n <=? i) && (i <? 0) then nth_error l (Z.to_nat (n + i))
  else None.

(** [s.split(",")] on ASCII text, character by character: a comma closes the
    piece being read. *)
Fixpoint split_comma (s : string) : list string :=
  match s with
  | EmptyString => [EmptyString]
  | String c rest =>
    if Ascii.eqb c "," then EmptyString :: split_comma rest
    else match split_comma rest with
         | piece :: pieces => String c piece :: pieces
         | [] => [String c EmptyString]
         end
  end.

(** [c.isspace()] on ASCII: tab to carriage return, the four separators
    0x1c to 0x1f, and the blank. *)
Definition is_space (c : ascii) : bool :=
  let n := N_of_ascii c in
  ((9 <=? n) && (n <=? 13) || (28 <=? n) && (n <=? 32))%N.

Fixpoint lstrip (s : string) : string :=
  match s with
  | String c rest => if is_space c then lstrip rest else s
  | EmptyString => EmptyString
  end.

Definition reverse (s : string) : string :=
  string_of_list_ascii (rev (list_ascii_of_string s)).

Definition rstrip (s : string) : string := reverse (lstrip (reverse s)).

(** [s.strip()]. *)
Definition strip (s : string) : string := rstrip (lstrip s).

End Py.

(** ** The relay actuator, [i2c/relay.py] *)

Module Relay.
Import Py.

(** [onoff_to_str], relay.py lines 30-40: the truth value of an integer. *)
Definition onoff_to_str (output : Z) : string :=
  if negb (output =? 0) then "ON" else "OFF".

(** [relay_map], relay.py line 73. *)
Definition relay_map : list Z := [0; 1; 2; 5; 6; 7; 8; 4; 3].

Inductive relay_log :=
| SetupFailed                      (* line 84, error *)
| Configured (state : string)      (* line 103, info *)
| EqualToOutput                    (* line 132, info *)
| WithinDebounce                   (* line 139, info *)
| Received (msg : string)          (* line 146, info *)
| Toggles (from to : string)       (* lines 152 and 160, info *)
| BadCommand (msg : string)        (* line 177, error *)
| SetTo (level : string).          (* line 183, info *)

(** The calls made outward, in the order they happen; [SetRelay] is a call
    of [lib8relay.set] that returned. *)
Inductive event :=
| SetRelay (stack relay value : Z)
| Sleep (seconds : Q)
| Publish (msg : string)
| Log (m : relay_log).

(** The entries of the device configuration [__init__] reads, each with the
    default of its [dev_cfg.get]. *)
Record config := mkConfig {
  cfg_stack : Z;             (* "Stack", default 0 *)
  cfg_invert : bool;         (* "InvertOut", default False *)
  cfg_relay : Z;             (* int(dev_cfg["Relay"]) *)
  cfg_initial : bool;        (* "InitialState", default False *)
  cfg_sim_button : bool      (* "SimulateButton", default False *)
}.

Record actuator := mkActuator {
  stack : Z;
  invert : bool;
  relay : Z;
  mapped_relay : Z;
  init_state : bool;
  sim_button : bool;
  current_state : option bool;   (* [None] in SimulateButton mode *)
  trace : list event
}.

Definition emit (a : actuator) (e : event) : actuator :=
  mkActuator (stack a) (invert a) (relay a) (mapped_relay a) (init_state a)
             (sim_button a) (current_state a) (trace a ++ [e]).

Definition set_current_state (a : actuator) (s : option bool) : actuator :=
  mkActuator (stack a) (invert a) (relay a) (mapped_relay a) (init_state a)
             (sim_button a) s (trace a).

(** Truth value of [current_state]: [None] is false. *)
Definition truth (s : option bool) : bool :=
  match s with
  | Some b => b
  | None => false
  end.

(** How a handler ends. *)
Inductive result :=
| Returned (a : actuator)
| Raised (a : actuator).

(** [publish_actuator_state], relay.py lines 191-194. *)
Definition publish_actuator_state (a : actuator) : actuator :=
  emit a (Publish (if truth (current_state a) then "ON" else "OFF")).

Section Driver.

(** Whether [lib8relay.set(stack, relay, value)] raises [ValueError]; the
    library is not part of the sources. *)
Variable set_raises : Z -> Z -> Z -> bool.

(** [utils.is_toggle_cmd] ([core/utils.py], not among the sources). *)
Variable is_toggle_cmd : string -> bool.

(** [EightRelayHAT.__init__], relay.py lines 66-111; [None] when
    [relay_map[self.relay]] raises [IndexError]. *)
Definition init (c : config) : option actuator :=
  match py_index relay_map (cfg_relay c) with
  | None => None
  | Some mapped =>
    let a0 := mkActuator (cfg_stack c) (cfg_invert c) (cfg_relay c) mapped
                         (cfg_initial c) (cfg_sim_button c) None [] in
    let a1 :=
      if set_raises (stack a0) (mapped_relay a0) (Z.b2z (init_state a0))
      then emit a0 (Log SetupFailed)
      else emit a0 (SetRelay (stack a0) (mapped_relay a0)
                             (Z.b2z (init_state a0))) in
    let a2 :=
      if sim_button a1 then set_current_state a1 None
      else if invert a1 then set_current_state a1 (Some (negb (init_state a1)))
      else set_current_state a1 (Some (init_state a1)) in
    let a3 := emit a2 (Log (Configured
                              (onoff_to_str (Z.b2z (truth (current_state a2)))))) in
    Some (publish_actuator_state a3)
  end.

(** [lib8relay.set] called from [on_message], where nothing catches its
    exception. *)
Definition set_relay (a : actuator) (value : Z)
    (next : actuator -> result) : result :=
  if set_raises (stack a) (mapped_relay a) value then Raised a
  else next (emit a (SetRelay (stack a) (mapped_relay a) value)).

(** Lines 151-164: the simulated button press. *)
Definition press_button (a : actuator) : result :=
  let off := Z.b2z (init_state a) in
  let on := Z.b2z (negb (init_state a)) in
  let a1 := emit a (Log (Toggles (onoff_to_str off) (onoff_to_str on))) in
  set_relay a1 on (fun a2 =>
    let a3 := emit a2 (Sleep 0.5) in
    let a4 := emit a3 (Log (Toggles (onoff_to_str on) (onoff_to_str off))) in
    set_relay a4 off Returned).

(** Lines 167-189: switching by the message. *)
Definition switch (msg : string) (a : actuator) : result :=
  let out :=
    if String.eqb msg "ON" then Some 1
    else if String.eqb msg "OFF" then Some 0
    else if String.eqb msg "TOGGLE"
         then Some (Z.b2z (negb (truth (current_state a))))
    else None in
  match out with
  | None => Returned (emit a (Log (BadCommand msg)))
  | Some out =>
    let a1 := set_current_state a (Some (negb (out =? 0))) in
    let out := if invert a1 then Z.b2z (out =? 0) else out in
    let a2 := emit a1 (Log (SetTo (onoff_to_str out))) in
    set_relay a2 out (fun a3 => Returned (publish_actuator_state a3))
  end.

(** [EightRelayHAT.on_message], relay.py lines 121-189;
    [within_debounce] is what [debounce.is_within_debounce_time()] answers
    if asked. *)
Definition on_message (within_debounce : bool) (msg : string)
    (a : actuator) : result :=
  let proceed (msg : string) :=
    let a1 := emit a (Log (Received msg)) in
    if sim_button a1 then press_button a1 else switch msg a1 in
  if negb (sim_button a) then
    if String.eqb msg "ON" || String.eqb msg "OFF" then
      (* strtobool("ON") = 1, strtobool("OFF") = 0 *)
      if match current_state a with
         | Some b => Bool.eqb b (String.eqb msg "ON")
         | None => false
         end
      then Returned (emit a (Log EqualToOutput))
      else proceed msg
    else if is_toggle_cmd msg then
      if within_debounce then Returned (emit a (Log WithinDebounce))
      else proceed "TOGGLE"%string
    else proceed msg
  else proceed msg.

(** One message after the other, as long as the handler returns. *)
Fixpoint run (msgs : list (bool * string)) (a : actuator) : result :=
  match msgs with
  | [] => Returned a
  | (within_debounce, msg) :: rest =>
    match on_message within_debounce msg a with
    | Returned a' => run rest a'
    | Raised a' => Raised a'
    end
  end.

End Driver.

(** The values of the calls of [lib8relay.set] that returned, in order. *)
Fixpoint levels (tr : list event) : list Z :=
  match tr with
  | [] => []
  | SetRelay _ _ v :: rest => v :: levels rest
  | _ :: rest => levels rest
  end.

(** The messages published, in order. *)
Fixpoint publications (tr : list event) : list string :=
  match tr with
  | [] => []
  | Publish m :: rest => m :: publications rest
  | _ :: rest => publications rest
  end.

(** The last element of a list, if it has one. *)
Definition last_of {A : Type} (l : list A) : option A :=
  last (map Some l) None.

(** The level the relay is at: the value of the last call of
    [lib8relay.set] that returned. *)
Definition level (tr : list event) : option Z := last_of (levels tr).

(** The message published last. *)
Definition published (tr : list event) : option string :=
  last_of (publications tr).

(** No element is followed by an equal one. *)
Fixpoint no_repeat {A : Type} (l : list A) : Prop :=
  match l with
  | [] => True
  | x :: rest =>
    match rest with
    | y :: _ => x <> y
    | [] => True
    end /\ no_repeat rest
  end.

(** A switching actuator whose record of the state agrees with the relay and
    with what it has published. *)
Definition consistent (a : actuator) : Prop :=
  sim_button a = false
  /\ exists b, current_state a = Some b
       /\ level (trace a) = Some (Z.b2z (xorb b (invert a)))
       /\ published (trace a) = Some (if b then "ON" else "OFF")%string.

(** A consistent actuator with a quiet history: no call of the driver and
    no publication repeats the one before it. *)
Definition steady (a : actuator) : Prop :=
  consistent a
  /\ no_repeat (levels (trace a))
  /\ no_repeat (publications (trace a)).

(** What a handler never changes. *)
Definition same_wiring (a a' : actuator) : Prop :=
  stack a' = stack a /\ invert a' = invert a /\ relay a' = relay a
  /\ mapped_relay a' = mapped_relay a /\ init_state a' = init_state a
  /\ sim_button a' = sim_button a.

(** The driver takes every value for the relay of this actuator. *)
Definition driver_accepts (set_raises : Z -> Z -> Z -> bool)
    (a : actuator) : Prop :=
  forall value, set_raises (stack a) (mapped_relay a) value = false.

(** The events a handler has added to the trace. *)
Definition added (before after : actuator) : list event :=
  skipn (List.length (trace before)) (trace after).

(** What the handler leaves after switching to [b]: the state recorded, the
    level logged and written, the state published. *)
Definition switched (a : actuator) (b : bool) : actuator :=
  let out := Z.b2z (xorb b (invert a)) in
  publish_actuator_state
    (emit (emit (set_current_state a (Some b)) (Log (SetTo (onoff_to_str out))))
          (SetRelay (stack a) (mapped_relay a) out)).

(** The text of a state. *)
Definition state_text (b : bool) : string := if b then "ON" else "OFF".

(** A driver that takes every call, one that takes none, and "TOGGLE" as the
    only toggle command. *)
Definition accepting (stack relay value : Z) : bool := false.
Definition rejecting (stack relay value : Z) : bool := true.
Definition toggle_only (msg : string) : bool := String.eqb msg "TOGGLE".

(** Relay 3 of stack 0, off at the start, output not inverted. *)
Definition sample_config : config := mkConfig 0 false 3 false false.

(** The actuator [__init__] makes of it, and the one it makes when
    "SimulateButton" is set as well. *)
Definition sample_actuator : actuator :=
  mkActuator 0 false 3 5 false false (Some false)
    [SetRelay 0 5 0; Log (Configured "OFF"); Publish "OFF"].
Definition sample_button : actuator :=
  mkActuator 0 false 3 5 false true None
    [SetRelay 0 5 0; Log (Configured "OFF"); Publish "OFF"].

End Relay.

(** ** The PWM channels of [PwmHatColorLED] *)

Module Hardware.
Import stdpp.base stdpp.gmap stdpp.strings.
Import Scale.
Local Open Scope Z_scope.

(** Line 302: [-100 if dev_cfg.get("InvertOut", True) else 0]. *)
Definition invert_of (invert_out : bool) : Z :=
  if invert_out then -100 else 0.

(** Lines 281-285: the channel number of every color of
    [utils.ColorHSV.C_RGBW_ARRAY] (a constant of [core/utils.py], not among
    the sources, here the parameter [rgbw_array]), -1 where the
    configuration names none. *)
Definition channels_of (rgbw_array : list string)
    (dev_cfg_ch : gmap string Z) : gmap string Z :=
  fold_left (fun channel color =>
               <[color := default (-1) (dev_cfg_ch !! color)]> channel)
            rgbw_array empty.

(** Body of the loop of lines 323-333, for one item of [self.channel]: a
    color without a channel is skipped, the others start at the initial
    level of the color. *)
Definition init_one (invert : Z) (dev_cfg_init_state : gmap string Z)
    (pwm : gmap string Z) (item : string * Z) : gmap string Z :=
  if snd item =? -1 then pwm
  else <[fst item :=
           scale_color_val
             (invert + default 0 (dev_cfg_init_state !! fst item))]> pwm.

(** Lines 323-333, reached when the set-up of the HAT (lines 305-321) has
    not returned early.  The map holds the duty cycle of [self.pwm[key]];
    the iteration is over the items of [self.channel]. *)
Definition init_pwm (invert : Z) (channel : gmap string Z)
    (dev_cfg_init_state : gmap string Z) : gmap string Z :=
  fold_left (init_one invert dev_cfg_init_state) (map_to_list channel) empty.

(** Body of the loop of the callback, lines 338-339, for one item of
    [value.rgbw_dict]. *)
Definition set_one (invert : Z) (pwm : gmap string Z) (item : string * Z)
    : gmap string Z :=
  match pwm !! fst item with
  | Some _ => <[fst item := scale_color_val (invert + snd item)]> pwm
  | None => pwm
  end.

(** The callback [set_pwm_value], lines 336-339, on the items of
    [value.rgbw_dict]. *)
Definition set_pwm_value (invert : Z) (rgbw_items : list (string * Z))
    (pwm : gmap string Z) : gmap string Z :=
  fold_left (set_one invert) rgbw_items pwm.

(** Levels as the configuration documents them (line 265): between 0, off,
    and 100, full brightness. *)
Definition levels_in_range (rgbw_items : list (string * Z)) : Prop :=
  Forall (fun item => 0 <= snd item <= 100) rgbw_items.

(** Every duty cycle is one the PCA9685 takes. *)
Definition duties_in_range (pwm : gmap string Z) : Prop :=
  forall key duty, pwm !! key = Some duty -> 0 <= duty <= max_duty.

End Hardware.

(** ** The OR gate, [local/local_logic.py] *)

Module Logic.
Import stdpp.base stdpp.gmap stdpp.strings.
Import Py.
Local Open Scope Z_scope.

Record conn := mkConn {
  conn_id : nat;
  is_local_connection : bool
}.

Inductive gate_log :=
| Configured                                 (* line 130 *)
| Disabled                                   (* line 70 *)
| EnableCommand (enable : bool)              (* line 89 *)
| Forwarding (msg src output : string)       (* line 155 *)
| Unchanged (msg src output : string).       (* line 161 *)

(** The calls made outward, in the order they happen. *)
Inductive event :=
| Publish (c : conn) (message destination : string) (filter_echo : bool)
| Log (m : gate_log).

Record gate := mkGate {
  connections : list conn;
  enabled : bool;
  input_src : list string;
  output_dest : list string;
  values : list string;
  enable_src : option string;
  src_is_on : gmap string bool;
  output_activ : bool;
  last_output_state : bool;
  trace : list event
}.

Definition emit (g : gate) (e : event) : gate :=
  mkGate (connections g) (enabled g) (input_src g) (output_dest g) (values g)
         (enable_src g) (src_is_on g) (output_activ g) (last_output_state g)
         (trace g ++ [e]).

Definition set_enabled (g : gate) (b : bool) : gate :=
  mkGate (connections g) b (input_src g) (output_dest g) (values g)
         (enable_src g) (src_is_on g) (output_activ g) (last_output_state g)
         (trace g).

Definition set_src_is_on (g : gate) (m : gmap string bool) : gate :=
  mkGate (connections g) (enabled g) (input_src g) (output_dest g) (values g)
         (enable_src g) m (output_activ g) (last_output_state g) (trace g).

Definition set_output_activ (g : gate) (b : bool) : gate :=
  mkGate (connections g) (enabled g) (input_src g) (output_dest g) (values g)
         (enable_src g) (src_is_on g) b (last_output_state g) (trace g).

Definition set_last_output_state (g : gate) (b : bool) : gate :=
  mkGate (connections g) (enabled g) (input_src g) (output_dest g) (values g)
         (enable_src g) (src_is_on g) (output_activ g) b (trace g).

(** How a handler ends. *)
Inductive result :=
| Returned (g : gate)
| Raised (g : gate).

(** [sum(self.src_is_on.values())]. *)
Definition sum_values (m : gmap string bool) : Z :=
  foldr Z.add 0 (map (fun item => Z.b2z (snd item)) (map_to_list m)).

(** [LogicCore._publish], lines 92-101. *)
Definition _publish (message destination : string) (filter_echo : bool)
    (g : gate) : gate :=
  fold_left (fun g c =>
               if is_local_connection c
               then emit g (Publish c message destination filter_echo)
               else g)
            (connections g) g.

(** [LogicCore.on_message], lines 85-90: the handler of [EnableSrc]. *)
Definition on_message (msg : string) (g : gate) : gate :=
  let g1 := set_enabled g (String.eqb msg "ON") in
  emit g1 (Log (EnableCommand (enabled g1))).

Section Gate.

(** [core.utils.is_toggle_cmd], not among the sources. *)
Variable is_toggle_cmd : string -> bool.

(** [core.utils.parse_values], not among the sources: the values to publish,
    from the parameters and the defaults. *)
Variable parse_values : (string -> option string) -> list string -> list string.

(** [LogicCore.__init__] and [LogicOr.__init__], lines 48-62 and 122-132;
    [params] answers [None] where the real one raises [NoOptionError], which
    only the read of "EnableSrc" catches. *)
Definition init (connections : list conn) (params : string -> option string)
    : option gate :=
  match params "InputSrc"%string with
  | None => None
  | Some input =>
    match params "OutputDest"%string with
    | None => None
    | Some output =>
      let input_src := map strip (split_comma input) in
      let src_is_on :=
        fold_left (fun m src => <[src := false]> m) input_src empty in
      Some (mkGate connections true input_src
                   (map strip (split_comma output))
                   (parse_values params ["OFF"%string; "ON"%string])
                   (params "EnableSrc"%string)
                   src_is_on false false [Log Configured])
    end
  end.

(** [LogicOr.process_message], lines 134-162; [Raised] when [self.values]
    has no entry at the index read. *)
Definition process_message (msg src : string) (g : gate) : result :=
  let g1 := set_last_output_state g (output_activ g) in
  let g2 :=
    if is_toggle_cmd msg then set_output_activ g1 (negb (output_activ g1))
    else
      let g' := set_src_is_on g1 (<[src := String.eqb msg "ON"]> (src_is_on g1)) in
      set_output_activ g' (negb (sum_values (src_is_on g') =? 0)) in
  match py_index (values g2) (if output_activ g2 then 1 else 0) with
  | None => Raised g2
  | Some output =>
    if negb (Bool.eqb (last_output_state g2) (output_activ g2)) then
      let g3 := emit g2 (Log (Forwarding msg src output)) in
      Returned (fold_left (fun g dest => _publish output dest false g)
                          (output_dest g3) g3)
    else Returned (emit g2 (Log (Unchanged msg src output)))
  end.

(** [msg_handler], lines 66-70: the handler [__init__] registers for the
    input [source]. *)
Definition msg_handler (source msg : string) (g : gate) : result :=
  if enabled g then process_message msg source g
  else Returned (emit g (Log Disabled)).

(** What arrives: a message for the enable handler or one for the handler of
    an input. *)
Inductive arrival :=
| Enable (msg : string)
| Input (source msg : string).

Definition deliver (x : arrival) (g : gate) : result :=
  match x with
  | Enable msg => Returned (on_message msg g)
  | Input source msg => msg_handler source msg g
  end.

(** One arrival after the other, as long as the handlers return. *)
Fixpoint run (xs : list arrival) (g : gate) : result :=
  match xs with
  | [] => Returned g
  | x :: rest =>
    match deliver x g with
    | Returned g' => run rest g'
    | Raised g' => Raised g'
    end
  end.

End Gate.

(** The publishes of one change of the output: every destination in turn, on
    every local connection in turn. *)
Definition publishes (output : string) (dests : list string)
    (conns : list conn) : list event :=
  flat_map (fun dest =>
              map (fun c => Publish c output dest false)
                  (filter (fun c => is_local_connection c = true) conns))
           dests.

(** The outputs forwarded, one per change of the output. *)
Fixpoint forwarded (tr : list event) : list string :=
  match tr with
  | [] => []
  | Log (Forwarding _ _ output) :: rest => output :: forwarded rest
  | _ :: rest => forwarded rest
  end.

(** The outputs a gate forwards from rest: on, off, on, ... *)
Fixpoint on_off (n : nat) (active : bool) (off on : string) : list string :=
  match n with
  | O => []
  | S k => (if active then off else on) :: on_off k (negb active) off on
  end.

(** The events a handler has added to the trace. *)
Definition added (before after : gate) : list event :=
  drop (length (trace before)) (trace after).

(** A gate with more events on its trace. *)
Definition emit_all (g : gate) (es : list event) : gate :=
  mkGate (connections g) (enabled g) (input_src g) (output_dest g) (values g)
         (enable_src g) (src_is_on g) (output_activ g) (last_output_state g)
         (trace g ++ es).

(** Messages of the inputs, each with its source, as arrivals. *)
Definition inputs (xs : list (string * string)) : list arrival :=
  map (fun x => Input (fst x) (snd x)) xs.

(** The latest message of the source [s] among [xs]. *)
Fixpoint latest (xs : list (string * string)) (s : string) : option string :=
  match xs with
  | [] => None
  | (src, msg) :: rest =>
    match latest rest s with
    | Some m => Some m
    | None => if String.eqb src s then Some msg else None
    end
  end.

(** A [parse_values] that finds no "Values" and answers the defaults, and
    "TOGGLE" as the only toggle command. *)
Definition defaults (params : string -> option string)
    (default_values : list string) : list string := default_values.
Definition toggle_word (msg : string) : bool := String.eqb msg "TOGGLE".

(** An OR gate of a door and a window contact for a light, with one local
    and one remote connection. *)
Definition sample_params (key : string) : option string :=
  if String.eqb key "InputSrc" then Some "door, window"%string
  else if String.eqb key "OutputDest" then Some "light"%string
  else None.
Definition sample_conns : list conn := [mkConn 0 true; mkConn 1 false].
Definition sample_gate : gate :=
  mkGate sample_conns true ["door"; "window"]%string ["light"%string]
         ["OFF"; "ON"]%string None
         (<["window"%string := false]> (<["door"%string := false]> empty))
         false false [Log Configured].

End Logic.

(** ** Proof steps used more than once *)

(** Case analysis on every integer comparison of the goal. *)
Ltac split_bools :=
  repeat match goal with
  | |- context [?a <=? ?b] => destruct (Z.leb_spec a b)
  | |- context [?a <? ?b] => destruct (Z.ltb_spec a b)
  end; cbn [orb andb negb].

(** Projections of a world out of its setters, the heap left as it is. *)
Ltac fields :=
  cbn [Engine.trace Engine.set_objects Engine.set_state_last
       Engine.state_current Engine._thread Engine._stop_thread
       Engine.smooth_change_in_progress Engine.dimming_state_before
       Engine.objects Engine.state_last Engine.emit].

(** * Properties *)

Module ScaleFacts.
Import Scale.

Lemma scale_color_val_floor (value : Z) :
  scale_color_val value = Z.abs value * max_duty / 100.
Proof.
  unfold scale_color_val, int_of, max_duty.
  cbn [Qmult Qdiv Qinv inject_Z Qnum Qden].
  destruct (Z.abs value) as [|p|p] eqn:E.
  - reflexivity.
  - cbn. rewrite Z.quot_div_nonneg by lia.
    f_equal; lia.
  - pose proof (Z.abs_nonneg value). lia.
Qed.



End ScaleFacts.

Module RadialFacts.
Import Radial.

Lemma take_radial_step_snap (current target step : Z) :
  circular_distance current target <= step ->
  take_radial_step current target step = target.
Proof.
  unfold circular_distance, take_radial_step. intros H.
  destruct (Z.leb_spec (Z.abs (target - current)) step);
    destruct (Z.leb_spec (360 - Z.abs (target - current)) step);
    cbn [orb]; try reflexivity; lia.
Qed.

Lemma take_radial_step_move (current target step : Z) :
  valid_angle current -> valid_angle target -> 1 <= step ->
  step < circular_distance current target ->
  let r := take_radial_step current target step in
  r = (current + shorter_arc_sign current target * step) mod 360
  /\ valid_angle r
  /\ circular_distance r target = circular_distance current target - step
  /\ circular_distance current r = step.
Proof.
  unfold valid_angle, circular_distance, take_radial_step, shorter_arc_sign.
  intros Hc Ht Hs Hd. cbv zeta.
  split_bools; try lia.
  all: repeat split; try lia.
  all: try (symmetry; Z.div_mod_to_equations; lia).
Qed.

Lemma circular_distance_zero (current target : Z) :
  valid_angle current -> valid_angle target ->
  circular_distance current target <= 0 -> current = target.
Proof.
  unfold valid_angle, circular_distance. lia.
Qed.

Lemma radial_steps_fixed (n : nat) (target step : Z) :
  0 <= step -> radial_steps n target target step = target.
Proof.
  intros Hs. induction n as [|n IH]; cbn [radial_steps]; [reflexivity|].
  rewrite take_radial_step_snap; [exact IH|].
  unfold circular_distance. lia.
Qed.

Lemma radial_steps_reach (n : nat) (target step : Z) :
  valid_angle target -> 1 <= step ->
  forall current, valid_angle current ->
  circular_distance current target <= Z.of_nat n * step ->
  radial_steps n current target step = target.
Proof.
  intros Ht Hs. induction n as [|n IH]; intros current Hc Hd.
  - cbn [radial_steps]. apply circular_distance_zero; auto; lia.
  - cbn [radial_steps].
    destruct (Z_le_gt_dec (circular_distance current target) step) as [Hle|Hgt].
    + rewrite take_radial_step_snap by exact Hle.
      apply radial_steps_fixed. lia.
    + destruct (take_radial_step_move current target step Hc Ht Hs)
        as (_ & Hv & Hdist & _); [lia|].
      apply IH; [exact Hv|]. rewrite Hdist. lia.
Qed.

Lemma ceil_div_covers (a b : Z) : 0 < b -> a <= ceil_div a b * b.
Proof.
  intros Hb. unfold ceil_div.
  pose proof (Z.mul_succ_div_gt (a + b - 1) b Hb). lia.
Qed.

Lemma ceil_div_nonneg (a b : Z) : 0 < b -> 0 <= a -> 0 <= ceil_div a b.
Proof.
  intros Hb Ha. unfold ceil_div. apply Z.div_pos; lia.
Qed.

Lemma circular_distance_nonneg (current target : Z) :
  valid_angle current -> valid_angle target ->
  0 <= circular_distance current target.
Proof. unfold valid_angle, circular_distance. lia. Qed.

(** C4: for angles in [0,360) and a step of at least 1, [take_radial_step]
    returns the target exactly when the circular distance is at most the
    step; otherwise it returns the current angle moved by exactly the step
    along the shorter arc (against the sign of the naive difference when that
    exceeds 180), which brings it closer to the target by the step; the
    result always lies in [0,360). *)
Theorem take_radial_step_spec (current target step : Z) :
  valid_angle current -> valid_angle target -> 1 <= step ->
  let r := take_radial_step current target step in
  let d := circular_distance current target in
  (r = target <-> d <= step)
  /\ (step < d ->
      r = (current + shorter_arc_sign current target * step) mod 360
      /\ circular_distance current r = step
      /\ circular_distance r target = d - step)
  /\ valid_angle r.
Proof.
  intros Hc Ht Hs r d. subst r d.
  destruct (Z_le_gt_dec (circular_distance current target) step) as [Hle|Hgt].
  - rewrite take_radial_step_snap by exact Hle.
    repeat split; auto; try lia; apply Ht.
  - destruct (take_radial_step_move current target step Hc Ht Hs)
      as (Hr & Hv & Hdist & Hmoved); [lia|].
    split; [|split].
    + split; [|lia]. intros Heq. rewrite Heq in Hdist.
      unfold circular_distance in Hdist at 1.
      replace (target - target) with 0 in Hdist by lia.
      cbn in Hdist. lia.
    + intros _. auto.
    + exact Hv.
Qed.

Lemma take_radial_step_spec_witness :
  take_radial_step 300 4 5 = 305
  /\ (take_radial_step 300 4 5 = 4 <-> circular_distance 300 4 <= 5).
Proof.
  pose proof (take_radial_step_spec 300 4 5
                ltac:(unfold valid_angle; lia) ltac:(unfold valid_angle; lia)
                ltac:(lia)) as H.
  cbv zeta in H. destruct H as (Hiff & _ & _).
  split; [reflexivity | exact Hiff].
Defined.

(** C5: for angles in [0,360) and a step of at least 1, feeding the result of
    [take_radial_step] back as the current angle reaches the target within
    [ceil(circular_distance / step)] calls, and once the target is reached
    every further call returns the target. *)
Theorem radial_steps_converge (current target step : Z) :
  valid_angle current -> valid_angle target -> 1 <= step ->
  let bound := Z.to_nat (ceil_div (circular_distance current target) step) in
  (exists n, (n <= bound)%nat /\ radial_steps n current target step = target)
  /\ (forall n, (bound <= n)%nat ->
                radial_steps n current target step = target)
  /\ take_radial_step target target step = target.
Proof.
  intros Hc Ht Hs bound.
  assert (Hall : forall n, (bound <= n)%nat ->
                           radial_steps n current target step = target).
  { intros n Hn. apply radial_steps_reach; auto.
    pose proof (circular_distance_nonneg current target Hc Ht) as Hd.
    pose proof (ceil_div_covers (circular_distance current target) step) as Hcov.
    pose proof (ceil_div_nonneg (circular_distance current target) step) as Hnn.
    subst bound. nia. }
  split; [|split].
  - exists bound. split; [lia | apply Hall; lia].
  - exact Hall.
  - apply take_radial_step_snap. unfold circular_distance. lia.
Qed.

Lemma radial_steps_converge_witness :
  exists n, (n <= 13)%nat /\ radial_steps n 300 4 5 = 4.
Proof.
  pose proof (radial_steps_converge 300 4 5
                ltac:(unfold valid_angle; lia) ltac:(unfold valid_angle; lia)
                ltac:(lia)) as H.
  cbv zeta in H. destruct H as (Hex & _ & _). exact Hex.
Defined.

End RadialFacts.

Module TickFacts.
Import Color Store Radial Engine Ticks.

Lemma load_store_same (h : heap) (r : ref) (c : ColorHSV) :
  load (store h r c) r = c.
Proof. unfold load, store; cbn. now rewrite Nat.eqb_refl. Qed.

Lemma load_store_other (h : heap) (r r' : ref) (c : ColorHSV) :
  r' <> r -> load (store h r c) r' = load h r'.
Proof.
  intros Hne. unfold load, store; cbn.
  destruct (Nat.eqb_spec r' r); [contradiction | reflexivity].
Qed.

Lemma deepcopy_fresh (h : heap) (r : ref) :
  deepcopy h r = (next_free h, snd (deepcopy h r)).
Proof. reflexivity. Qed.

Lemma load_deepcopy (h : heap) (r : ref) :
  load (snd (deepcopy h r)) (next_free h) = load h r.
Proof. unfold load, deepcopy, alloc; cbn. now rewrite Nat.eqb_refl. Qed.

Lemma load_deepcopy_other (h : heap) (r r' : ref) :
  r' <> next_free h -> load (snd (deepcopy h r)) r' = load h r'.
Proof.
  intros Hne. unfold load, deepcopy, alloc; cbn.
  destruct (Nat.eqb_spec r' (next_free h)); [contradiction | reflexivity].
Qed.

Lemma color_eqb_refl (c : ColorHSV) : color_eqb c c = true.
Proof. unfold color_eqb. now rewrite !Z.eqb_refl. Qed.

Lemma step_param_spec (h : heap) (cv tg : ref) (param : hsv_param) (target : Z) :
  let h' := step_param cv tg h (param, target) in
  load h' cv =
    set_hsv (load h cv) param
      (match param with
       | C_HUE => take_radial_step (hue (load h cv)) (hue (load h tg)) 5
       | _ => step_toward (get_hsv (load h cv) param) target
       end)
  /\ (forall r, r <> cv -> load h' r = load h r)
  /\ next_free h' = next_free h.
Proof.
  unfold step_param, step_toward, set_hsv_at, get_hsv_at.
  destruct param; cbn [param_eqb get_hsv].
  - rewrite load_store_same. repeat split.
    intros r Hr. now apply load_store_other.
  - destruct (Z.abs (saturation (load h cv) - target) <? 5);
      [|destruct (saturation (load h cv) <? target)];
      rewrite load_store_same; repeat split;
      intros r Hr; now apply load_store_other.
  - destruct (Z.abs (brightness (load h cv) - target) <? 5);
      [|destruct (brightness (load h cv) <? target)];
      rewrite load_store_same; repeat split;
      intros r Hr; now apply load_store_other.
Qed.

(** The [for] loop over the components writes the current object only. *)
Lemma step_components (h : heap) (cv tg : ref) :
  cv <> tg ->
  let h' := fold_left (step_param cv tg) (hsv_items (load h tg)) h in
  load h' cv = step_color (load h cv) (load h tg)
  /\ (forall r, r <> cv -> load h' r = load h r)
  /\ next_free h' = next_free h.
Proof.
  intros Hne. cbn [hsv_items fold_left].
  set (t := load h tg).
  destruct (step_param_spec h cv tg C_HUE (hue t)) as (L1 & O1 & N1).
  set (h1 := step_param cv tg h (C_HUE, hue t)) in *.
  destruct (step_param_spec h1 cv tg C_SAT (saturation t)) as (L2 & O2 & N2).
  set (h2 := step_param cv tg h1 (C_SAT, saturation t)) in *.
  destruct (step_param_spec h2 cv tg C_VAL (brightness t)) as (L3 & O3 & N3).
  set (h3 := step_param cv tg h2 (C_VAL, brightness t)) in *.
  cbv zeta. split; [|split].
  - rewrite L3, L2, L1. unfold step_color. cbn. reflexivity.
  - intros r Hr. rewrite O3, O2, O1 by exact Hr. reflexivity.
  - congruence.
Qed.

Lemma command_state_kept_refl (w : world) : command_state_kept w w.
Proof. unfold command_state_kept. repeat split. Qed.

Lemma command_state_kept_trans (w1 w2 w3 : world) :
  command_state_kept w1 w2 -> command_state_kept w2 w3 ->
  command_state_kept w1 w3.
Proof.
  unfold command_state_kept.
  intros (A1 & A2 & A3 & A4 & A5 & A6 & A7 & A8)
         (B1 & B2 & B3 & B4 & B5 & B6 & B7 & B8).
  repeat split; congruence.
Qed.

(** One pass of the loop body on a world whose current and target objects
    are distinct. *)
Lemma tick_spec (w : world) (t : thread) (cv : ref) :
  cv <> target_value t ->
  let w' := tick t cv w in
  let ct' := tick_contents (start_delay t)
               (load (objects w) cv, load (objects w) (target_value t)) in
  load (objects w') cv = fst ct'
  /\ load (objects w') (target_value t) = snd ct'
  /\ (forall r, r <> cv -> r <> target_value t ->
                load (objects w') r = load (objects w) r)
  /\ trace w' = trace w ++ [Sleep (interval_time t); SetPwm (fst ct')]
  /\ _thread w' = _thread w
  /\ smooth_change_in_progress w' = smooth_change_in_progress w
  /\ command_state_kept w w'.
Proof.
  intros Hne. unfold tick, tick_contents, flip_target, get_hsv_at.
  cbn [fst snd objects emit set_objects].
  destruct (step_components (objects w) cv (target_value t) Hne)
    as (Lcv & Loth & _).
  set (h2 := fold_left _ _ _) in *.
  rewrite (Loth (target_value t)) by congruence.
  rewrite Lcv. cbn [get_hsv].
  set (c' := step_color _ _) in *.
  destruct (truthy (start_delay t) && (brightness c' =? 0)
            && (brightness (load (objects w) (target_value t)) =? 0)).
  - cbn [objects set_objects emit trace _thread smooth_change_in_progress].
    unfold set_hsv_at. rewrite load_store_same.
    rewrite load_store_other by exact Hne.
    rewrite (Loth (target_value t)) by congruence.
    repeat split; auto; try (now rewrite <- app_assoc).
    intros r Hr1 Hr2. rewrite load_store_other by exact Hr2. now apply Loth.
  - cbn [objects set_objects emit trace _thread smooth_change_in_progress].
    repeat split; auto; try (now rewrite <- app_assoc);
      try (apply Loth; congruence).
Qed.

Lemma loop_pass (w : world) (t : thread) (cv : ref) :
  in_loop w t cv -> differ (contents w t cv) = true ->
  smooth_dimmer_step w = tick t cv w.
Proof.
  intros (Ht & Hpc & Hstop & _) Hd. unfold smooth_dimmer_step.
  rewrite Ht, Hpc, Hstop. unfold differ, contents in Hd. cbn [fst snd] in Hd.
  now rewrite Hd.
Qed.

Lemma loop_exit (w : world) (t : thread) (cv : ref) :
  in_loop w t cv -> differ (contents w t cv) = false ->
  smooth_dimmer_step w
  = set_in_progress (set_thread w (Some (set_pc t Exited))) false.
Proof.
  intros (Ht & Hpc & Hstop & _) Hd. unfold smooth_dimmer_step.
  rewrite Ht, Hpc, Hstop. unfold differ, contents in Hd. cbn [fst snd] in Hd.
  now rewrite Hd.
Qed.

Lemma in_loop_alive (w : world) (t : thread) (cv : ref) :
  in_loop w t cv -> thread_alive w = true.
Proof.
  intros (Ht & Hpc & _). unfold thread_alive, is_alive. now rewrite Ht, Hpc.
Qed.

(** [n] passes of the main loop, as long as the contents keep differing. *)
Lemma background_ticks (n : nat) :
  forall (w : world) (t : thread) (cv : ref),
  in_loop w t cv ->
  (forall k, (k < n)%nat ->
     differ (iter_tick k (start_delay t) (contents w t cv)) = true) ->
  let w' := background n w in
  in_loop w' t cv
  /\ contents w' t cv = iter_tick n (start_delay t) (contents w t cv)
  /\ trace w' = trace w ++ tick_events n (start_delay t) (interval_time t)
                                       (contents w t cv)
  /\ smooth_change_in_progress w' = smooth_change_in_progress w
  /\ command_state_kept w w'
  /\ (forall r, r <> cv -> r <> target_value t ->
                load (objects w') r = load (objects w) r).
Proof.
  induction n as [|n IH]; intros w t cv Hloop Hdiff.
  - cbn [background iter_tick tick_events]. rewrite app_nil_r.
    split; [exact Hloop|]. repeat (split; [reflexivity|]). split;
      [apply command_state_kept_refl | reflexivity].
  - cbn [background iter_tick tick_events].
    assert (Hd0 : differ (contents w t cv) = true)
      by (apply (Hdiff O); lia).
    rewrite (loop_pass w t cv Hloop Hd0).
    destruct Hloop as (Ht & Hpc & Hstop & Hne).
    destruct (tick_spec w t cv Hne)
      as (Lcv & Ltg & Loth & Htr & Hth & Hip & Hkept).
    set (w1 := tick t cv w) in *.
    assert (Hloop1 : in_loop w1 t cv).
    { unfold in_loop. rewrite Hth. repeat split; auto.
      destruct Hkept as (_ & _ & _ & _ & _ & _ & _ & Hs). congruence. }
    assert (Hc1 : contents w1 t cv
                  = tick_contents (start_delay t) (contents w t cv)).
    { unfold contents at 1. rewrite Lcv, Ltg. unfold contents.
      now destruct (tick_contents _ _). }
    specialize (IH w1 t cv Hloop1).
    rewrite Hc1 in IH.
    destruct IH as (I1 & I2 & I3 & I4 & I5 & I6).
    { intros k Hk. apply (Hdiff (S k)). lia. }
    split; [exact I1|]. split; [exact I2|]. split; [|split; [|split]].
    + rewrite I3, Htr, <- app_assoc. reflexivity.
    + congruence.
    + eapply command_state_kept_trans; eauto.
    + intros r Hr1 Hr2. rewrite I6 by assumption. now apply Loth.
Qed.

Lemma background_S (n : nat) (w : world) :
  background (S n) w = background n (smooth_dimmer_step w).
Proof. reflexivity. Qed.

Lemma background_plus (a b : nat) (w : world) :
  background (a + b) w = background b (background a w).
Proof.
  revert w. induction a as [|a IH]; intros w; cbn [Nat.add background];
    [reflexivity | apply IH].
Qed.

Lemma exited_step (w : world) :
  thread_alive w = false -> smooth_dimmer_step w = w.
Proof.
  unfold thread_alive, is_alive, smooth_dimmer_step.
  destruct (_thread w) as [t|]; [|reflexivity].
  destruct (pc t); intros H; try discriminate; reflexivity.
Qed.

Lemma exited_background (n : nat) (w : world) :
  thread_alive w = false -> background n w = w.
Proof.
  intros H. induction n as [|n IH]; cbn [background]; [reflexivity|].
  now rewrite exited_step.
Qed.

Lemma truthy_true (x : Q) : ~ x == 0 -> truthy x = true.
Proof.
  intros H. unfold truthy. destruct (Qeq_bool x 0) eqn:E; [|reflexivity].
  apply Qeq_bool_iff in E. contradiction.
Qed.

Lemma truthy_false (x : Q) : x == 0 -> truthy x = false.
Proof.
  intros H. unfold truthy. apply Qeq_bool_iff in H. now rewrite H.
Qed.

Lemma differ_distinct (w : world) (cv tg : ref) :
  color_eqb (load (objects w) cv) (load (objects w) tg) = false -> cv <> tg.
Proof.
  intros H ->. now rewrite color_eqb_refl in H.
Qed.

(** A step of a thread started without delay leaves its target object as it
    is. *)
Lemma no_delay_step (w : world) (t : thread) :
  _thread w = Some t -> start_delay t == 0 ->
  let w' := smooth_dimmer_step w in
  load (objects w') (target_value t) = load (objects w) (target_value t)
  /\ exists t', _thread w' = Some t'
                /\ target_value t' = target_value t
                /\ start_delay t' = start_delay t.
Proof.
  intros Ht Hz. unfold smooth_dimmer_step. rewrite Ht.
  destruct (pc t) as [waited|cv|] eqn:Hpc.
  - destruct (Qlt_bool waited (start_delay t) && negb (_stop_thread w));
      cbn; split; eauto.
  - destruct (negb (color_eqb (load (objects w) cv)
                              (load (objects w) (target_value t)))
              && negb (_stop_thread w)) eqn:Hc.
    + apply andb_prop in Hc. destruct Hc as (Hc & _).
      apply negb_true_iff in Hc.
      pose proof (differ_distinct w cv _ Hc) as Hne.
      destruct (tick_spec w t cv Hne) as (_ & Ltg & _ & _ & Hth & _).
      split.
      * rewrite Ltg. unfold tick_contents, flip_target. cbn [fst snd].
        now rewrite (truthy_false _ Hz).
      * exists t. rewrite Hth. auto.
    + cbn. split; eauto.
  - split; eauto.
Qed.

(** C8: in an activity with a non-zero start delay, a pass of the loop that
    ends with the live brightness at 0 while the target brightness is 0 sets
    the target brightness to 100, so no pass ends with both at 0; in an
    activity with zero start delay no step ever changes the target. *)
Theorem dim_flips_target_at_zero :
  (forall (w : world) (t : thread) (cv : ref),
     _thread w = Some t -> pc t = Stepping cv -> _stop_thread w = false ->
     color_eqb (load (objects w) cv)
               (load (objects w) (target_value t)) = false ->
     ~ start_delay t == 0 ->
     let w' := smooth_dimmer_step w in
     let tg := target_value t in
     (get_hsv_at (objects w') cv C_VAL = 0 ->
      get_hsv_at (objects w) tg C_VAL = 0 ->
      get_hsv_at (objects w') tg C_VAL = 100)
     /\ ~ (get_hsv_at (objects w') cv C_VAL = 0
           /\ get_hsv_at (objects w') tg C_VAL = 0))
  /\ (forall (w : world) (t : thread) (n : nat),
        _thread w = Some t -> start_delay t == 0 ->
        load (objects (background n w)) (target_value t)
        = load (objects w) (target_value t)).
Proof.
  split.
  - intros w t cv Ht Hpc Hstop Hd Hdelay w' tg. subst w' tg.
    pose proof (differ_distinct w cv _ Hd) as Hne.
    assert (Hloop : in_loop w t cv) by (unfold in_loop; auto).
    rewrite (loop_pass w t cv Hloop)
      by (unfold differ, contents; cbn [fst snd]; now rewrite Hd).
    destruct (tick_spec w t cv Hne) as (Lcv & Ltg & _).
    unfold get_hsv_at. rewrite Lcv, Ltg.
    unfold tick_contents, flip_target. cbn [fst snd get_hsv].
    rewrite (truthy_true _ Hdelay). cbn [andb].
    set (c' := step_color _ _).
    destruct (Z.eqb_spec (brightness c') 0) as [Hc|Hc];
      destruct (Z.eqb_spec (brightness (load (objects w) (target_value t))) 0)
        as [Hg|Hg]; cbn [andb set_hsv brightness]; split; try lia; auto.
  - intros w t n. revert w t.
    induction n as [|n IH]; intros w t Ht Hz; cbn [background];
      [reflexivity|].
    destruct (no_delay_step w t Ht Hz) as (Hl & t' & Ht' & Htg & Hsd).
    rewrite <- Htg, (IH _ t' Ht') by (now rewrite Hsd).
    now rewrite Htg.
Qed.

(** *** Convergence of the loop on a target that differs in brightness only *)

Lemma iter_tick_plus (a b : nat) (d : Q) (ct : ColorHSV * ColorHSV) :
  iter_tick (a + b) d ct = iter_tick b d (iter_tick a d ct).
Proof.
  revert ct. induction a as [|a IH]; intros ct; cbn [Nat.add iter_tick];
    [reflexivity | apply IH].
Qed.

Lemma step_toward_same (x : Z) : step_toward x x = x.
Proof. unfold step_toward. now rewrite Z.sub_diag. Qed.

Lemma step_color_brightness_only (h s v x : Z) (wc wt : bool) :
  0 <= h < 360 ->
  step_color (mkColor h s v wc) (mkColor h s x wt)
  = mkColor h s (step_toward v x) wc.
Proof.
  intros Hh. unfold step_color. cbn [hue saturation brightness white_in_use].
  rewrite RadialFacts.take_radial_step_snap
    by (unfold circular_distance; lia).
  rewrite Z.mod_small by exact Hh.
  now rewrite step_toward_same.
Qed.

Lemma differ_brightness (h s v x : Z) (wc wt : bool) :
  v <> x -> differ (mkColor h s v wc, mkColor h s x wt) = true.
Proof.
  intros Hne. unfold differ, color_eqb. cbn.
  rewrite !Z.eqb_refl. cbn. apply negb_true_iff. now apply Z.eqb_neq.
Qed.

(** Towards a non-zero target brightness: the loop reaches it. *)
Lemma converge_plain (d : Q) (h s x : Z) (wc wt : bool) (m : nat) :
  0 <= h < 360 -> x <> 0 ->
  forall v, Z.abs (v - x) <= 5 * Z.of_nat m ->
  exists n,
    (forall k, (k < n)%nat ->
       differ (iter_tick k d (mkColor h s v wc, mkColor h s x wt)) = true)
    /\ iter_tick n d (mkColor h s v wc, mkColor h s x wt)
       = (mkColor h s x wc, mkColor h s x wt).
Proof.
  intros Hh Hx. induction m as [|m IH]; intros v Hv.
  - assert (v = x) by lia. subst v. exists O. split; [lia | reflexivity].
  - destruct (Z.eq_dec v x) as [->|Hne].
    + exists O. split; [lia | reflexivity].
    + destruct (IH (step_toward v x)) as (n & Hd & Hn).
      { unfold step_toward.
        destruct (Z.ltb_spec (Z.abs (v - x)) 5);
          [|destruct (Z.ltb_spec v x)]; lia. }
      assert (Htick : tick_contents d (mkColor h s v wc, mkColor h s x wt)
                      = (mkColor h s (step_toward v x) wc, mkColor h s x wt)).
      { unfold tick_contents, flip_target. cbn [fst snd].
        rewrite step_color_brightness_only by exact Hh.
        cbn [brightness].
        destruct (Z.eqb_spec x 0); [contradiction|].
        now rewrite !andb_false_r. }
      exists (S n). split.
      * intros [|k] Hk; cbn [iter_tick].
        -- now apply differ_brightness.
        -- rewrite Htick. apply Hd. lia.
      * cbn [iter_tick]. now rewrite Htick.
Qed.

(** Towards brightness 0 in an activity with a start delay: the pass that
    reaches 0 turns the target to 100. *)
Lemma converge_to_zero (d : Q) (h s : Z) (wc wt : bool) (m : nat) :
  0 <= h < 360 -> truthy d = true ->
  forall v, v <> 0 -> Z.abs v <= 5 * Z.of_nat m ->
  exists n,
    (forall k, (k < n)%nat ->
       differ (iter_tick k d (mkColor h s v wc, mkColor h s 0 wt)) = true)
    /\ iter_tick n d (mkColor h s v wc, mkColor h s 0 wt)
       = (mkColor h s 0 wc, mkColor h s 100 wt).
Proof.
  intros Hh Hd. induction m as [|m IH]; intros v Hne Hv; [lia|].
  assert (Hstep : step_color (mkColor h s v wc) (mkColor h s 0 wt)
                  = mkColor h s (step_toward v 0) wc)
    by (now apply step_color_brightness_only).
  destruct (Z.eq_dec (step_toward v 0) 0) as [Hz|Hnz].
  - exists 1%nat. split.
    + intros k Hk. assert (k = O) by lia. subst k. cbn [iter_tick].
      now apply differ_brightness.
    + cbn [iter_tick]. unfold tick_contents, flip_target. cbn [fst snd].
      rewrite Hstep, Hd, Hz. reflexivity.
  - destruct (IH (step_toward v 0) Hnz) as (n & Hdn & Hn).
    { unfold step_toward in *.
      destruct (Z.ltb_spec (Z.abs (v - 0)) 5);
        [|destruct (Z.ltb_spec v 0)]; lia. }
    assert (Htick : tick_contents d (mkColor h s v wc, mkColor h s 0 wt)
                    = (mkColor h s (step_toward v 0) wc, mkColor h s 0 wt)).
    { unfold tick_contents, flip_target. cbn [fst snd].
      rewrite Hstep. cbn [brightness].
      destruct (Z.eqb_spec (step_toward v 0) 0); [contradiction|].
      now rewrite andb_false_r. }
    exists (S n). split.
    + intros [|k] Hk; cbn [iter_tick].
      * now apply differ_brightness.
      * rewrite Htick. apply Hdn. lia.
    + cbn [iter_tick]. now rewrite Htick.
Qed.

(** A manual dim left alone ends with both objects at brightness 100. *)
Lemma converge_dim (d : Q) (h s v x : Z) (wc wt : bool) :
  0 <= h < 360 -> truthy d = true ->
  x = (if negb (v =? 0) then 0 else 100) ->
  exists n,
    (forall k, (k < n)%nat ->
       differ (iter_tick k d (mkColor h s v wc, mkColor h s x wt)) = true)
    /\ iter_tick n d (mkColor h s v wc, mkColor h s x wt)
       = (mkColor h s 100 wc, mkColor h s 100 wt).
Proof.
  intros Hh Hd ->.
  destruct (Z.eqb_spec v 0) as [->|Hv]; cbn [negb].
  - apply (converge_plain d h s 100 wc wt 20); auto; lia.
  - destruct (converge_to_zero d h s wc wt (Z.to_nat (Z.abs v)) Hh Hd v Hv)
      as (n1 & Hd1 & Hn1); [lia|].
    destruct (converge_plain d h s 100 wc wt 20 Hh ltac:(lia) 0 ltac:(lia))
      as (n2 & Hd2 & Hn2).
    exists (n1 + n2)%nat. split.
    + intros k Hk. destruct (Nat.lt_ge_cases k n1) as [Hlt|Hge].
      * now apply Hd1.
      * replace k with (n1 + (k - n1))%nat by lia.
        rewrite iter_tick_plus, Hn1. apply Hd2. lia.
    + now rewrite iter_tick_plus, Hn1.
Qed.

(** *** The start delay *)

Lemma wait_done (w : world) (t : thread) (waited : Q) :
  _thread w = Some t -> pc t = Waiting waited ->
  Qlt_bool waited (start_delay t) && negb (_stop_thread w) = false ->
  smooth_dimmer_step w
  = set_thread w (Some (set_pc t (Stepping (state_current w)))).
Proof.
  intros Ht Hpc Hc. unfold smooth_dimmer_step. now rewrite Ht, Hpc, Hc.
Qed.

Lemma wait_slice (w : world) (t : thread) (waited : Q) :
  _thread w = Some t -> pc t = Waiting waited ->
  Qlt_bool waited (start_delay t) && negb (_stop_thread w) = true ->
  smooth_dimmer_step w
  = emit (set_thread w (Some (set_pc t (Waiting (waited + 0.1)))))
         (Sleep 0.1).
Proof.
  intros Ht Hpc Hc. unfold smooth_dimmer_step. now rewrite Ht, Hpc, Hc.
Qed.

Lemma Qlt_bool_false (x y : Q) : (y <= x)%Q -> Qlt_bool x y = false.
Proof.
  intros H. unfold Qlt_bool. apply Qle_bool_iff in H. now rewrite H.
Qed.

Lemma Qlt_bool_true (x y : Q) : Qlt_bool x y = true -> (x < y)%Q.
Proof.
  unfold Qlt_bool. intros H. apply negb_true_iff in H.
  apply Qnot_le_lt. intros Hle. apply Qle_bool_iff in Hle. congruence.
Qed.

(** The wait ends, leaving everything but the trace and the position of the
    thread as it was. *)
Lemma wait_phase (m : nat) :
  forall (w : world) (t : thread) (waited : Q),
  _thread w = Some t -> pc t = Waiting waited ->
  (start_delay t - waited <= inject_Z (Z.of_nat m) * 0.1)%Q ->
  exists k,
    let w' := background k w in
    _thread w' = Some (set_pc t (Stepping (state_current w)))
    /\ objects w' = objects w
    /\ smooth_change_in_progress w' = smooth_change_in_progress w
    /\ command_state_kept w w'.
Proof.
  induction m as [|m IH]; intros w t waited Ht Hpc Hm.
  - exists 1%nat. cbn [background].
    rewrite (wait_done w t waited Ht Hpc).
    + cbv zeta. unfold command_state_kept. cbn. repeat split.
    + rewrite Qlt_bool_false; [reflexivity|].
      change (inject_Z (Z.of_nat 0)) with 0%Q in Hm. lra.
  - destruct (Qlt_bool waited (start_delay t) && negb (_stop_thread w)) eqn:Hc.
    + pose proof (wait_slice w t waited Ht Hpc Hc) as Hstep.
      destruct (IH (emit (set_thread w
                            (Some (set_pc t (Waiting (waited + 0.1)))))
                         (Sleep 0.1))
                   (set_pc t (Waiting (waited + 0.1))) (waited + 0.1)%Q)
        as (k & K1 & K2 & K3 & K4); [reflexivity | reflexivity | |].
      * cbn [set_pc start_delay].
        rewrite Nat2Z.inj_succ in Hm. unfold Z.succ in Hm.
        rewrite inject_Z_plus in Hm.
        change (inject_Z 1) with 1%Q in Hm. lra.
      * exists (S k). cbn [background]. rewrite Hstep. cbv zeta.
        split; [rewrite K1; reflexivity|].
        split; [rewrite K2; reflexivity|].
        split; [rewrite K3; reflexivity|].
        eapply command_state_kept_trans; [|exact K4].
        unfold command_state_kept. cbn. repeat split.
    + exists 1%nat. cbn [background].
      rewrite (wait_done w t waited Ht Hpc Hc). cbv zeta.
      unfold command_state_kept. cbn. repeat split.
Qed.

Lemma slices_cover (d : Q) :
  (d - 0 <= inject_Z (Z.of_nat (Z.to_nat (Qceiling (d * 10)))) * 0.1)%Q.
Proof.
  pose proof (Qle_ceiling (d * 10)) as Hc.
  assert (Hz : Qceiling (d * 10) <= Z.of_nat (Z.to_nat (Qceiling (d * 10))))
    by lia.
  rewrite Zle_Qle in Hz. lra.
Qed.

Lemma exited_stays (a b : nat) (w : world) :
  thread_alive (background a w) = false -> (a <= b)%nat ->
  background b w = background a w.
Proof.
  intros H Hab. replace b with (a + (b - a))%nat by lia.
  rewrite background_plus. now apply exited_background.
Qed.

Lemma added_app (w w' : world) (es : list event) :
  trace w' = trace w ++ es -> added w w' = es.
Proof.
  intros H. unfold added. rewrite H. clear H.
  induction (trace w) as [|e l IH]; [reflexivity | exact IH].
Qed.

Lemma iter_tick_no_delay (n : nat) (d : Q) (ct : ColorHSV * ColorHSV) :
  truthy d = false -> iter_tick n d ct = iter_tick n 0 ct.
Proof.
  intros Hd. revert ct. induction n as [|n IH]; intros ct; [reflexivity|].
  cbn [iter_tick]. rewrite IH. f_equal.
  unfold tick_contents, flip_target. now rewrite Hd.
Qed.

Lemma tick_events_no_delay (n : nat) (d i : Q) (ct : ColorHSV * ColorHSV) :
  truthy d = false -> tick_events n d i ct = tick_events n 0 i ct.
Proof.
  intros Hd. revert ct. induction n as [|n IH]; intros ct; [reflexivity|].
  cbn [tick_events].
  assert (He : tick_contents d ct = tick_contents 0 ct)
    by (unfold tick_contents, flip_target; now rewrite Hd).
  now rewrite He, IH.
Qed.

(** The main loop from its head to the return of the thread. *)
Lemma loop_to_exit (w : world) (t : thread) (cv : ref) (n : nat) :
  in_loop w t cv ->
  (forall k, (k < n)%nat ->
     differ (iter_tick k (start_delay t) (contents w t cv)) = true) ->
  differ (iter_tick n (start_delay t) (contents w t cv)) = false ->
  let w' := background (n + 1) w in
  thread_alive w' = false
  /\ contents w' t cv = iter_tick n (start_delay t) (contents w t cv)
  /\ trace w' = trace w ++ tick_events n (start_delay t) (interval_time t)
                                       (contents w t cv)
  /\ smooth_change_in_progress w' = false
  /\ command_state_kept w w'.
Proof.
  intros Hloop Hdiff Hend.
  destruct (background_ticks n w t cv Hloop Hdiff)
    as (Hl & Hc & Htr & _ & Hk & _).
  rewrite background_plus. set (wn := background n w) in *.
  cbn [background]. rewrite <- Hc in Hend.
  rewrite (loop_exit wn t cv Hl Hend). cbv zeta.
  split; [reflexivity|]. split; [exact Hc|]. split; [exact Htr|].
  split; [reflexivity|].
  eapply command_state_kept_trans; [exact Hk|].
  unfold command_state_kept. cbn. repeat split.
Qed.

(** C7: a transition with a non-zero step interval from (0,0,0) to
    (0,0,100), left alone, ends: the thread returns, the live color equals
    the target, the hardware callback has been called 20 times with the
    brightness going 5, 10, ..., 100, which never decreases. *)
Theorem smooth_change_black_to_full (w : world) (t : thread) :
  _thread w = Some t -> pc t = Waiting 0 -> start_delay t == 0 ->
  ~ interval_time t == 0 -> _stop_thread w = false ->
  state_current w <> target_value t ->
  hsv_of (load (objects w) (state_current w)) = (0, 0, 0) ->
  hsv_of (load (objects w) (target_value t)) = (0, 0, 100) ->
  let w' := background 22 w in
  let calls := added w w' in
  thread_alive w' = false
  /\ (forall n, (22 <= n)%nat -> background n w = w')
  /\ color_eqb (load (objects w') (state_current w))
               (load (objects w') (target_value t)) = true
  /\ hsv_of (load (objects w') (state_current w)) = (0, 0, 100)
  /\ pwm_brightness calls
     = [5; 10; 15; 20; 25; 30; 35; 40; 45; 50;
        55; 60; 65; 70; 75; 80; 85; 90; 95; 100]
  /\ (20 <= List.length (filter is_set_pwm calls))%nat
  /\ non_decreasing (pwm_brightness calls) = true.
Proof.
  intros Ht Hpc Hd Hi Hstop Hne Hcur Htgt w' calls.
  set (cv := state_current w) in *.
  set (t1 := set_pc t (Stepping cv)).
  assert (Hstep : smooth_dimmer_step w = set_thread w (Some t1)).
  { apply (wait_done w t 0 Ht Hpc).
    rewrite Qlt_bool_false; [reflexivity|]. rewrite Hd. apply Qle_refl. }
  assert (Hloop : in_loop (set_thread w (Some t1)) t1 cv)
    by (unfold in_loop; cbn; auto).
  assert (Htr : truthy (start_delay t1) = false)
    by (apply truthy_false; exact Hd).
  destruct (load (objects w) cv) as [h s v wc] eqn:Ec.
  destruct (load (objects w) (target_value t)) as [h' s' v' wt] eqn:Et.
  unfold hsv_of in Hcur, Htgt. cbn in Hcur, Htgt.
  injection Hcur as -> -> ->. injection Htgt as -> -> ->.
  assert (Hct : contents (set_thread w (Some t1)) t1 cv
                = (mkColor 0 0 0 wc, mkColor 0 0 100 wt)).
  { unfold contents. cbn [objects set_thread target_value t1 set_pc].
    now rewrite Ec, Et. }
  destruct (loop_to_exit (set_thread w (Some t1)) t1 cv 20 Hloop)
    as (Halive & Hc & Htrace & _ & _).
  { intros k Hk. rewrite Hct, iter_tick_no_delay by exact Htr.
    do 20 (destruct k as [|k]; [vm_compute; reflexivity|]). lia. }
  { rewrite Hct, iter_tick_no_delay by exact Htr. vm_compute. reflexivity. }
  rewrite Hct, iter_tick_no_delay in Hc by exact Htr.
  rewrite Hct, tick_events_no_delay in Htrace by exact Htr.
  change (20 + 1)%nat with 21%nat in Halive, Hc, Htrace.
  assert (Hw' : w' = background 21 (set_thread w (Some t1)))
    by (rewrite <- Hstep; exact (background_S 21 w)).
  assert (Hw22 : w' = background 22 w) by reflexivity.
  clearbody w'.
  rewrite <- Hw' in Halive, Hc, Htrace.
  assert (Hit : iter_tick 20 0 (mkColor 0 0 0 wc, mkColor 0 0 100 wt)
                = (mkColor 0 0 100 wc, mkColor 0 0 100 wt))
    by (vm_compute; reflexivity).
  rewrite Hit in Hc. clear Hit.
  unfold contents in Hc. cbn [target_value t1 set_pc] in Hc.
  injection Hc as Hcv Htg.
  assert (Hcalls : calls
                   = tick_events 20 0 (interval_time t1)
                       (mkColor 0 0 0 wc, mkColor 0 0 100 wt)).
  { subst calls. apply added_app. exact Htrace. }
  split; [exact Halive|].
  split.
  { intros n Hn. rewrite Hw22. apply exited_stays; [|exact Hn].
    rewrite <- Hw22. exact Halive. }
  rewrite Hcv, Htg, Hcalls.
  repeat split; vm_compute; reflexivity.
Qed.

Lemma smooth_change_black_to_full_witness :
  thread_alive
    (background 22 (Samples.sample Samples.black Samples.white
                      (Some Samples.smooth_thread))) = false.
Proof.
  refine (proj1 (smooth_change_black_to_full
                   (Samples.sample Samples.black Samples.white
                      (Some Samples.smooth_thread))
                   Samples.smooth_thread
                   eq_refl eq_refl _ _ eq_refl _ eq_refl eq_refl)).
  - reflexivity.
  - intros H. discriminate H.
  - intros H. discriminate H.
Defined.

(** C10: a manual-dim activity (positive start delay, target a copy of the
    current color with the brightness at the opposite extreme) that is left
    alone returns, and whenever it has returned the live brightness is 100,
    whatever the brightness it started from. *)
Theorem manual_dim_ends_at_full (w : world) (t : thread) :
  _thread w = Some t -> pc t = Waiting 0 -> (0 < start_delay t)%Q ->
  _stop_thread w = false ->
  state_current w <> target_value t ->
  valid_hue (load (objects w) (state_current w)) ->
  hsv_of (load (objects w) (target_value t))
  = hsv_of (set_hsv (load (objects w) (state_current w)) C_VAL
              (if negb (brightness (load (objects w) (state_current w)) =? 0)
               then 0 else 100)) ->
  (exists n, thread_alive (background n w) = false)
  /\ (forall n, thread_alive (background n w) = false ->
        state_current (background n w) = state_current w
        /\ brightness (load (objects (background n w)) (state_current w))
           = 100).
Proof.
  intros Ht Hpc Hdelay Hstop Hne Hhue Htgt.
  set (cv := state_current w) in *.
  destruct (wait_phase (Z.to_nat (Qceiling (start_delay t * 10))) w t 0 Ht Hpc
              (slices_cover (start_delay t)))
    as (k & Kt & Ko & _ & Kk).
  cbv zeta in Kt, Ko, Kk. fold cv in Kt.
  set (wk := background k w) in *.
  set (t1 := set_pc t (Stepping cv)) in *.
  assert (Hloop : in_loop wk t1 cv).
  { unfold in_loop. split; [exact Kt|]. split; [reflexivity|].
    split; [|exact Hne].
    destruct Kk as (_ & _ & _ & _ & _ & _ & _ & Hs). congruence. }
  assert (Htruthy : truthy (start_delay t1) = true).
  { apply truthy_true. cbn [t1 set_pc start_delay]. intros Hz.
    rewrite Hz in Hdelay. now apply Qlt_irrefl in Hdelay. }
  destruct (load (objects w) cv) as [h s v wc] eqn:Ec.
  destruct (load (objects w) (target_value t)) as [h' s' x wt] eqn:Et.
  unfold hsv_of, valid_hue in Htgt, Hhue.
  cbn [set_hsv hue saturation brightness] in Htgt, Hhue.
  injection Htgt as -> -> Hx.
  assert (Hct : contents wk t1 cv = (mkColor h s v wc, mkColor h s x wt)).
  { unfold contents. cbn [t1 set_pc target_value]. now rewrite Ko, Ec, Et. }
  destruct (converge_dim (start_delay t1) h s v x wc wt Hhue Htruthy Hx)
    as (n & Hdiff & Hend).
  destruct (loop_to_exit wk t1 cv n Hloop) as (Halive & Hc & _ & _ & Hkept).
  { intros j Hj. rewrite Hct. now apply Hdiff. }
  { rewrite Hct, Hend. unfold differ. cbn [fst snd].
    unfold color_eqb. cbn. now rewrite !Z.eqb_refl. }
  rewrite Hct, Hend in Hc.
  assert (HN : background (k + (n + 1)) w = background (n + 1) wk)
    by apply background_plus.
  rewrite <- HN in Halive, Hc, Hkept.
  set (wN := background (k + (n + 1)) w) in *. clearbody wk.
  assert (Hfinal : state_current wN = cv
                   /\ brightness (load (objects wN) cv) = 100).
  { split.
    - destruct Hkept as (H1 & _). destruct Kk as (H2 & _).
      unfold cv. congruence.
    - unfold contents in Hc. injection Hc as Hcv _. now rewrite Hcv. }
  split.
  - exists (k + (n + 1))%nat. exact Halive.
  - intros m Hm.
    assert (Hsame : background m w = wN).
    { destruct (Nat.le_gt_cases m (k + (n + 1))) as [Hle|Hgt].
      - symmetry. now apply exited_stays.
      - apply exited_stays; [exact Halive | lia]. }
    rewrite Hsame. exact Hfinal.
Qed.

Lemma manual_dim_ends_at_full_witness :
  exists n,
    thread_alive
      (background n (Samples.sample (mkColor 10 20 60 false)
                                    (mkColor 10 20 0 false)
                                    (Some Samples.dim_thread))) = false.
Proof.
  refine (proj1 (manual_dim_ends_at_full
                   (Samples.sample (mkColor 10 20 60 false)
                                   (mkColor 10 20 0 false)
                                   (Some Samples.dim_thread))
                   Samples.dim_thread
                   eq_refl eq_refl _ eq_refl _ _ eq_refl)).
  - reflexivity.
  - intros H. discriminate H.
  - unfold valid_hue. cbn. lia.
Defined.

Lemma dim_flips_target_at_zero_witness :
  get_hsv_at
    (objects (smooth_dimmer_step
                (Samples.sample (mkColor 10 20 5 false) (mkColor 10 20 0 false)
                   (Some (set_pc Samples.dim_thread (Stepping 0%nat))))))
    1%nat C_VAL = 100.
Proof.
  refine (proj1 (proj1 dim_flips_target_at_zero
                   (Samples.sample (mkColor 10 20 5 false)
                      (mkColor 10 20 0 false)
                      (Some (set_pc Samples.dim_thread (Stepping 0%nat))))
                   (set_pc Samples.dim_thread (Stepping 0%nat)) 0%nat
                   eq_refl eq_refl eq_refl eq_refl _) _ _).
  - intros H. discriminate H.
  - reflexivity.
  - reflexivity.
Defined.

End TickFacts.

Module CommandFacts.
Import Color Store Radial Engine Ticks TickFacts.

(** *** What the thread leaves alone *)

Lemma tick_kept (t : thread) (cv : ref) (w : world) :
  command_state_kept w (tick t cv w) /\ _thread (tick t cv w) = _thread w.
Proof.
  unfold tick, command_state_kept.
  match goal with |- context [if ?b then _ else _] => destruct b end;
    cbn; repeat split.
Qed.

Lemma step_kept (w : world) : command_state_kept w (smooth_dimmer_step w).
Proof.
  unfold smooth_dimmer_step.
  destruct (_thread w) as [t|]; [|apply command_state_kept_refl].
  destruct (pc t) as [waited|cv|]; [| |apply command_state_kept_refl].
  - destruct (Qlt_bool waited (start_delay t) && negb (_stop_thread w));
      unfold command_state_kept; cbn; repeat split.
  - destruct (negb (color_eqb (load (objects w) cv)
                              (load (objects w) (target_value t)))
              && negb (_stop_thread w)).
    + apply tick_kept.
    + unfold command_state_kept; cbn; repeat split.
Qed.

Lemma background_kept (n : nat) (w : world) :
  command_state_kept w (background n w).
Proof.
  revert w. induction n as [|n IH]; intros w; cbn [background].
  - apply command_state_kept_refl.
  - eapply command_state_kept_trans; [apply step_kept | apply IH].
Qed.

(** *** Joining *)

Lemma join_timeout_ran (budget : nat) (w : world) :
  exists ran, (ran <= budget)%nat
    /\ join_timeout budget w = background ran w
    /\ (thread_alive (join_timeout budget w) = true -> ran = budget).
Proof.
  revert w. induction budget as [|b IH]; intros w; cbn [join_timeout].
  - exists O. destruct (thread_alive w); auto.
  - destruct (thread_alive w) eqn:Ha.
    + destruct (IH (smooth_dimmer_step w)) as (ran & Hle & Heq & Hal).
      exists (S ran). cbn [background].
      split; [lia|]. split; [exact Heq|].
      intros H. now rewrite Hal.
    + exists O. cbn [background].
      split; [lia|]. split; [reflexivity|]. congruence.
Qed.

Lemma join_forever_ran (fuel : nat) (w w' : world) :
  join_forever fuel w = Some w' ->
  thread_alive w' = false
  /\ exists ran, (ran <= fuel)%nat /\ w' = background ran w.
Proof.
  revert w. induction fuel as [|f IH]; intros w; cbn [join_forever].
  - destruct (thread_alive w) eqn:Ha; [discriminate|].
    intros H; injection H as <-. split; [exact Ha|]. exists O. auto.
  - destruct (thread_alive w) eqn:Ha.
    + intros H. destruct (IH _ H) as (Hd & ran & Hle & ->).
      split; [exact Hd|]. exists (S ran). split; [lia | reflexivity].
    + intros H; injection H as <-. split; [exact Ha|]. exists O.
      split; [lia | reflexivity].
Qed.

Lemma join_forever_returns (fuel : nat) :
  forall (w : world) (ran : nat),
  (ran <= fuel)%nat -> thread_alive (background ran w) = false ->
  exists w', join_forever fuel w = Some w'.
Proof.
  induction fuel as [|f IH]; intros w ran Hle Hd; cbn [join_forever].
  - assert (ran = O) by lia. subst ran. cbn [background] in Hd.
    rewrite Hd. eauto.
  - destruct (thread_alive w) eqn:Ha; [|eauto].
    destruct ran as [|ran]; [cbn [background] in Hd; congruence|].
    apply (IH _ ran); [lia | exact Hd].
Qed.

Lemma join_forever_done (fuel : nat) (w : world) :
  thread_alive w = false -> join_forever fuel w = Some w.
Proof. intros H. destruct fuel; cbn [join_forever]; now rewrite H. Qed.

(** *** A cancelled thread *)

(** With the cancellation flag set a step touches neither the colors nor
    the trace. *)
Lemma cancelled_step (w : world) :
  _stop_thread w = true ->
  objects (smooth_dimmer_step w) = objects w
  /\ trace (smooth_dimmer_step w) = trace w.
Proof.
  intros Hs. unfold smooth_dimmer_step.
  destruct (_thread w) as [t|]; [|auto].
  destruct (pc t) as [waited|cv|]; [| |auto];
    rewrite Hs, andb_false_r; cbn; auto.
Qed.

Lemma cancelled_background (n : nat) (w : world) :
  _stop_thread w = true ->
  objects (background n w) = objects w /\ trace (background n w) = trace w.
Proof.
  revert w. induction n as [|n IH]; intros w Hs; cbn [background]; [auto|].
  destruct (cancelled_step w Hs) as (Ho & Ht).
  destruct (IH (smooth_dimmer_step w)) as (Ho' & Ht').
  - destruct (step_kept w) as (_ & _ & _ & _ & _ & _ & _ & H). congruence.
  - split; congruence.
Qed.

Lemma cancelled_step_pc (w : world) (t : thread) :
  _stop_thread w = true -> _thread w = Some t ->
  _stop_thread (smooth_dimmer_step w) = true
  /\ _thread (smooth_dimmer_step w)
     = Some (set_pc t match pc t with
                      | Waiting _ => Stepping (state_current w)
                      | _ => Exited
                      end).
Proof.
  intros Hs Ht. unfold smooth_dimmer_step. rewrite Ht.
  destruct t as [d i tg p]. destruct p as [waited|cv|];
    cbn [pc start_delay target_value];
    rewrite ?Hs, ?andb_false_r; cbn; auto.
Qed.

(** With the cancellation flag set the thread returns within two
    iterations. *)
Lemma cancelled_exits (w : world) :
  _stop_thread w = true -> thread_alive (background 2 w) = false.
Proof.
  intros Hs. cbn [background].
  destruct (_thread w) as [t|] eqn:Ht.
  - destruct (cancelled_step_pc w t Hs Ht) as (Hs1 & Ht1).
    destruct (cancelled_step_pc _ _ Hs1 Ht1) as (_ & Ht2).
    unfold thread_alive, is_alive. rewrite Ht2. cbn [set_pc pc].
    destruct (pc t); reflexivity.
  - unfold smooth_dimmer_step at 2. rewrite Ht.
    unfold smooth_dimmer_step. rewrite Ht.
    unfold thread_alive. now rewrite Ht.
Qed.

(** *** [stop_dimming] *)



(** *** [apply_value_change] *)

Lemma join_forever_more (fuel : nat) :
  forall (fuel' : nat) (w w' : world),
  join_forever fuel w = Some w' -> (fuel <= fuel')%nat ->
  join_forever fuel' w = Some w'.
Proof.
  induction fuel as [|f IH]; intros fuel' w w'; cbn [join_forever].
  - destruct (thread_alive w) eqn:Ha; [discriminate|].
    intros H _. rewrite join_forever_done by exact Ha. exact H.
  - destruct (thread_alive w) eqn:Ha.
    + intros H Hle. destruct fuel' as [|f']; [lia|].
      cbn [join_forever]. rewrite Ha. apply IH; [exact H | lia].
    + intros H _. rewrite join_forever_done by exact Ha. exact H.
Qed.

(** Joining a cancelled thread returns after at most two iterations of it,
    during which it touches neither the colors nor the trace. *)
Lemma join_cancelled (fuel : nat) (w : world) :
  _stop_thread w = true -> (2 <= fuel)%nat ->
  exists ran, (ran <= 2)%nat
    /\ join_forever fuel w = Some (background ran w)
    /\ thread_alive (background ran w) = false.
Proof.
  intros Hs Hf.
  destruct (join_forever_returns 2 w 2 (le_n 2) (cancelled_exits w Hs))
    as (w' & Hj).
  destruct (join_forever_ran 2 w w' Hj) as (Hd & ran & Hle & ->).
  exists ran. split; [exact Hle|]. split; [|exact Hd].
  now apply (join_forever_more 2).
Qed.

Lemma step_toward_closer (c t : Z) :
  Z.abs (step_toward c t - t) <= Z.abs (c - t)
  /\ (c <> t -> Z.abs (step_toward c t - t) < Z.abs (c - t)).
Proof.
  unfold step_toward.
  destruct (Z.ltb_spec (Z.abs (c - t)) 5); [|destruct (Z.ltb_spec c t)]; lia.
Qed.

Lemma radial_step_closer (c t : Z) :
  valid_angle c -> valid_angle t ->
  let r := take_radial_step c t 5 mod 360 in
  circular_distance r t <= circular_distance c t
  /\ (c <> t -> circular_distance r t < circular_distance c t).
Proof.
  intros Hc Ht. cbv zeta.
  destruct (Z_le_gt_dec (circular_distance c t) 5) as [Hle|Hgt].
  - rewrite RadialFacts.take_radial_step_snap by exact Hle.
    rewrite Z.mod_small by exact Ht.
    unfold circular_distance, valid_angle in *. lia.
  - destruct (RadialFacts.take_radial_step_move c t 5 Hc Ht ltac:(lia))
      as (_ & Hv & Hd & _); [lia|].
    cbv zeta in *. rewrite Z.mod_small by exact Hv. lia.
Qed.

(** A pass of the loop brings the current color closer to the target. *)
Lemma step_color_closer (c t : ColorHSV) :
  valid_hue c -> valid_hue t -> color_eqb c t = false ->
  color_distance (step_color c t) t < color_distance c t.
Proof.
  intros Hc Ht Hd. unfold color_distance, step_color.
  cbn [hue saturation brightness].
  destruct (radial_step_closer (hue c) (hue t) Hc Ht) as (H1 & H1').
  destruct (step_toward_closer (saturation c) (saturation t)) as (H2 & H2').
  destruct (step_toward_closer (brightness c) (brightness t)) as (H3 & H3').
  cbv zeta in *. unfold color_eqb in Hd.
  destruct (Z.eqb_spec (hue c) (hue t)) as [Eh|Eh]; [|specialize (H1' Eh); lia].
  destruct (Z.eqb_spec (saturation c) (saturation t)) as [Es|Es];
    [|specialize (H2' Es); lia].
  destruct (Z.eqb_spec (brightness c) (brightness t)) as [Eb|Eb];
    [discriminate | specialize (H3' Eb); lia].
Qed.



(** *** [start_dimming] *)

Lemma step_untouched (w : world) (r : ref) :
  untouched w r ->
  load (objects (smooth_dimmer_step w)) r = load (objects w) r
  /\ untouched (smooth_dimmer_step w) r.
Proof.
  intros (Hcur & Hth). unfold smooth_dimmer_step, untouched.
  destruct (_thread w) as [t|] eqn:Ht; [|rewrite Ht; auto].
  destruct Hth as (Htg & Hcv).
  destruct (pc t) as [waited|cv|] eqn:Hpc.
  - destruct (Qlt_bool waited (start_delay t) && negb (_stop_thread w));
      cbn; auto.
  - destruct (negb (color_eqb (load (objects w) cv)
                              (load (objects w) (target_value t)))
              && negb (_stop_thread w)) eqn:Hc.
    + apply andb_prop in Hc. destruct Hc as (Hc & _).
      apply negb_true_iff in Hc.
      pose proof (differ_distinct w cv _ Hc) as Hne.
      destruct (tick_spec w t cv Hne) as (_ & _ & Loth & _ & Hth & _ & Hk).
      destruct Hk as (Hk & _).
      split; [now apply Loth|]. rewrite Hth, Ht, Hk, Hpc. auto.
    + cbn. auto.
  - rewrite Ht, Hpc. auto.
Qed.

Lemma background_untouched (n : nat) (w : world) (r : ref) :
  untouched w r ->
  load (objects (background n w)) r = load (objects w) r.
Proof.
  revert w. induction n as [|n IH]; intros w Hu; cbn [background];
    [reflexivity|].
  destruct (step_untouched w r Hu) as (Hl & Hu').
  now rewrite IH.
Qed.



(** *** [on_message] *)


Section Candidates.

Variable set_color_hsv_str : ColorHSV -> string -> option ColorHSV.
Variable is_toggle_cmd : string -> bool.

(** A chain of [if]/[elif] that falls through has made no call outward and
    has written to fresh objects only; only the toggle branch for a lit
    actuator rebinds [state.last], and its candidate is dark. *)
Lemma interpret_candidate (e : env) (msg : string) (w w1 : world)
    (new_color : ref) :
  allocated w (state_current w) ->
  interpret set_color_hsv_str is_toggle_cmd e msg w = Candidate new_color w1 ->
  trace w1 = trace w
  /\ state_current w1 = state_current w
  /\ _thread w1 = _thread w
  /\ _stop_thread w1 = _stop_thread w
  /\ smooth_change_in_progress w1 = smooth_change_in_progress w
  /\ dimming_state_before w1 = dimming_state_before w
  /\ load (objects w1) (state_current w) = load (objects w) (state_current w)
  /\ (state_last w1 = state_last w
      \/ color_eqb (load (objects w1) (state_current w1))
                   (load (objects w1) new_color) = false).
Proof.
  intros Halloc. unfold allocated in Halloc. unfold interpret.
  rewrite (deepcopy_fresh (objects w) (state_current w)). cbv beta iota.
  set (h1 := snd (deepcopy (objects w) (state_current w))).
  set (nc := next_free (objects w)).
  assert (Hcur1 : load h1 (state_current w) = load (objects w) (state_current w))
    by (apply load_deepcopy_other; lia).
  assert (Hnext1 : next_free h1 = S nc) by reflexivity.
  clearbody h1.
  assert (Hstore : forall c,
             load (store h1 nc c) (state_current w)
             = load (objects w) (state_current w)).
  { intros c. rewrite load_store_other by (subst nc; lia). exact Hcur1. }
  destruct (contains "," msg && negb (contains "NaN" msg)).
  { destruct (set_color_hsv_str (load h1 nc) msg); [|discriminate].
    intros H; injection H as <- <-. fields. repeat split; auto. }
  destruct (isdigit msg).
  { intros H; injection H as <- <-. unfold set_hsv_at. fields.
    repeat split; auto. }
  destruct (String.eqb msg "ON").
  { intros H; injection H as <- <-. unfold set_hsv_at. fields.
    repeat split; auto. }
  destruct (String.eqb msg "OFF").
  { intros H; injection H as <- <-. unfold set_hsv_at. fields.
    repeat split; auto. }
  destruct (String.eqb msg "DIM").
  { destruct (start_dimming _ _); discriminate. }
  destruct (String.eqb msg "STOP").
  { destruct (stop_dimming _ _) as [[|] w2]; discriminate. }
  destruct (is_toggle_cmd msg); [|discriminate].
  destruct (within_debounce e); [discriminate|].
  cbn [state_current set_objects objects].
  destruct (Z.ltb_spec 0 (get_hsv_at h1 (state_current w) C_VAL)) as [Hlit|Hdark].
  - rewrite (deepcopy_fresh h1 (state_current w)). cbv beta iota.
    set (h2 := snd (deepcopy h1 (state_current w))).
    assert (Hcur2 : load h2 (state_current w)
                    = load (objects w) (state_current w)).
    { subst h2. rewrite load_deepcopy_other; [exact Hcur1|].
      rewrite Hnext1. subst nc. lia. }
    clearbody h2.
    intros H; injection H as <- <-. fields. unfold set_hsv_at.
    assert (Hcur3 : load (store h2 nc (set_hsv (load h2 nc) C_VAL 0))
                         (state_current w)
                    = load (objects w) (state_current w)).
    { rewrite load_store_other by (subst nc; lia). exact Hcur2. }
    repeat split; auto. right.
    rewrite Hcur3, load_store_same.
    unfold get_hsv_at in Hlit. rewrite Hcur1 in Hlit. cbn [get_hsv] in Hlit.
    unfold color_eqb. cbn [set_hsv brightness].
    destruct (Z.eqb_spec (brightness (load (objects w) (state_current w))) 0);
      [lia|]. now rewrite andb_false_r.
  - intros H; injection H as <- <-. fields. repeat split; auto.
Qed.

(** C9: a command whose candidate color equals the current color is dropped:
    the handler returns having made no call but the log entry - no
    hardware-apply call, no thread started, no publish - and leaves the
    current color, the remembered last color and the engine as they are. *)
Theorem equal_candidate_dropped (e : env) (msg : string) (w w1 : world)
    (new_color : ref) :
  allocated w (state_current w) ->
  interpret set_color_hsv_str is_toggle_cmd e msg w = Candidate new_color w1 ->
  color_eqb (load (objects w1) (state_current w1))
            (load (objects w1) new_color) = true ->
  exists w',
    on_message set_color_hsv_str is_toggle_cmd e msg w = Returned w'
    /\ added w w' = [Log INFO EqualToCurrent]
    /\ filter is_set_pwm (added w w') = []
    /\ filter is_start (added w w') = []
    /\ filter is_publish (added w w') = []
    /\ state_current w' = state_current w
    /\ load (objects w') (state_current w') = load (objects w) (state_current w)
    /\ state_last w' = state_last w
    /\ _thread w' = _thread w
    /\ _stop_thread w' = _stop_thread w
    /\ smooth_change_in_progress w' = smooth_change_in_progress w
    /\ dimming_state_before w' = dimming_state_before w.
Proof.
  intros Halloc Hint Heq.
  destruct (interpret_candidate e msg w w1 new_color Halloc Hint)
    as (Htr & Hcur & Hth & Hstop & Hip & Hsb & Hload & Hlast).
  destruct Hlast as [Hlast|Hne]; [|congruence].
  exists (emit w1 (Log INFO EqualToCurrent)).
  assert (Hadd : added w (emit w1 (Log INFO EqualToCurrent))
                 = [Log INFO EqualToCurrent]).
  { apply added_app. cbn [emit trace]. now rewrite Htr. }
  split.
  { unfold on_message. now rewrite Hint, Heq. }
  rewrite Hadd. cbn [emit state_current objects state_last _thread
                     _stop_thread smooth_change_in_progress
                     dimming_state_before filter is_set_pwm is_start
                     is_publish].
  rewrite Hcur. repeat split; auto.
Qed.

End Candidates.

Lemma equal_candidate_dropped_witness :
  exists w',
    on_message (fun _ _ => None) (fun _ => false) (mkEnv 0 0 0 false) "ON"
      (Samples.sample Samples.white Samples.white None) = Returned w'
    /\ added (Samples.sample Samples.white Samples.white None) w'
       = [Log INFO EqualToCurrent].
Proof.
  destruct (equal_candidate_dropped (fun _ _ => None) (fun _ => false)
              (mkEnv 0 0 0 false) "ON"
              (Samples.sample Samples.white Samples.white None)
              _ _ (le_S 1 1 (le_n 1)) eq_refl eq_refl)
    as (w' & Hret & Hadd & _).
  exists w'. split; [exact Hret | exact Hadd].
Defined.

End CommandFacts.

(** * References stay allocated *)

Module Invariant.
Import Color Store Radial Engine Ticks TickFacts CommandFacts.

Lemma step_param_next_free (cv tg : ref) (h : heap) (item : hsv_param * Z) :
  next_free (step_param cv tg h item) = next_free h.
Proof.
  destruct item as [param target].
  apply (step_param_spec h cv tg param target).
Qed.

Lemma tick_next_free (t : thread) (cv : ref) (w : world) :
  next_free (objects (tick t cv w)) = next_free (objects w).
Proof.
  unfold tick. cbn [hsv_items fold_left].
  match goal with |- context [if ?b then _ else _] => destruct b end;
    cbn [objects set_objects emit set_hsv_at store next_free];
    now rewrite !step_param_next_free.
Qed.

Lemma step_next_free (w : world) :
  next_free (objects (smooth_dimmer_step w)) = next_free (objects w).
Proof.
  unfold smooth_dimmer_step.
  destruct (_thread w) as [t|]; [|reflexivity].
  destruct (pc t) as [waited|cv|]; [| |reflexivity].
  - now destruct (Qlt_bool waited (start_delay t) && negb (_stop_thread w)).
  - destruct (negb (color_eqb (load (objects w) cv)
                              (load (objects w) (target_value t)))
              && negb (_stop_thread w)); [apply tick_next_free | reflexivity].
Qed.

Lemma step_well_formed (w : world) :
  well_formed w -> well_formed (smooth_dimmer_step w).
Proof.
  intros (Hc & Hl & Ht).
  pose proof (step_next_free w) as Hn.
  destruct (step_kept w) as (Kc & Kl & _).
  unfold well_formed, allocated in *. rewrite Hn, Kc, Kl.
  split; [exact Hc|]. split; [exact Hl|].
  unfold smooth_dimmer_step.
  destruct (_thread w) as [t|] eqn:Et; [|now rewrite Et].
  destruct Ht as (Htg & Hcv).
  destruct (pc t) as [waited|cv|] eqn:Epc.
  - destruct (Qlt_bool waited (start_delay t) && negb (_stop_thread w));
      cbn; auto.
  - destruct (negb (color_eqb (load (objects w) cv)
                              (load (objects w) (target_value t)))
              && negb (_stop_thread w)).
    + destruct (tick_kept t cv w) as (_ & Hth). rewrite Hth, Et, Epc. auto.
    + cbn. auto.
  - rewrite Et, Epc. auto.
Qed.

Lemma background_well_formed (n : nat) (w : world) :
  well_formed w -> well_formed (background n w).
Proof.
  revert w. induction n as [|n IH]; intros w Hw; cbn [background];
    [exact Hw | apply IH, step_well_formed, Hw].
Qed.

(** A world that differs from a well-formed one in what it has allocated
    since, in the flags, the snapshot and the trace. *)
Lemma well_formed_grown (w w' : world) :
  well_formed w ->
  (next_free (objects w) <= next_free (objects w'))%nat ->
  state_current w' = state_current w -> state_last w' = state_last w ->
  _thread w' = _thread w ->
  well_formed w'.
Proof.
  intros (Hc & Hl & Ht) Hn Ec El Eth.
  unfold well_formed, allocated in *. rewrite Ec, El, Eth.
  split; [lia|]. split; [lia|].
  destruct (_thread w) as [t|]; [|exact I].
  destruct Ht as (Htg & Hcv). split; [lia|].
  destruct (pc t); auto. lia.
Qed.

Lemma background_next_free (n : nat) (w : world) :
  next_free (objects (background n w)) = next_free (objects w).
Proof.
  revert w. induction n as [|n IH]; intros w; cbn [background];
    [reflexivity | now rewrite IH, step_next_free].
Qed.

Lemma start_thread_well_formed (fuel : nat) (d i : Q) (value : ref)
    (w w' : world) :
  well_formed w -> allocated w value ->
  _start_thread fuel d i value w = Some w' ->
  well_formed w' /\ next_free (objects w') = next_free (objects w)
  /\ state_current w' = state_current w /\ state_last w' = state_last w.
Proof.
  intros Hw Hv. unfold _start_thread.
  assert (Hjoin : forall w1,
             match _thread w with
             | Some _ => join_forever fuel (emit w (Join None))
             | None => Some w
             end = Some w1 ->
             well_formed w1
             /\ next_free (objects w1) = next_free (objects w)
             /\ state_current w1 = state_current w
             /\ state_last w1 = state_last w).
  { intros w1. destruct (_thread w) eqn:Et.
    - intros Hj. destruct (join_forever_ran _ _ _ Hj) as (_ & ran & _ & ->).
      destruct (background_kept ran (emit w (Join None))) as (Kc & Kl & _).
      split; [|split; [|split]].
      + apply background_well_formed.
        apply (well_formed_grown w); auto.
      + now rewrite background_next_free.
      + exact Kc.
      + exact Kl.
    - intros H; injection H as <-. auto. }
  destruct (match _thread w with
            | Some _ => join_forever fuel (emit w (Join None))
            | None => Some w
            end) as [w1|]; [|discriminate].
  destruct (Hjoin w1 eq_refl) as ((Hc & Hl & _) & Hn & Ec & El).
  intros H; injection H as <-.
  unfold well_formed, allocated in *. cbn. rewrite Hn.
  repeat split; auto; lia.
Qed.

Lemma apply_value_change_well_formed (fuel : nat) (value : ref)
    (w w' : world) :
  well_formed w -> allocated w value ->
  apply_value_change fuel value w = Some w' ->
  well_formed w' /\ next_free (objects w') = next_free (objects w)
  /\ state_current w' = state_current w /\ state_last w' = state_last w.
Proof.
  intros Hw Hv. unfold apply_value_change.
  destruct (truthy (smooth_change_interval w)).
  - intros H.
    apply (start_thread_well_formed fuel _ _ value
             (set_in_progress (set_stop_thread w true) true) w') in H;
      auto.
  - intros H; injection H as <-. split; [exact Hw|]. cbn. auto.
Qed.

Lemma start_dimming_well_formed (fuel : nat) (w w' : world) :
  well_formed w -> start_dimming fuel w = Some w' ->
  well_formed w' /\ (next_free (objects w) <= next_free (objects w'))%nat
  /\ state_current w' = state_current w /\ state_last w' = state_last w.
Proof.
  intros Hw. unfold start_dimming.
  destruct (negb (smooth_change_in_progress w));
    [|intros H; injection H as <-; auto].
  cbn [objects set_state_before state_current].
  rewrite (deepcopy_fresh (objects w) (state_current w)). cbv beta iota.
  set (h3 := if negb _ then _ else _).
  assert (Hn3 : next_free h3 = S (next_free (objects w)))
    by (subst h3; match goal with |- context [if ?b then _ else _] =>
                    destruct b end; reflexivity).
  clearbody h3. intros H.
  apply start_thread_well_formed in H.
  - destruct H as (Hw' & Hn & Ec & El). cbn [objects set_objects] in Hn.
    split; [exact Hw'|]. split; [rewrite Hn, Hn3; lia|].
    split; [exact Ec | exact El].
  - apply (well_formed_grown w); auto. cbn. lia.
  - unfold allocated. cbn. lia.
Qed.

Lemma stop_dimming_well_formed (budget : nat) (w : world) :
  well_formed w ->
  well_formed (snd (stop_dimming budget w))
  /\ next_free (objects (snd (stop_dimming budget w))) = next_free (objects w)
  /\ state_current (snd (stop_dimming budget w)) = state_current w
  /\ state_last (snd (stop_dimming budget w)) = state_last w.
Proof.
  intros Hw. unfold stop_dimming.
  destruct (negb (smooth_change_in_progress w)); [|cbn; auto].
  cbn [set_stop_thread _thread].
  destruct (_thread w) as [t|] eqn:Et.
  - set (c := emit _ _).
    destruct (join_timeout_ran budget c) as (ran & _ & Heq & _).
    assert (Hwc : well_formed c)
      by (apply (well_formed_grown w); auto).
    assert (Hj : well_formed (join_timeout budget c)
                 /\ next_free (objects (join_timeout budget c))
                    = next_free (objects w)
                 /\ state_current (join_timeout budget c) = state_current w
                 /\ state_last (join_timeout budget c) = state_last w).
    { rewrite Heq.
      destruct (background_kept ran c) as (Kc & Kl & _).
      split; [now apply background_well_formed|].
      split; [now rewrite background_next_free|]. split; assumption. }
    destruct Hj as (H1 & H2 & H3 & H4).
    destruct (negb (thread_alive (join_timeout budget c))).
    + destruct (snapshot_differs _ _); cbn [snd]; auto.
    + cbn [snd]. split; [|cbn; auto].
      apply (well_formed_grown (join_timeout budget c)); auto.
  - cbn [snd]. split; [|cbn; auto].
    apply (well_formed_grown w); auto.
Qed.

Section Reachable.

Variable set_color_hsv_str : ColorHSV -> string -> option ColorHSV.
Variable is_toggle_cmd : string -> bool.

Lemma publish_well_formed (w : world) :
  well_formed w -> well_formed (publish_actuator_state w).
Proof.
  intros Hw. unfold publish_actuator_state.
  destruct (single_channel w); apply (well_formed_grown w); auto.
Qed.

(** What the chain of [if]/[elif] leaves is well-formed, and so is its
    candidate. *)
Lemma interpret_well_formed (e : env) (msg : string) (w : world) :
  well_formed w ->
  match interpret set_color_hsv_str is_toggle_cmd e msg w with
  | Candidate new_color w1 => well_formed w1 /\ allocated w1 new_color
  | Handled w1 => well_formed w1
  | Failed w1 => well_formed w1
  | Stuck => True
  end.
Proof.
  intros Hw. unfold interpret.
  rewrite (deepcopy_fresh (objects w) (state_current w)). cbv beta iota.
  set (h1 := snd (deepcopy (objects w) (state_current w))).
  set (nc := next_free (objects w)).
  assert (Hn1 : next_free h1 = S nc) by reflexivity.
  clearbody h1.
  assert (Hw1 : well_formed (set_objects w h1))
    by (apply (well_formed_grown w); auto; cbn; lia).
  assert (Hstore : forall c,
             well_formed (set_objects (set_objects w h1) (store h1 nc c))
             /\ allocated (set_objects (set_objects w h1) (store h1 nc c)) nc).
  { intros c. split; [|unfold allocated; cbn; lia].
    apply (well_formed_grown w); auto. cbn. lia. }
  destruct (contains "," msg && negb (contains "NaN" msg)).
  { destruct (set_color_hsv_str (load h1 nc) msg); [apply Hstore | exact Hw1]. }
  destruct (isdigit msg); [apply Hstore|].
  destruct (String.eqb msg "ON"); [apply Hstore|].
  destruct (String.eqb msg "OFF"); [apply Hstore|].
  destruct (String.eqb msg "DIM").
  { destruct (start_dimming (join_fuel e) (set_objects w h1)) as [w2|] eqn:Hd;
      [|exact I].
    now apply start_dimming_well_formed in Hd. }
  destruct (String.eqb msg "STOP").
  { pose proof (stop_dimming_well_formed (join_budget e) _ Hw1) as (Hs & _).
    destruct (stop_dimming (join_budget e) (set_objects w h1)) as [[|] w2];
      cbn [snd] in Hs; [|exact Hs].
    apply publish_well_formed. apply (well_formed_grown w2); auto. }
  destruct (is_toggle_cmd msg);
    [|apply (well_formed_grown (set_objects w h1)); auto].
  destruct (within_debounce e);
    [apply (well_formed_grown (set_objects w h1)); auto|].
  cbn [objects set_objects state_current].
  rewrite (deepcopy_fresh h1 (state_current w)). cbv beta iota.
  destruct (0 <? get_hsv_at h1 (state_current w) C_VAL).
  - 
    set (h2 := snd (deepcopy h1 (state_current w))).
    assert (Hn2 : next_free h2 = S (S nc)) by (subst h2; cbn; now rewrite Hn1).
    clearbody h2.
    clear Hw1 Hstore. destruct Hw as (Hc & Hl & Ht).
    unfold well_formed, allocated in *.
    cbn [objects set_objects set_state_last state_current state_last _thread
         set_hsv_at store next_free].
    rewrite Hn1, Hn2. fold nc in Hc, Hl, Ht.
    split; [|lia]. split; [lia|]. split; [lia|].
    destruct (_thread w) as [t|]; [|exact I].
    destruct Ht as (Htg & Hcv). split; [lia|].
    destruct (pc t); auto; lia.
  - split; [exact Hw1|]. apply Hw1.
Qed.

Lemma on_message_well_formed (e : env) (msg : string) (w w' : world) :
  well_formed w ->
  on_message set_color_hsv_str is_toggle_cmd e msg w = Returned w'
  \/ on_message set_color_hsv_str is_toggle_cmd e msg w = Raised w' ->
  well_formed w'.
Proof.
  intros Hw. pose proof (interpret_well_formed e msg w Hw) as Hi.
  unfold on_message.
  destruct (interpret set_color_hsv_str is_toggle_cmd e msg w)
    as [new_color w1|w1|w1|].
  - destruct Hi as (Hw1 & Hnc).
    destruct (color_eqb _ _).
    + intros [H|H]; [|discriminate]. injection H as <-.
      apply (well_formed_grown w1); auto.
    + destruct (apply_value_change _ _ _) as [w3|] eqn:Ha;
        [|intros [H|H]; discriminate].
      apply apply_value_change_well_formed in Ha.
      * destruct Ha as (Hw3 & Hn3 & _).
        intros [H|H]; [|discriminate]. injection H as <-.
        apply publish_well_formed.
        pose proof (background_well_formed (head_start e) w3 Hw3)
          as (Hc & Hl & Ht).
        pose proof (background_next_free (head_start e) w3) as Hn.
        unfold well_formed, allocated in *. cbn. rewrite Hn, Hn3 in *.
        cbn in Hnc. repeat split; auto.
      * apply (well_formed_grown w1); auto.
      * exact Hnc.
  - intros [H|H]; [|discriminate]. now injection H as <-.
  - intros [H|H]; [discriminate|]. now injection H as <-.
  - intros [H|H]; discriminate.
Qed.

Lemma init_well_formed (initial : ColorHSV) (single : bool) (di dd si : Q) :
  well_formed (init_world initial single di dd si).
Proof.
  unfold init_world, alloc, deepcopy, alloc. cbv beta iota.
  apply publish_well_formed.
  unfold well_formed, allocated. cbn. repeat split; lia.
Qed.

(** Every state the actuator can be in is well-formed. *)
Lemma reachable_well_formed (w : world) :
  reachable set_color_hsv_str is_toggle_cmd w -> well_formed w.
Proof.
  induction 1 as [initial single di dd si | w _ IH
                 | e msg w w' _ IH Hm | e msg w w' _ IH Hm].
  - apply init_well_formed.
  - now apply step_well_formed.
  - eapply on_message_well_formed; eauto.
  - eapply on_message_well_formed; eauto.
Qed.

End Reachable.

End Invariant.

(** * Scenarios *)

Module Scenarios.
Import Color Store Engine Samples.
Local Open Scope string_scope.

Example scale_half : Scale.scale_color_val 50 = 32767.
Proof. reflexivity. Qed.

Example scale_inverted_full : Scale.scale_color_val (-100 + 0) = 65535.
Proof. reflexivity. Qed.

Example radial_across_zero : Radial.take_radial_step 300 4 5 = 305.
Proof. reflexivity. Qed.

Example radial_back_across_zero : Radial.take_radial_step 4 300 5 = 359.
Proof. reflexivity. Qed.

(** "DIM" on (10,20,60), the thread left alone for the delay and two passes,
    then "STOP": the dim is reported and the color at that moment
    published. *)
Example dim_then_stop :
  outcome
    (and_then
       (on_message no_parser toggle_only (mkEnv 0 2 0 false) "DIM"
          (sample (mkColor 10 20 60 false) white None))
       (fun w => on_message no_parser toggle_only (mkEnv 0 2 0 false) "STOP"
                   (background 8 w)))
  = Some ([Start 0.5 0.2 3%nat;
           Sleep 0.1; Sleep 0.1; Sleep 0.1; Sleep 0.1; Sleep 0.1;
           Sleep 0.2; SetPwm (mkColor 10 20 55 false);
           Sleep 0.2; SetPwm (mkColor 10 20 50 false);
           Join (Some 0.2%Q); Log INFO DimmedTo;
           Publish (PubHsv (mkColor 10 20 50 false))],
          50, false, false).
Proof. vm_compute. reflexivity. Qed.

(** "STOP" when nothing was ever started: no call is made. *)
Example stop_without_dim :
  outcome (on_message no_parser toggle_only (mkEnv 0 2 0 false) "STOP"
             (sample (mkColor 10 20 60 false) white None))
  = Some ([], 60, false, false).
Proof. vm_compute. reflexivity. Qed.

(** A manual dim of (10,20,60) left alone fades out and back in. *)
Example dim_left_alone :
  pwm_brightness
    (trace (background 60
              (sample (mkColor 10 20 60 false) (mkColor 10 20 0 false)
                      (Some dim_thread))))
  = [55; 50; 45; 40; 35; 30; 25; 20; 15; 10; 5; 0;
     5; 10; 15; 20; 25; 30; 35; 40; 45; 50;
     55; 60; 65; 70; 75; 80; 85; 90; 95; 100].
Proof. vm_compute. reflexivity. Qed.

(** [apply_value_change] from black towards the object at reference 1, the
    thread then left alone: twenty calls of the hardware callback, and the
    thread has returned. *)
Example apply_then_left_alone :
  option_map
    (fun w => (pwm_brightness (trace (background 22 w)),
               thread_alive (background 22 w),
               hsv_of (load (objects (background 22 w)) 0%nat)))
    (apply_value_change 0 1%nat (sample black white None))
  = Some ([5; 10; 15; 20; 25; 30; 35; 40; 45; 50;
           55; 60; 65; 70; 75; 80; 85; 90; 95; 100],
          false, (0, 0, 100)).
Proof. vm_compute. reflexivity. Qed.

(** An unknown command is logged and nothing else happens. *)
Example unknown_command :
  outcome (on_message no_parser toggle_only (mkEnv 0 2 0 false) "bogus"
             (sample (mkColor 10 20 60 false) white None))
  = Some ([Log WARNING UnrecognizedCommand], 60, false, false).
Proof. vm_compute. reflexivity. Qed.

End Scenarios.

(** * The relay actuator *)

Module RelayFacts.
Import Py Relay.

Lemma last_of_snoc {A : Type} (l : list A) (x : A) :
  last_of (l ++ [x]) = Some x.
Proof. unfold last_of. rewrite map_app. cbn. apply last_last. Qed.

Lemma levels_app (tr tr' : list event) :
  levels (tr ++ tr') = levels tr ++ levels tr'.
Proof.
  induction tr as [|e tr IH]; [reflexivity|].
  destruct e; cbn; now rewrite IH.
Qed.

Lemma publications_app (tr tr' : list event) :
  publications (tr ++ tr') = publications tr ++ publications tr'.
Proof.
  induction tr as [|e tr IH]; [reflexivity|].
  destruct e; cbn; now rewrite IH.
Qed.

Lemma no_repeat_snoc {A : Type} (l : list A) (x : A) :
  no_repeat l -> last_of l <> Some x -> no_repeat (l ++ [x]).
Proof.
  induction l as [|y l IH]; intros Hl Hx; [cbn; auto|].
  destruct l as [|z l].
  - cbn in *. repeat split; auto. congruence.
  - destruct Hl as (Hyz & Hl). split; [exact Hyz|].
    apply IH; [exact Hl|]. exact Hx.
Qed.

Lemma switching_added (a a' : actuator) (es : list event) :
  trace a' = trace a ++ es -> added a a' = es.
Proof.
  intros H. unfold added. rewrite H. clear H.
  induction (trace a) as [|e l IH]; [reflexivity | exact IH].
Qed.

(** Index by index: which entries of [relay_map] exist. *)
Lemma relay_map_index (r : Z) :
  match py_index relay_map r with
  | Some m => -9 <= r <= 8 /\ 0 <= m <= 8 /\ (1 <= r <= 8 -> 1 <= m <= 8)
  | None => r < -9 \/ 8 < r
  end.
Proof.
  destruct (Z_lt_le_dec r (-9)) as [Hlo|Hlo].
  { unfold py_index. change (Z.of_nat (List.length relay_map)) with 9.
    cbv zeta. split_bools; lia. }
  destruct (Z_lt_le_dec 8 r) as [Hhi|Hhi].
  { unfold py_index. change (Z.of_nat (List.length relay_map)) with 9.
    cbv zeta. split_bools; lia. }
  assert (Hr : r = -9 \/ r = -8 \/ r = -7 \/ r = -6 \/ r = -5 \/ r = -4
               \/ r = -3 \/ r = -2 \/ r = -1 \/ r = 0 \/ r = 1 \/ r = 2
               \/ r = 3 \/ r = 4 \/ r = 5 \/ r = 6 \/ r = 7 \/ r = 8) by lia.
  repeat (destruct Hr as [->|Hr]; [vm_compute; intuition congruence|]).
  subst r. vm_compute. intuition congruence.
Qed.

Section Driver.

Variable set_raises : Z -> Z -> Z -> bool.
Variable is_toggle_cmd : string -> bool.

Lemma init_fields (c : config) (a : actuator) :
  init set_raises c = Some a ->
  py_index relay_map (cfg_relay c) = Some (mapped_relay a)
  /\ stack a = cfg_stack c /\ invert a = cfg_invert c
  /\ init_state a = cfg_initial c /\ sim_button a = cfg_sim_button c.
Proof.
  unfold init. destruct (py_index relay_map (cfg_relay c)) as [m|];
    [|discriminate].
  intros H; injection H as <-.
  cbn [stack mapped_relay init_state sim_button invert].
  destruct (set_raises (cfg_stack c) m (Z.b2z (cfg_initial c)));
    destruct (cfg_sim_button c); destruct (cfg_invert c); cbn; auto.
Qed.

(** X1: the constructor raises exactly for a relay number below -9 or above
    8 (a negative number in range counts from the end of the map); the
    relay numbers 1 to 8 go to the relays 1 to 8, no two to the same. *)
Theorem relay_numbers_map_one_to_one :
  (forall c, init set_raises c = None <-> cfg_relay c < -9 \/ 8 < cfg_relay c)
  /\ (forall c a, 1 <= cfg_relay c <= 8 -> init set_raises c = Some a ->
                  1 <= mapped_relay a <= 8)
  /\ (forall c c' a a',
        1 <= cfg_relay c <= 8 -> 1 <= cfg_relay c' <= 8 ->
        init set_raises c = Some a -> init set_raises c' = Some a' ->
        mapped_relay a = mapped_relay a' -> cfg_relay c = cfg_relay c').
Proof.
  split; [|split].
  - intros c. pose proof (relay_map_index (cfg_relay c)) as H.
    unfold init. destruct (py_index relay_map (cfg_relay c)) as [m|].
    + split; [discriminate | lia].
    + split; auto.
  - intros c a Hr Hi. destruct (init_fields c a Hi) as (Hm & _).
    pose proof (relay_map_index (cfg_relay c)) as H. rewrite Hm in H.
    now apply H.
  - intros c c' a a' Hr Hr' Hi Hi' Heq.
    destruct (init_fields c a Hi) as (Hm & _).
    destruct (init_fields c' a' Hi') as (Hm' & _).
    rewrite <- Heq in Hm'. revert Hm Hm'.
    generalize (mapped_relay a). intros m.
    assert (H1 : cfg_relay c = 1 \/ cfg_relay c = 2 \/ cfg_relay c = 3
                 \/ cfg_relay c = 4 \/ cfg_relay c = 5 \/ cfg_relay c = 6
                 \/ cfg_relay c = 7 \/ cfg_relay c = 8) by lia.
    assert (H2 : cfg_relay c' = 1 \/ cfg_relay c' = 2 \/ cfg_relay c' = 3
                 \/ cfg_relay c' = 4 \/ cfg_relay c' = 5 \/ cfg_relay c' = 6
                 \/ cfg_relay c' = 7 \/ cfg_relay c' = 8) by lia.
    clear Hr Hr' Hi Hi' Heq.
    repeat (destruct H1 as [->|H1]);
      repeat (destruct H2 as [->|H2]);
      try rewrite H1; try rewrite H2; vm_compute; congruence.
Qed.

(** *** Switching *)

Lemma switch_returns (msg : string) (a : actuator) (b : bool) :
  driver_accepts set_raises a ->
  (String.eqb msg "ON" = true /\ b = true
   \/ String.eqb msg "ON" = false /\ String.eqb msg "OFF" = true /\ b = false
   \/ String.eqb msg "ON" = false /\ String.eqb msg "OFF" = false
      /\ String.eqb msg "TOGGLE" = true
      /\ b = negb (truth (current_state a))) ->
  switch set_raises msg a = Returned (switched a b).
Proof.
  intros Hacc Hmsg. unfold switch, switched, set_relay.
  destruct Hmsg as [(-> & ->)|[(-> & -> & ->)|(-> & -> & -> & ->)]];
    cbn [stack mapped_relay invert set_current_state emit].
  - destruct (invert a); cbn; rewrite Hacc; reflexivity.
  - destruct (invert a); cbn; rewrite Hacc; reflexivity.
  - destruct (truth (current_state a)), (invert a); cbn; rewrite Hacc;
      reflexivity.
Qed.

Lemma switched_trace (a : actuator) (b : bool) :
  trace (switched a b)
  = trace a ++ [Log (SetTo (onoff_to_str (Z.b2z (xorb b (invert a)))));
                SetRelay (stack a) (mapped_relay a)
                         (Z.b2z (xorb b (invert a)));
                Publish (state_text b)].
Proof.
  unfold switched, publish_actuator_state. cbn. rewrite <- !app_assoc.
  destruct b; reflexivity.
Qed.

Lemma level_log (tr : list event) (m : relay_log) :
  level (tr ++ [Log m]) = level tr
  /\ published (tr ++ [Log m]) = published tr
  /\ levels (tr ++ [Log m]) = levels tr
  /\ publications (tr ++ [Log m]) = publications tr.
Proof.
  unfold level, published. rewrite levels_app, publications_app. cbn.
  now rewrite !app_nil_r.
Qed.

Lemma steady_log (a : actuator) (m : relay_log) :
  steady a -> steady (emit a (Log m)).
Proof.
  intros ((Hs & b & Hc & Hl & Hp) & Hn1 & Hn2).
  destruct (level_log (trace a) m) as (E1 & E2 & E3 & E4).
  unfold steady, consistent. cbn [emit trace sim_button current_state invert].
  rewrite E1, E2, E3, E4. split; [|auto].
  split; [exact Hs|]. exists b. auto.
Qed.

Lemma steady_switched (a : actuator) (b : bool) :
  steady a -> current_state a = Some (negb b) -> steady (switched a b).
Proof.
  intros ((Hs & b0 & Hc & Hl & Hp) & Hn1 & Hn2) Hcur.
  rewrite Hc in Hcur. injection Hcur as ->.
  unfold steady, consistent, level, published in *.
  rewrite switched_trace, levels_app, publications_app.
  cbn [levels publications app].
  unfold switched, publish_actuator_state.
  cbn [sim_button current_state invert emit set_current_state].
  rewrite !last_of_snoc.
  split; [|split].
  - split; [exact Hs|]. exists b. auto.
  - apply no_repeat_snoc; [exact Hn1|]. rewrite Hl.
    destruct b, (invert a); cbn; congruence.
  - apply no_repeat_snoc; [exact Hn2|]. rewrite Hp.
    destruct b; cbn; congruence.
Qed.

Lemma same_wiring_refl (a : actuator) : same_wiring a a.
Proof. unfold same_wiring. auto 10. Qed.

Lemma same_wiring_trans (a1 a2 a3 : actuator) :
  same_wiring a1 a2 -> same_wiring a2 a3 -> same_wiring a1 a3.
Proof.
  unfold same_wiring.
  intros (A1 & A2 & A3 & A4 & A5 & A6) (B1 & B2 & B3 & B4 & B5 & B6).
  repeat split; congruence.
Qed.

Lemma driver_accepts_wiring (a a' : actuator) :
  same_wiring a a' -> driver_accepts set_raises a ->
  driver_accepts set_raises a'.
Proof.
  intros (E1 & _ & _ & E4 & _) H v. unfold driver_accepts in H.
  now rewrite E1, E4.
Qed.

(** One message to a switching actuator whose driver takes every call. *)
Lemma on_message_steady (within_debounce : bool) (msg : string)
    (a : actuator) :
  steady a -> driver_accepts set_raises a ->
  exists a',
    on_message set_raises is_toggle_cmd within_debounce msg a = Returned a'
    /\ steady a' /\ same_wiring a a'.
Proof.
  intros Hst Hacc.
  pose proof Hst as ((Hs & b & Hc & _) & _).
  pose proof (steady_log a (Received msg) Hst) as Hst1.
  pose proof (steady_log a (Received "TOGGLE") Hst) as Hst2.
  assert (Hacc' : forall m, driver_accepts set_raises (emit a (Log m)))
    by (intros m v; apply Hacc).
  unfold on_message. cbv zeta. cbn [emit sim_button]. rewrite !Hs.
  cbn [negb]. rewrite Hc.
  destruct (String.eqb msg "ON") eqn:Eon.
  - cbn [orb]. destruct b; cbn [Bool.eqb].
    + eexists. split; [reflexivity|]. split;
        [now apply steady_log | unfold same_wiring; cbn; auto 10].
    + rewrite (switch_returns msg _ true (Hacc' _)) by auto.
      eexists. split; [reflexivity|]. split.
      * apply steady_switched; [exact Hst1 | exact Hc].
      * unfold same_wiring. cbn. auto 10.
  - cbn [orb]. destruct (String.eqb msg "OFF") eqn:Eoff.
    + destruct b; cbn [Bool.eqb].
      * rewrite (switch_returns msg _ false (Hacc' _)) by auto.
        eexists. split; [reflexivity|]. split.
        -- apply steady_switched; [exact Hst1 | exact Hc].
        -- unfold same_wiring. cbn. auto 10.
      * eexists. split; [reflexivity|]. split;
          [now apply steady_log | unfold same_wiring; cbn; auto 10].
    + destruct (is_toggle_cmd msg).
      * destruct within_debounce.
        -- eexists. split; [reflexivity|]. split;
             [now apply steady_log | unfold same_wiring; cbn; auto 10].
        -- rewrite (switch_returns "TOGGLE" _ (negb b) (Hacc' _))
             by (right; right; cbn [emit current_state]; rewrite Hc; auto).
           eexists. split; [reflexivity|]. split.
           ++ apply steady_switched; [exact Hst2|].
              cbn [emit current_state]. now rewrite Hc, negb_involutive.
           ++ unfold same_wiring. cbn. auto 10.
      * destruct (String.eqb msg "TOGGLE") eqn:Etog.
        -- rewrite (switch_returns msg _ (negb b) (Hacc' _))
             by (right; right; cbn [emit current_state]; rewrite Hc; auto).
           eexists. split; [reflexivity|]. split.
           ++ apply steady_switched; [exact Hst1|].
              cbn [emit current_state]. now rewrite Hc, negb_involutive.
           ++ unfold same_wiring. cbn. auto 10.
        -- unfold switch. rewrite Eon, Eoff, Etog.
           eexists. split; [reflexivity|]. split.
           ++ now apply steady_log.
           ++ unfold same_wiring. cbn. auto 10.
Qed.

Lemma run_steady (msgs : list (bool * string)) :
  forall a, steady a -> driver_accepts set_raises a ->
  exists a', run set_raises is_toggle_cmd msgs a = Returned a'
             /\ steady a' /\ same_wiring a a'.
Proof.
  induction msgs as [|[wd msg] msgs IH]; intros a Hst Hacc.
  - exists a. split; [reflexivity|]. split;
      [exact Hst | apply same_wiring_refl].
  - cbn [run].
    destruct (on_message_steady wd msg a Hst Hacc) as (a1 & -> & Hst1 & Hw1).
    destruct (IH a1 Hst1 (driver_accepts_wiring a a1 Hw1 Hacc))
      as (a' & Hrun & Hst' & Hw').
    exists a'. split; [exact Hrun|]. split; [exact Hst'|].
    eapply same_wiring_trans; eauto.
Qed.

Lemma init_steady (c : config) (a : actuator) :
  cfg_sim_button c = false -> init set_raises c = Some a ->
  driver_accepts set_raises a -> steady a.
Proof.
  intros Hsim Hi Hacc. unfold init in Hi.
  destruct (py_index relay_map (cfg_relay c)) as [m|]; [|discriminate].
  injection Hi as <-. unfold driver_accepts in Hacc.
  cbn [stack mapped_relay init_state sim_button invert] in *.
  rewrite Hsim in *.
  destruct (set_raises (cfg_stack c) m (Z.b2z (cfg_initial c))) eqn:Eset.
  - destruct (cfg_invert c); cbn in Hacc; rewrite Hacc in Eset; discriminate.
  - unfold steady, consistent, level, published.
    destruct (cfg_invert c), (cfg_initial c); cbn; repeat split; eauto.
Qed.

(** X2: in a switching actuator whose driver takes every call, after the
    constructor and after any messages, every handler has returned, the
    recorded state is what the relay is at, inverted if the output is
    inverted, and is what was published last. *)
Theorem relay_follows_state (c : config) (a : actuator)
    (msgs : list (bool * string)) :
  cfg_sim_button c = false -> init set_raises c = Some a ->
  driver_accepts set_raises a ->
  exists a' b,
    run set_raises is_toggle_cmd msgs a = Returned a'
    /\ current_state a' = Some b
    /\ level (trace a') = Some (Z.b2z (xorb b (cfg_invert c)))
    /\ published (trace a') = Some (state_text b).
Proof.
  intros Hsim Hi Hacc.
  destruct (init_fields c a Hi) as (_ & _ & Einv & _).
  destruct (run_steady msgs a (init_steady c a Hsim Hi Hacc) Hacc)
    as (a' & Hrun & ((_ & b & Hc & Hl & Hp) & _) & (_ & Einv' & _)).
  exists a', b. rewrite <- Einv, <- Einv'. auto.
Qed.

(** X3: in such an actuator no call of the driver repeats the value of the
    call before it and no publication repeats the one before it: a command
    that asks for the state the relay is in reaches neither the relay nor
    the connections. *)
Theorem relay_never_rewritten (c : config) (a : actuator)
    (msgs : list (bool * string)) :
  cfg_sim_button c = false -> init set_raises c = Some a ->
  driver_accepts set_raises a ->
  exists a',
    run set_raises is_toggle_cmd msgs a = Returned a'
    /\ no_repeat (levels (trace a'))
    /\ no_repeat (publications (trace a')).
Proof.
  intros Hsim Hi Hacc.
  destruct (run_steady msgs a (init_steady c a Hsim Hi Hacc) Hacc)
    as (a' & Hrun & (_ & Hn1 & Hn2) & _).
  exists a'. auto.
Qed.

(** X4: a toggle command outside the debounce time inverts the state; the
    same command within the debounce time is dropped with a log entry; a
    second one outside it brings back the state and the level of the relay,
    the two states having been published in turn. *)
Theorem toggle_twice_restores (msg : string) (a : actuator) (b : bool) :
  consistent a -> driver_accepts set_raises a -> current_state a = Some b ->
  is_toggle_cmd msg = true ->
  String.eqb msg "ON" = false -> String.eqb msg "OFF" = false ->
  exists a1 a2,
    on_message set_raises is_toggle_cmd false msg a = Returned a1
    /\ current_state a1 = Some (negb b)
    /\ on_message set_raises is_toggle_cmd true msg a1
       = Returned (emit a1 (Log WithinDebounce))
    /\ on_message set_raises is_toggle_cmd false msg a1 = Returned a2
    /\ current_state a2 = Some b
    /\ level (trace a2) = level (trace a)
    /\ publications (added a a2) = [state_text (negb b); state_text b].
Proof.
  intros (Hs & b0 & Hc0 & Hl & Hp) Hacc Hc Htog Eon Eoff.
  rewrite Hc in Hc0. injection Hc0 as <-.
  assert (Hstep : forall a0 b1,
             sim_button a0 = false -> current_state a0 = Some b1 ->
             driver_accepts set_raises a0 ->
             on_message set_raises is_toggle_cmd false msg a0
             = Returned (switched (emit a0 (Log (Received "TOGGLE")))
                                  (negb b1))).
  { intros a0 b1 Hs0 Hc1 Hacc0. unfold on_message. cbv zeta.
    cbn [emit sim_button]. rewrite !Hs0, Eon, Eoff, Htog. cbn [negb orb].
    apply switch_returns; [intros v; apply Hacc0|].
    right; right. cbn [emit current_state]. rewrite Hc1. auto. }
  set (a1 := switched (emit a (Log (Received "TOGGLE"))) (negb b)).
  assert (Hs1 : sim_button a1 = false) by exact Hs.
  assert (Hc1 : current_state a1 = Some (negb b)) by reflexivity.
  assert (Hacc1 : driver_accepts set_raises a1) by (intros v; apply Hacc).
  exists a1, (switched (emit a1 (Log (Received "TOGGLE"))) b).
  split; [now apply Hstep|]. split; [exact Hc1|].
  split.
  { unfold on_message. cbv zeta. rewrite Hs1, Eon, Eoff, Htog. reflexivity. }
  split.
  { rewrite (Hstep a1 (negb b) Hs1 Hc1 Hacc1). now rewrite negb_involutive. }
  split; [reflexivity|].
  assert (Htr : trace (switched (emit a1 (Log (Received "TOGGLE"))) b)
                = trace a
                  ++ [Log (Received "TOGGLE");
                      Log (SetTo (onoff_to_str
                                    (Z.b2z (xorb (negb b) (invert a)))));
                      SetRelay (stack a) (mapped_relay a)
                               (Z.b2z (xorb (negb b) (invert a)));
                      Publish (state_text (negb b));
                      Log (Received "TOGGLE");
                      Log (SetTo (onoff_to_str (Z.b2z (xorb b (invert a)))));
                      SetRelay (stack a) (mapped_relay a)
                               (Z.b2z (xorb b (invert a)));
                      Publish (state_text b)]).
  { rewrite switched_trace. cbn [emit trace]. subst a1.
    rewrite switched_trace. cbn [emit trace stack mapped_relay invert].
    rewrite <- !app_assoc. reflexivity. }
  split.
  - unfold level. rewrite Htr, levels_app. cbn [levels].
    change [?x; ?y] with ([x] ++ [y]). rewrite app_assoc, last_of_snoc.
    exact (eq_sym Hl).
  - rewrite (switching_added _ _ _ Htr). reflexivity.
Qed.

Lemma press_button_returns (a : actuator) :
  driver_accepts set_raises a ->
  exists a',
    press_button set_raises a = Returned a'
    /\ same_wiring a a' /\ current_state a' = current_state a
    /\ exists es, trace a' = trace a ++ es
         /\ levels es = [Z.b2z (negb (init_state a)); Z.b2z (init_state a)]
         /\ publications es = [].
Proof.
  intros Hacc. unfold press_button, set_relay. cbv zeta.
  cbn [emit stack mapped_relay]. rewrite !Hacc.
  eexists. split; [reflexivity|]. split; [unfold same_wiring; cbn; auto 10|].
  split; [reflexivity|]. cbn [emit trace]. rewrite <- !app_assoc.
  eexists. split; [reflexivity|]. cbn. auto.
Qed.

(** X5: a simulated button whose driver takes every call answers every
    message, whatever it says and however soon it comes, with one press: the
    relay goes to the inverse of its initial level and, after half a second,
    back.  Nothing is published and no state is recorded. *)
Theorem button_presses_on_every_message (msgs : list (bool * string))
    (a : actuator) :
  sim_button a = true -> driver_accepts set_raises a ->
  exists a',
    run set_raises is_toggle_cmd msgs a = Returned a'
    /\ levels (added a a')
       = flat_map (fun _ => [Z.b2z (negb (init_state a));
                             Z.b2z (init_state a)]) msgs
    /\ publications (added a a') = []
    /\ current_state a' = current_state a.
Proof.
  intros Hsim Hacc.
  assert (H : exists a' es,
             run set_raises is_toggle_cmd msgs a = Returned a'
             /\ trace a' = trace a ++ es
             /\ levels es
                = flat_map (fun _ => [Z.b2z (negb (init_state a));
                                      Z.b2z (init_state a)]) msgs
             /\ publications es = []
             /\ current_state a' = current_state a).
  { revert a Hsim Hacc.
    induction msgs as [|[wd msg] msgs IH]; intros a Hsim Hacc.
    - exists a, []. rewrite app_nil_r. cbn. auto.
    - cbn [run]. unfold on_message. cbv zeta. cbn [emit sim_button].
      rewrite !Hsim. cbn [negb].
      destruct (press_button_returns (emit a (Log (Received msg))))
        as (a1 & -> & Hw & Hc1 & es1 & Ht1 & Hl1 & Hp1);
        [intros v; apply Hacc|].
      destruct Hw as (W1 & W2 & W3 & W4 & W5 & W6).
      cbn [emit stack invert relay mapped_relay init_state sim_button
           current_state trace] in *.
      destruct (IH a1) as (a' & es & Hrun & Ht & Hl & Hp & Hc).
      { now rewrite W6. }
      { intros v. rewrite W1, W4. apply Hacc. }
      exists a', ([Log (Received msg)] ++ es1 ++ es).
      split; [exact Hrun|]. split.
      { rewrite Ht, Ht1, <- !app_assoc. reflexivity. }
      rewrite !levels_app, !publications_app, Hl, Hl1, Hp, Hp1, W5.
      cbn. split; [reflexivity|]. split; [reflexivity | congruence]. }
  destruct H as (a' & es & Hrun & Ht & Hl & Hp & Hc).
  exists a'. rewrite (switching_added _ _ _ Ht). auto.
Qed.

(** X6: when the driver raises in a switching actuator the handler ends in
    the exception with the new state already recorded, the relay and the
    publications as they were; the same command sent again is then taken for
    the state the relay is in and dropped. *)
Theorem failed_switch_is_not_retried (within_debounce again : bool)
    (a : actuator) (b : bool) :
  sim_button a = false -> current_state a = Some b ->
  (forall value, set_raises (stack a) (mapped_relay a) value = true) ->
  exists a1,
    on_message set_raises is_toggle_cmd within_debounce
               (state_text (negb b)) a = Raised a1
    /\ current_state a1 = Some (negb b)
    /\ levels (trace a1) = levels (trace a)
    /\ publications (trace a1) = publications (trace a)
    /\ on_message set_raises is_toggle_cmd again (state_text (negb b)) a1
       = Returned (emit a1 (Log EqualToOutput)).
Proof.
  intros Hs Hc Hrej.
  destruct b; cbn [negb state_text];
    unfold on_message, switch, set_relay; cbv zeta;
    cbn [emit sim_button stack mapped_relay current_state invert
         set_current_state String.eqb Ascii.eqb Bool.eqb orb negb];
    rewrite !Hs, Hc; cbn [negb Bool.eqb String.eqb Ascii.eqb Z.eqb];
    destruct (invert a); cbn; rewrite !Hrej;
    (eexists; split; [reflexivity|]);
    cbn; rewrite !levels_app, !publications_app, ?Hs; cbn;
    rewrite ?app_nil_r; auto.
Qed.

End Driver.

Lemma relay_numbers_map_one_to_one_witness :
  1 <= mapped_relay sample_actuator <= 8.
Proof.
  apply (proj1 (proj2 (relay_numbers_map_one_to_one accepting)) sample_config).
  - cbn. lia.
  - reflexivity.
Defined.

Lemma relay_follows_state_witness :
  exists a' b,
    run accepting toggle_only [(false, "ON"); (false, "TOGGLE")]%string
        sample_actuator = Returned a'
    /\ current_state a' = Some b
    /\ level (trace a') = Some (Z.b2z (xorb b false))
    /\ published (trace a') = Some (state_text b).
Proof.
  apply (relay_follows_state accepting toggle_only sample_config).
  - reflexivity.
  - reflexivity.
  - intros v. reflexivity.
Defined.

Lemma relay_never_rewritten_witness :
  exists a',
    run accepting toggle_only [(false, "ON"); (false, "ON")]%string
        sample_actuator = Returned a'
    /\ no_repeat (levels (trace a'))
    /\ no_repeat (publications (trace a')).
Proof.
  apply (relay_never_rewritten accepting toggle_only sample_config).
  - reflexivity.
  - reflexivity.
  - intros v. reflexivity.
Defined.

Lemma toggle_twice_restores_witness :
  exists a1 a2,
    on_message accepting toggle_only false "TOGGLE" sample_actuator
    = Returned a1
    /\ current_state a1 = Some true
    /\ on_message accepting toggle_only true "TOGGLE" a1
       = Returned (emit a1 (Log WithinDebounce))
    /\ on_message accepting toggle_only false "TOGGLE" a1 = Returned a2
    /\ current_state a2 = Some false
    /\ level (trace a2) = level (trace sample_actuator)
    /\ publications (added sample_actuator a2) = ["ON"; "OFF"]%string.
Proof.
  apply (toggle_twice_restores accepting toggle_only "TOGGLE"
           sample_actuator false).
  - split; [reflexivity|]. exists false. repeat split.
  - intros v. reflexivity.
  - reflexivity.
  - reflexivity.
  - reflexivity.
  - reflexivity.
Defined.

Lemma button_presses_on_every_message_witness :
  exists a',
    run accepting toggle_only [(true, "OFF"); (false, "bogus")]%string
        sample_button = Returned a'
    /\ levels (added sample_button a') = [1; 0; 1; 0]
    /\ publications (added sample_button a') = []
    /\ current_state a' = None.
Proof.
  apply (button_presses_on_every_message accepting toggle_only
           [(true, "OFF"); (false, "bogus")]%string sample_button).
  - reflexivity.
  - intros v. reflexivity.
Defined.

Lemma failed_switch_is_not_retried_witness :
  exists a1,
    on_message rejecting toggle_only false "ON" sample_actuator = Raised a1
    /\ current_state a1 = Some true
    /\ levels (trace a1) = levels (trace sample_actuator)
    /\ publications (trace a1) = publications (trace sample_actuator)
    /\ on_message rejecting toggle_only false "ON" a1
       = Returned (emit a1 (Log EqualToOutput)).
Proof.
  apply (failed_switch_is_not_retried rejecting toggle_only false false
           sample_actuator false).
  - reflexivity.
  - reflexivity.
  - intros v. reflexivity.
Defined.

End RelayFacts.

(** * The OR gate *)

Module LogicFacts.
Import stdpp.base stdpp.gmap stdpp.strings.
Import Py Logic.
Local Open Scope Z_scope.

Lemma py_index_0 {A : Type} (a : A) (l : list A) : py_index (a :: l) 0 = Some a.
Proof.
  unfold py_index. cbn [List.length].
  destruct (Z.ltb_spec 0 (Z.of_nat (S (List.length l)))); [reflexivity | lia].
Qed.

Lemma py_index_1 {A : Type} (a b : A) (l : list A) :
  py_index (a :: b :: l) 1 = Some b.
Proof.
  unfold py_index. cbn [List.length].
  destruct (Z.ltb_spec 1 (Z.of_nat (S (S (List.length l)))));
    [reflexivity | lia].
Qed.

(** The sum of truth values is zero exactly when none is true. *)
Lemma sum_cases (l : list (string * bool)) :
  let total := foldr Z.add 0 (map (fun item => Z.b2z (snd item)) l) in
  (total = 0 /\ forall k, (k, true) ∉ l)
  \/ (0 < total /\ exists k, (k, true) ∈ l).
Proof.
  induction l as [|[k b] l IH]; cbn zeta.
  - left. split; [reflexivity|]. intros k H. inversion H.
  - cbn [map foldr snd]. cbn zeta in IH.
    destruct IH as [(E & Hn)|(Hp & k' & Hk')].
    + rewrite E. destruct b.
      * right. split; [cbn; lia|]. exists k. left.
      * left. split; [reflexivity|]. intros k' H.
        apply elem_of_cons in H as [H|H]; [congruence | now apply (Hn k')].
    + right. split; [destruct b; cbn [Z.b2z]; lia|].
      exists k'. now right.
Qed.

Lemma sum_values_spec (m : gmap string bool) :
  negb (sum_values m =? 0) = true <-> exists s, m !! s = Some true.
Proof.
  unfold sum_values.
  destruct (sum_cases (map_to_list m)) as [(E & Hn)|(Hp & k & Hk)];
    cbn zeta in *.
  - rewrite E. cbn. split; [discriminate|].
    intros (s & Hs). exfalso. apply (Hn s). now apply elem_of_map_to_list.
  - destruct (Z.eqb_spec
                (foldr Z.add 0 (map (fun item => Z.b2z (snd item))
                                    (map_to_list m))) 0); [lia|].
    split; [|reflexivity]. intros _. exists k.
    now apply elem_of_map_to_list.
Qed.

Lemma emit_all_nil (g : gate) : emit_all g [] = g.
Proof. destruct g. unfold emit_all. cbn. now rewrite app_nil_r. Qed.

Lemma emit_all_app (g : gate) (a b : list event) :
  emit_all (emit_all g a) b = emit_all g (a ++ b).
Proof. unfold emit_all. cbn. now rewrite app_assoc. Qed.

Lemma publish_connections (output dest : string) (cs : list conn) (g : gate) :
  fold_left (fun g c =>
               if is_local_connection c
               then emit g (Publish c output dest false)
               else g) cs g
  = emit_all g (publishes output [dest] cs).
Proof.
  revert g. induction cs as [|c cs IH]; intros g.
  - cbn. now rewrite emit_all_nil.
  - cbn [fold_left]. rewrite IH. unfold publishes. cbn [flat_map].
    rewrite !app_nil_r.
    destruct (is_local_connection c) eqn:E.
    + rewrite filter_cons_True by exact E. cbn [map].
      change (emit g ?e) with (emit_all g [e]). now rewrite emit_all_app.
    + rewrite filter_cons_False; [reflexivity|]. now rewrite E.
Qed.

Lemma publish_destinations (output : string) (dests : list string) (g : gate) :
  fold_left (fun g dest => _publish output dest false g) dests g
  = emit_all g (publishes output dests (connections g)).
Proof.
  revert g. induction dests as [|d dests IH]; intros g.
  - cbn. now rewrite emit_all_nil.
  - cbn [fold_left]. rewrite IH. unfold _publish.
    rewrite publish_connections. rewrite emit_all_app.
    unfold publishes. cbn [flat_map emit_all connections].
    now rewrite app_nil_r.
Qed.

Lemma added_emit_all (g : gate) (es : list event) :
  added g (emit_all g es) = es.
Proof. unfold added, emit_all. cbn [trace]. apply drop_app_length. Qed.

Lemma forwarded_app (a b : list event) :
  forwarded (a ++ b) = forwarded a ++ forwarded b.
Proof.
  induction a as [|[c m d f|[| |e|m s o|m s o]] a IH]; cbn; auto.
  now rewrite IH.
Qed.

Lemma forwarded_publishes (output : string) (dests : list string)
    (cs : list conn) :
  forwarded (publishes output dests cs) = [].
Proof.
  unfold publishes. induction dests as [|d dests IH]; [reflexivity|].
  cbn [flat_map]. rewrite forwarded_app, IH, app_nil_r. clear IH.
  match goal with
  | |- forwarded (map _ ?l) = [] => induction l; cbn; auto
  end.
Qed.

Section Gate.

Variable is_toggle_cmd : string -> bool.
Variable parse_values : (string -> option string) -> list string -> list string.

(** What [process_message] leaves when [self.values] has its two entries. *)
Lemma process_message_returns (msg src : string) (g : gate)
    (off on : string) (more : list string) :
  values g = off :: on :: more ->
  let sources :=
    if is_toggle_cmd msg then src_is_on g
    else <[src := String.eqb msg "ON"]> (src_is_on g) in
  let active :=
    if is_toggle_cmd msg then negb (output_activ g)
    else negb (sum_values sources =? 0) in
  let output := if active then on else off in
  process_message is_toggle_cmd msg src g
  = Returned
      (mkGate (connections g) (enabled g) (input_src g) (output_dest g)
              (values g) (enable_src g) sources active (output_activ g)
              (trace g ++
               if Bool.eqb (output_activ g) active
               then [Log (Unchanged msg src output)]
               else Log (Forwarding msg src output)
                    :: publishes output (output_dest g) (connections g))).
Proof.
  intros Hv. cbv zeta. unfold process_message. cbv zeta.
  destruct (is_toggle_cmd msg);
    cbn [set_last_output_state set_output_activ set_src_is_on values
         output_activ last_output_state src_is_on];
    rewrite Hv;
    match goal with
    | |- context [py_index _ (if ?b then 1 else 0)] =>
      destruct b eqn:Eb; rewrite ?py_index_0, ?py_index_1
    end;
    destruct (output_activ g) eqn:Ea; cbn [negb Bool.eqb] in *;
    try discriminate;
    rewrite ?publish_destinations; unfold emit, emit_all, publishes; cbn;
    rewrite <- ?app_assoc, ?Hv; reflexivity.
Qed.

Lemma sources_start_off (l : list string) (m : gmap string bool) (s : string) :
  fold_left (fun m src => <[src := false]> m) l m !! s
  = if bool_decide (s ∈ l) then Some false else m !! s.
Proof.
  revert m. induction l as [|a l IH]; intros m; [reflexivity|].
  cbn [fold_left]. rewrite IH.
  destruct (bool_decide (s ∈ l)) eqn:El.
  - apply bool_decide_eq_true in El.
    rewrite bool_decide_eq_true_2; [reflexivity | now right].
  - apply bool_decide_eq_false in El. rewrite lookup_insert.
    destruct (decide (a = s)) as [->|Hne].
    + rewrite bool_decide_eq_true_2; [reflexivity | left].
    + rewrite bool_decide_eq_false_2; [reflexivity|].
      intros H. apply elem_of_cons in H as [H|H]; congruence.
Qed.

(** A run of input messages without toggle commands through an enabled
    gate. *)
Lemma run_inputs (xs : list (string * string)) :
  forall (g : gate) (off on : string) (more : list string),
  enabled g = true -> values g = off :: on :: more ->
  (output_activ g = true <-> exists s, src_is_on g !! s = Some true) ->
  Forall (fun x => is_toggle_cmd (snd x) = false) xs ->
  exists g',
    run is_toggle_cmd (inputs xs) g = Returned g'
    /\ (forall s, src_is_on g' !! s
                  = match latest xs s with
                    | Some m => Some (String.eqb m "ON")
                    | None => src_is_on g !! s
                    end)
    /\ (output_activ g' = true <-> exists s, src_is_on g' !! s = Some true).
Proof.
  induction xs as [|[src msg] xs IH]; intros g off on more He Hv Hor Hx.
  - exists g. cbn. auto.
  - inversion Hx as [|x l Hm Hrest]; subst. cbn [snd] in Hm.
    cbn [inputs map run deliver fst snd]. unfold msg_handler. rewrite He.
    rewrite (process_message_returns msg src g off on more Hv), Hm.
    match goal with
    | |- context [run _ _ ?g1] =>
      destruct (IH g1 off on more) as (g' & Hrun & Hsrc & Hout);
        [exact He | exact Hv | apply sum_values_spec | exact Hrest |]
    end.
    exists g'. split; [exact Hrun|]. split; [|exact Hout].
    intros s. rewrite Hsrc. cbn [latest src_is_on].
    destruct (latest xs s); [reflexivity|].
    rewrite lookup_insert.
    destruct (decide (src = s)) as [->|Hne].
    + now rewrite String.eqb_refl.
    + destruct (String.eqb_spec src s); [contradiction | reflexivity].
Qed.

(** X7: a gate as [__init__] leaves it is enabled with its output off and
    every input source off.  After any input messages that are no toggle
    commands, a source is on exactly when its latest message was "ON", and
    the output is on exactly when the latest message of some source was. *)
Theorem output_is_or_of_latest_inputs (conns : list conn)
    (params : string -> option string) (g : gate)
    (xs : list (string * string)) (off on : string) (more : list string) :
  init parse_values conns params = Some g ->
  values g = off :: on :: more ->
  Forall (fun x => is_toggle_cmd (snd x) = false) xs ->
  enabled g = true /\ output_activ g = false
  /\ exists g',
       run is_toggle_cmd (inputs xs) g = Returned g'
       /\ (forall s, src_is_on g' !! s
                     = match latest xs s with
                       | Some m => Some (String.eqb m "ON")
                       | None => if bool_decide (s ∈ input_src g)
                                 then Some false else None
                       end)
       /\ (output_activ g' = true
           <-> exists s, latest xs s = Some "ON"%string).
Proof.
  intros Hi Hv Hx.
  assert (Hg : enabled g = true /\ output_activ g = false
               /\ forall s, src_is_on g !! s
                            = if bool_decide (s ∈ input_src g)
                              then Some false else None).
  { unfold init in Hi.
    destruct (params "InputSrc"%string) as [input|]; [|discriminate].
    destruct (params "OutputDest"%string) as [output|]; [|discriminate].
    injection Hi as <-. cbn [enabled output_activ src_is_on input_src].
    split; [reflexivity|]. split; [reflexivity|].
    intros s. rewrite sources_start_off. now rewrite lookup_empty. }
  destruct Hg as (He & Ha & Hs0).
  split; [exact He|]. split; [exact Ha|].
  destruct (run_inputs xs g off on more He Hv) as (g' & Hrun & Hsrc & Hout).
  { rewrite Ha. split; [discriminate|]. intros (s & Hs).
    rewrite Hs0 in Hs. destruct (bool_decide _); discriminate. }
  { exact Hx. }
  exists g'. split; [exact Hrun|]. split.
  - intros s. rewrite Hsrc. destruct (latest xs s); [reflexivity | apply Hs0].
  - rewrite Hout. split; intros (s & Hs); exists s.
    + rewrite Hsrc in Hs. destruct (latest xs s) as [m|].
      * injection Hs as Hs. apply String.eqb_eq in Hs. now subst.
      * rewrite Hs0 in Hs. destruct (bool_decide _); discriminate.
    + rewrite Hsrc, Hs. reflexivity.
Qed.

Lemma published_only_on_change (msg src : string) (g : gate) (active : bool)
    (output : string) (c : conn) (message destination : string)
    (filter_echo : bool) :
  Publish c message destination filter_echo
  ∈ (if Bool.eqb (output_activ g) active
     then [Log (Unchanged msg src output)]
     else Log (Forwarding msg src output)
          :: publishes output (output_dest g) (connections g)) ->
  is_local_connection c = true /\ c ∈ connections g
  /\ destination ∈ output_dest g /\ filter_echo = false
  /\ active = negb (output_activ g) /\ message = output.
Proof.
  intros Hin. destruct (Bool.eqb (output_activ g) active) eqn:Eq.
  - apply list_elem_of_singleton in Hin. discriminate.
  - apply elem_of_cons in Hin as [Hin|Hin]; [discriminate|].
    unfold publishes in Hin. apply list_elem_of_In, in_flat_map in Hin.
    destruct Hin as (dest & Hd & Hin). apply in_map_iff in Hin.
    destruct Hin as (c' & Hc' & Hin). injection Hc' as -> -> ->.
    apply list_elem_of_In, list_elem_of_filter in Hin as (Hloc & Hc).
    apply list_elem_of_In in Hd.
    repeat split; auto.
    destruct (output_activ g), active; cbn in *; congruence.
Qed.

(** X8: a message handled by [process_message] is forwarded exactly when it
    changes the output: then the new output goes, after one log entry, to
    every destination in turn, on every local connection in turn, with the
    echo filter off.  Otherwise one log entry is all that happens.  No
    connection that is not local is ever published to. *)
Theorem changes_go_to_local_connections (msg src : string) (g : gate)
    (off on : string) (more : list string) :
  values g = off :: on :: more ->
  exists g',
    process_message is_toggle_cmd msg src g = Returned g'
    /\ (let output := if output_activ g' then on else off in
        added g g'
        = if Bool.eqb (output_activ g) (output_activ g')
          then [Log (Unchanged msg src output)]
          else Log (Forwarding msg src output)
               :: publishes output (output_dest g) (connections g))
    /\ (forall c message destination filter_echo,
          Publish c message destination filter_echo ∈ added g g' ->
          is_local_connection c = true /\ c ∈ connections g
          /\ destination ∈ output_dest g /\ filter_echo = false
          /\ output_activ g' = negb (output_activ g)
          /\ message = if output_activ g' then on else off).
Proof.
  intros Hv. rewrite (process_message_returns msg src g off on more Hv).
  eexists. split; [reflexivity|].
  unfold added. cbn [trace output_activ]. rewrite drop_app_length.
  split; [reflexivity|].
  intros c message destination filter_echo Hin.
  now apply published_only_on_change in Hin.
Qed.

Lemma on_off_iter (n : nat) (active : bool) (off on : string) :
  (if active then off else on) :: on_off n (negb active) off on
  = on_off (S n) active off on.
Proof. reflexivity. Qed.

Lemma run_forwards (xs : list arrival) :
  forall (g : gate) (off on : string) (more : list string),
  values g = off :: on :: more ->
  exists g' es n,
    run is_toggle_cmd xs g = Returned g'
    /\ trace g' = trace g ++ es
    /\ forwarded es = on_off n (output_activ g) off on
    /\ output_activ g' = Nat.iter n negb (output_activ g).
Proof.
  induction xs as [|x xs IH]; intros g off on more Hv.
  - exists g, [], 0%nat. rewrite app_nil_r. cbn. auto.
  - cbn [run].
    assert (Hstep : exists g1 es1,
               deliver is_toggle_cmd x g = Returned g1
               /\ trace g1 = trace g ++ es1
               /\ values g1 = values g
               /\ ((output_activ g1 = output_activ g /\ forwarded es1 = [])
                   \/ (output_activ g1 = negb (output_activ g)
                       /\ forwarded es1
                          = [if output_activ g then off else on]))).
    { destruct x as [msg|src msg]; cbn [deliver].
      - eexists _, _. split; [reflexivity|]. cbn. auto.
      - unfold msg_handler. destruct (enabled g).
        + rewrite (process_message_returns msg src g off on more Hv).
          eexists _, _. split; [reflexivity|]. cbn [trace values output_activ].
          split; [reflexivity|]. split; [reflexivity|].
          match goal with
          | |- context [Bool.eqb _ ?a] => set (active := a)
          end.
          destruct (output_activ g), active; cbn [Bool.eqb negb forwarded];
            rewrite ?forwarded_publishes; auto.
        + eexists _, _. split; [reflexivity|]. cbn. auto. }
    destruct Hstep as (g1 & es1 & -> & Ht1 & Hv1 & Hcase).
    rewrite <- Hv1 in Hv.
    destruct (IH g1 off on more Hv) as (g' & es & n & Hrun & Ht & Hf & Ha).
    destruct Hcase as [(Ho & Hf1)|(Ho & Hf1)].
    + exists g', (es1 ++ es), n. split; [exact Hrun|].
      rewrite Ht, Ht1, <- app_assoc, forwarded_app, Hf1, Hf, Ha, Ho. auto.
    + exists g', (es1 ++ es), (S n). split; [exact Hrun|].
      rewrite Ht, Ht1, <- app_assoc, forwarded_app, Hf1, Hf, Ha, Ho.
      split; [reflexivity|]. split; [reflexivity|].
      now rewrite Nat.iter_succ_r.
Qed.

(** X9: whatever arrives, enable commands, input messages and toggle
    commands alike, the outputs a gate forwards alternate: the first is the
    opposite of the output it starts with, and no output is forwarded twice
    in a row. *)
Theorem forwarded_outputs_alternate (xs : list arrival) (g : gate)
    (off on : string) (more : list string) :
  values g = off :: on :: more ->
  exists g' n,
    run is_toggle_cmd xs g = Returned g'
    /\ forwarded (added g g') = on_off n (output_activ g) off on
    /\ output_activ g' = Nat.iter n negb (output_activ g).
Proof.
  intros Hv.
  destruct (run_forwards xs g off on more Hv) as (g' & es & n & Hr & Ht & Hf & Ha).
  exists g', n. split; [exact Hr|]. split; [|exact Ha].
  unfold added. rewrite Ht, drop_app_length. exact Hf.
Qed.

(** X10: a disabled gate answers every input message with one log entry and
    changes nothing else, whatever the message; and the handler of the
    enable source enables on the exact message "ON" and on no other. *)
Theorem disabled_gate_ignores_inputs (xs : list (string * string))
    (g : gate) :
  enabled g = false ->
  run is_toggle_cmd (inputs xs) g
  = Returned (emit_all g (repeat (Log Disabled) (List.length xs)))
  /\ forall msg, enabled (on_message msg g) = true <-> msg = "ON"%string.
Proof.
  intros He. split.
  - revert g He. induction xs as [|[src msg] xs IH]; intros g He.
    + cbn. now rewrite emit_all_nil.
    + cbn [inputs map run deliver fst snd List.length repeat].
      unfold msg_handler. rewrite He.
      change (map (fun x => Input (fst x) (snd x)) xs) with (inputs xs).
      rewrite IH by exact He.
      change (emit g ?e) with (emit_all g [e]). now rewrite emit_all_app.
  - intros msg. cbn. apply String.eqb_eq.
Qed.

End Gate.

Lemma output_is_or_of_latest_inputs_witness :
  exists g',
    run toggle_word
        (inputs [("door", "ON"); ("window", "OFF"); ("door", "off")]%string)
        sample_gate = Returned g'
    /\ (forall s, src_is_on g' !! s
                  = match latest [("door", "ON"); ("window", "OFF");
                                  ("door", "off")]%string s with
                    | Some m => Some (String.eqb m "ON")
                    | None => if bool_decide (s ∈ input_src sample_gate)
                              then Some false else None
                    end)
    /\ (output_activ g' = true
        <-> exists s, latest [("door", "ON"); ("window", "OFF");
                              ("door", "off")]%string s = Some "ON"%string).
Proof.
  apply (output_is_or_of_latest_inputs toggle_word defaults sample_conns
           sample_params sample_gate
           [("door", "ON"); ("window", "OFF"); ("door", "off")]%string
           "OFF"%string "ON"%string []).
  - vm_compute. reflexivity.
  - reflexivity.
  - repeat constructor.
Defined.

Lemma changes_go_to_local_connections_witness :
  exists g',
    process_message toggle_word "ON" "door" sample_gate = Returned g'
    /\ (let output := if output_activ g' then "ON"%string else "OFF"%string in
        added sample_gate g'
        = if Bool.eqb (output_activ sample_gate) (output_activ g')
          then [Log (Unchanged "ON" "door" output)]
          else Log (Forwarding "ON" "door" output)
               :: publishes output (output_dest sample_gate)
                            (connections sample_gate))
    /\ (forall c message destination filter_echo,
          Publish c message destination filter_echo ∈ added sample_gate g' ->
          is_local_connection c = true /\ c ∈ connections sample_gate
          /\ destination ∈ output_dest sample_gate /\ filter_echo = false
          /\ output_activ g' = negb (output_activ sample_gate)
          /\ message = if output_activ g' then "ON"%string else "OFF"%string).
Proof.
  apply (changes_go_to_local_connections toggle_word "ON" "door" sample_gate
           "OFF"%string "ON"%string []).
  reflexivity.
Defined.

Lemma forwarded_outputs_alternate_witness :
  exists g' n,
    run toggle_word
        [Input "door" "ON"; Input "window" "ON"; Input "door" "TOGGLE";
         Enable "OFF"; Input "door" "OFF"; Enable "ON"; Input "window" "ON"]%string
        sample_gate = Returned g'
    /\ forwarded (added sample_gate g')
       = on_off n (output_activ sample_gate) "OFF" "ON"
    /\ output_activ g' = Nat.iter n negb (output_activ sample_gate).
Proof.
  apply (forwarded_outputs_alternate toggle_word _ sample_gate
           "OFF"%string "ON"%string []).
  reflexivity.
Defined.

Lemma disabled_gate_ignores_inputs_witness :
  run toggle_word (inputs [("door", "ON"); ("window", "TOGGLE")]%string)
      (on_message "off" sample_gate)
  = Returned (emit_all (on_message "off" sample_gate)
                       [Log Disabled; Log Disabled]).
Proof.
  apply (disabled_gate_ignores_inputs toggle_word
           [("door", "ON"); ("window", "TOGGLE")]%string
           (on_message "off" sample_gate)).
  reflexivity.
Defined.

End LogicFacts.

(** * The PWM channels *)

Module HardwareFacts.
Import stdpp.base stdpp.gmap stdpp.strings.
Import Scale Hardware.
Local Open Scope Z_scope.

Lemma scale_color_val_range (value : Z) :
  -100 <= value <= 100 -> 0 <= scale_color_val value <= max_duty.
Proof.
  intros H. rewrite ScaleFacts.scale_color_val_floor. unfold max_duty.
  split.
  - apply Z.div_pos; lia.
  - apply Z.div_le_upper_bound; lia.
Qed.

Lemma scale_color_val_inverted (level : Z) :
  scale_color_val (invert_of true + level) = scale_color_val (100 - level).
Proof.
  rewrite !ScaleFacts.scale_color_val_floor. unfold invert_of.
  replace (Z.abs (-100 + level)) with (Z.abs (100 - level)) by lia.
  reflexivity.
Qed.

(** X11: between 0 and 100 a higher level never gives a lower duty cycle,
    the duty cycles run from 0 to 65535, and with the output inverted the
    order is reversed: the duty cycle of a level is that of its distance to
    100.  The duty cycles of a level with and without inversion add up to
    65535 or, where the scaling truncates, to 65534. *)
Theorem duty_cycle_follows_level (p q : Z) :
  0 <= p -> p <= q -> q <= 100 ->
  0 <= scale_color_val (invert_of false + p)
  /\ scale_color_val (invert_of false + p)
     <= scale_color_val (invert_of false + q)
  /\ scale_color_val (invert_of false + q) <= max_duty
  /\ scale_color_val (invert_of true + p) = scale_color_val (100 - p)
  /\ scale_color_val (invert_of true + q)
     <= scale_color_val (invert_of true + p)
  /\ max_duty - 1
     <= scale_color_val (invert_of false + p)
        + scale_color_val (invert_of true + p)
     <= max_duty.
Proof.
  intros Hp Hpq Hq. rewrite !scale_color_val_inverted.
  change (invert_of false + ?x) with x.
  rewrite !ScaleFacts.scale_color_val_floor. unfold max_duty.
  rewrite !Z.abs_eq by lia.
  split; [apply Z.div_pos; lia|].
  split; [apply Z.div_le_mono; lia|].
  split; [apply Z.div_le_upper_bound; lia|].
  split; [reflexivity|].
  split; [apply Z.div_le_mono; lia|].
  pose proof (Z.div_mod (p * 65535) 100 ltac:(lia)) as H1.
  pose proof (Z.mod_pos_bound (p * 65535) 100 ltac:(lia)) as H2.
  pose proof (Z.div_mod ((100 - p) * 65535) 100 ltac:(lia)) as H3.
  pose proof (Z.mod_pos_bound ((100 - p) * 65535) 100 ltac:(lia)) as H4.
  lia.
Qed.

Lemma duty_cycle_follows_level_witness :
  0 <= scale_color_val (invert_of false + 30)
  /\ scale_color_val (invert_of false + 30)
     <= scale_color_val (invert_of false + 70)
  /\ scale_color_val (invert_of false + 70) <= max_duty
  /\ scale_color_val (invert_of true + 30) = scale_color_val (100 - 30)
  /\ scale_color_val (invert_of true + 70)
     <= scale_color_val (invert_of true + 30)
  /\ max_duty - 1
     <= scale_color_val (invert_of false + 30)
        + scale_color_val (invert_of true + 30)
     <= max_duty.
Proof. apply (duty_cycle_follows_level 30 70); lia. Defined.

Lemma set_one_lookup (invert : Z) (pwm : gmap string Z) (item : string * Z)
    (key : string) :
  set_one invert pwm item !! key
  = if bool_decide (fst item = key)
    then match pwm !! key with
         | Some _ => Some (scale_color_val (invert + snd item))
         | None => None
         end
    else pwm !! key.
Proof.
  unfold set_one. destruct (bool_decide (fst item = key)) eqn:E.
  - apply bool_decide_eq_true in E. subst key.
    destruct (pwm !! fst item) eqn:El; [now rewrite lookup_insert_eq | exact El].
  - apply bool_decide_eq_false in E.
    destruct (pwm !! fst item); [now rewrite lookup_insert_ne | reflexivity].
Qed.

Lemma set_pwm_value_keys (invert : Z) (items : list (string * Z)) :
  forall (pwm : gmap string Z) (key : string),
  is_Some (set_pwm_value invert items pwm !! key) <-> is_Some (pwm !! key).
Proof.
  unfold set_pwm_value.
  induction items as [|item items IH]; intros pwm key; [reflexivity|].
  cbn [fold_left]. rewrite IH, set_one_lookup.
  destruct (bool_decide (fst item = key)); [|reflexivity].
  destruct (pwm !! key); [|reflexivity].
  split; intros _; eauto.
Qed.

Lemma set_pwm_value_other (invert : Z) (items : list (string * Z)) :
  forall (pwm : gmap string Z) (key : string),
  key ∉ map fst items ->
  set_pwm_value invert items pwm !! key = pwm !! key.
Proof.
  unfold set_pwm_value.
  induction items as [|item items IH]; intros pwm key Hk; [reflexivity|].
  cbn [fold_left]. cbn [map] in Hk. apply not_elem_of_cons in Hk as (Hne & Hk).
  rewrite IH by exact Hk. rewrite set_one_lookup.
  rewrite bool_decide_eq_false_2; [reflexivity | congruence].
Qed.

(** X12: the callback of the dimmer never adds a channel and writes no duty
    cycle outside 0..65535 when the levels it is given are within 0..100;
    a color with a channel gets the scaled level, inverted where the output
    is, and a channel whose color is not among the items keeps its duty
    cycle. *)
Theorem callback_keeps_channels_and_range (invert_out : bool)
    (rgbw_items : list (string * Z)) (pwm : gmap string Z) :
  levels_in_range rgbw_items -> duties_in_range pwm ->
  NoDup (map fst rgbw_items) ->
  let pwm' := set_pwm_value (invert_of invert_out) rgbw_items pwm in
  duties_in_range pwm'
  /\ (forall key, is_Some (pwm' !! key) <-> is_Some (pwm !! key))
  /\ (forall key level,
        (key, level) ∈ rgbw_items -> is_Some (pwm !! key) ->
        pwm' !! key
        = Some (scale_color_val (if invert_out then 100 - level else level)))
  /\ (forall key, key ∉ map fst rgbw_items -> pwm' !! key = pwm !! key).
Proof.
  intros Hl Hd Hn. cbv zeta.
  split; [|split; [apply set_pwm_value_keys|
                   split; [|apply set_pwm_value_other]]].
  - revert pwm Hd Hn. unfold set_pwm_value.
    induction Hl as [|item items Hitem Hitems IH]; intros pwm Hd Hn;
      [exact Hd|].
    cbn [fold_left]. apply IH; [|now inversion Hn].
    intros key duty. rewrite set_one_lookup.
    destruct (bool_decide (fst item = key)); [|apply Hd].
    destruct (pwm !! key); [|discriminate].
    intros [= <-]. apply scale_color_val_range.
    destruct invert_out; cbn [invert_of]; lia.
  - revert pwm Hd Hn.
    induction rgbw_items as [|item items IH]; intros pwm Hd Hn key level Hin Hs.
    + inversion Hin.
    + inversion Hn as [|x l Hfresh Hn']; subst.
      unfold set_pwm_value. cbn [fold_left].
      change (fold_left (set_one ?i) ?l ?m) with (set_pwm_value i l m).
      apply elem_of_cons in Hin as [Heq|Hin].
      * subst item. cbn [fst] in Hfresh.
        rewrite set_pwm_value_other by exact Hfresh.
        rewrite set_one_lookup. cbn [fst snd].
        rewrite bool_decide_eq_true_2 by reflexivity.
        destruct Hs as (d & ->).
        destruct invert_out; [now rewrite scale_color_val_inverted|].
        reflexivity.
      * inversion Hl; subst.
        apply IH; auto.
        -- intros k d. rewrite set_one_lookup.
           destruct (bool_decide (fst item = k)); [|apply Hd].
           destruct (pwm !! k); [|discriminate].
           intros [= <-]. apply scale_color_val_range.
           destruct invert_out; cbn [invert_of]; lia.
        -- rewrite set_one_lookup.
           destruct (bool_decide (fst item = key)); [|exact Hs].
           destruct Hs as (d & ->). eauto.
Qed.

Lemma callback_keeps_channels_and_range_witness :
  let pwm : gmap string Z := <["Red"%string := 0]> empty in
  let pwm' := set_pwm_value (invert_of true)
                [("Red"%string, 30); ("White"%string, 100)] pwm in
  duties_in_range pwm'
  /\ (forall key, is_Some (pwm' !! key) <-> is_Some (pwm !! key))
  /\ (forall key level,
        (key, level) ∈ [("Red"%string, 30); ("White"%string, 100)] ->
        is_Some (pwm !! key) ->
        pwm' !! key = Some (scale_color_val (100 - level)))
  /\ (forall key, key ∉ map fst [("Red"%string, 30); ("White"%string, 100)] ->
        pwm' !! key = pwm !! key).
Proof.
  apply (callback_keeps_channels_and_range true
           [("Red"%string, 30); ("White"%string, 100)]
           (<["Red"%string := 0]> empty)).
  - repeat constructor; cbn; lia.
  - intros key duty. rewrite lookup_insert.
    destruct (decide ("Red"%string = key)); [|now rewrite lookup_empty].
    intros [= <-]. unfold max_duty. lia.
  - cbn. repeat constructor; rewrite ?list_elem_of_singleton;
      try discriminate. intros H. inversion H.
Defined.

Lemma channels_of_lookup (rgbw_array : list string)
    (dev_cfg_ch : gmap string Z) (key : string) :
  forall acc : gmap string Z,
  fold_left (fun channel color =>
               <[color := default (-1) (dev_cfg_ch !! color)]> channel)
            rgbw_array acc !! key
  = if bool_decide (key ∈ rgbw_array)
    then Some (default (-1) (dev_cfg_ch !! key))
    else acc !! key.
Proof.
  induction rgbw_array as [|a l IH]; intros acc; [reflexivity|].
  cbn [fold_left]. rewrite IH.
  destruct (bool_decide (key ∈ l)) eqn:El.
  - apply bool_decide_eq_true in El.
    rewrite bool_decide_eq_true_2; [reflexivity | now right].
  - apply bool_decide_eq_false in El. rewrite lookup_insert.
    destruct (decide (a = key)) as [->|Hne].
    + rewrite bool_decide_eq_true_2; [reflexivity | left].
    + rewrite bool_decide_eq_false_2; [reflexivity|].
      intros H. apply elem_of_cons in H as [H|H]; congruence.
Qed.

Lemma init_one_lookup (invert : Z) (init_state : gmap string Z)
    (pwm : gmap string Z) (item : string * Z) (key : string) :
  init_one invert init_state pwm item !! key
  = if bool_decide (fst item = key) && negb (snd item =? -1)
    then Some (scale_color_val (invert + default 0 (init_state !! key)))
    else pwm !! key.
Proof.
  unfold init_one. destruct (snd item =? -1); cbn [negb].
  - now rewrite andb_false_r.
  - rewrite andb_true_r, lookup_insert.
    destruct (decide (fst item = key)) as [->|Hne].
    + now rewrite bool_decide_eq_true_2.
    + now rewrite bool_decide_eq_false_2.
Qed.

Lemma init_pwm_kept (invert : Z) (init_state : gmap string Z)
    (items : list (string * Z)) (key : string) :
  forall acc : gmap string Z,
  acc !! key
  = Some (scale_color_val (invert + default 0 (init_state !! key))) ->
  fold_left (init_one invert init_state) items acc !! key
  = Some (scale_color_val (invert + default 0 (init_state !! key))).
Proof.
  induction items as [|item items IH]; intros acc Ha; [exact Ha|].
  cbn [fold_left]. apply IH. rewrite init_one_lookup.
  now destruct (bool_decide (fst item = key) && negb (snd item =? -1)).
Qed.

Lemma init_pwm_set (invert : Z) (init_state : gmap string Z)
    (items : list (string * Z)) (key : string) (a_ch : Z) :
  forall acc : gmap string Z,
  (key, a_ch) ∈ items -> a_ch <> -1 ->
  fold_left (init_one invert init_state) items acc !! key
  = Some (scale_color_val (invert + default 0 (init_state !! key))).
Proof.
  induction items as [|item items IH]; intros acc Hin Hne.
  - inversion Hin.
  - cbn [fold_left]. apply elem_of_cons in Hin as [Heq|Hin].
    + subst item. apply init_pwm_kept. rewrite init_one_lookup. cbn [fst snd].
      rewrite bool_decide_eq_true_2 by reflexivity.
      now destruct (Z.eqb_spec a_ch (-1)).
    + now apply IH.
Qed.

Lemma init_pwm_skipped (invert : Z) (init_state : gmap string Z)
    (items : list (string * Z)) (key : string) :
  forall acc : gmap string Z,
  (forall a_ch, (key, a_ch) ∈ items -> a_ch = -1) ->
  fold_left (init_one invert init_state) items acc !! key = acc !! key.
Proof.
  induction items as [|[k a_ch] items IH]; intros acc Hall; [reflexivity|].
  cbn [fold_left]. rewrite IH.
  - rewrite init_one_lookup. cbn [fst snd].
    destruct (bool_decide (k = key)) eqn:Ek; [|reflexivity].
    apply bool_decide_eq_true in Ek. subst k.
    rewrite (Hall a_ch) by left. reflexivity.
  - intros a Ha. apply Hall. now right.
Qed.

(** X13: [__init__] gives a color a PWM channel exactly when it is one of
    the colors of the array and the configuration names a channel other than
    -1 for it; the duty cycle it starts with is the scaled initial level of
    the color, 0 where none is configured, shifted by the inversion. *)
Theorem channels_follow_configuration (rgbw_array : list string)
    (dev_cfg_ch dev_cfg_init_state : gmap string Z) (invert_out : bool)
    (key : string) :
  let channel := channels_of rgbw_array dev_cfg_ch in
  let pwm := init_pwm (invert_of invert_out) channel dev_cfg_init_state in
  channel !! key
  = (if bool_decide (key ∈ rgbw_array)
     then Some (default (-1) (dev_cfg_ch !! key)) else None)
  /\ pwm !! key
     = (if bool_decide (key ∈ rgbw_array)
           && negb (default (-1) (dev_cfg_ch !! key) =? -1)
        then Some (scale_color_val
                     (invert_of invert_out
                      + default 0 (dev_cfg_init_state !! key)))
        else None).
Proof.
  cbv zeta.
  assert (Hch : channels_of rgbw_array dev_cfg_ch !! key
                = if bool_decide (key ∈ rgbw_array)
                  then Some (default (-1) (dev_cfg_ch !! key)) else None).
  { unfold channels_of. rewrite channels_of_lookup. now rewrite lookup_empty. }
  split; [exact Hch|].
  unfold init_pwm.
  destruct (bool_decide (key ∈ rgbw_array)) eqn:Ek; cbn [andb].
  - destruct (Z.eqb_spec (default (-1) (dev_cfg_ch !! key)) (-1)) as [E|E];
      cbn [negb].
    + rewrite init_pwm_skipped; [apply lookup_empty|].
      intros a Ha. apply elem_of_map_to_list in Ha.
      rewrite Hch in Ha. congruence.
    + apply (init_pwm_set _ _ _ _ (default (-1) (dev_cfg_ch !! key)));
        [|exact E].
      apply elem_of_map_to_list. exact Hch.
  - rewrite init_pwm_skipped; [apply lookup_empty|].
    intros a Ha. apply elem_of_map_to_list in Ha.
    rewrite Hch in Ha. discriminate.
Qed.

End HardwareFacts.

(** * More on the dimmer *)

Module EngineFacts.
Import Color Store Radial Engine Ticks Views.
Import TickFacts CommandFacts Invariant.

Lemma color_distance_nonneg (c t : ColorHSV) :
  valid_hue c -> valid_hue t -> 0 <= color_distance c t.
Proof.
  intros Hc Ht. unfold color_distance.
  pose proof (RadialFacts.circular_distance_nonneg (hue c) (hue t) Hc Ht).
  lia.
Qed.

Lemma step_color_valid (c t : ColorHSV) : valid_hue (step_color c t).
Proof. unfold valid_hue, step_color. cbn [hue]. apply Z.mod_pos_bound. lia. Qed.

Lemma tick_contents_no_delay (d : Q) (c t : ColorHSV) :
  truthy d = false -> tick_contents d (c, t) = (step_color c t, t).
Proof.
  intros Hd. unfold tick_contents, flip_target. cbn [fst snd].
  now rewrite Hd.
Qed.

(** Without a start delay the loop reaches any target, in no more passes
    than the distance of the colors. *)
Lemma converge_any (d : Q) (m : nat) :
  truthy d = false ->
  forall c t : ColorHSV,
  valid_hue c -> valid_hue t -> color_distance c t <= Z.of_nat m ->
  exists n,
    Z.of_nat n <= color_distance c t
    /\ (forall k, (k < n)%nat -> differ (iter_tick k d (c, t)) = true)
    /\ differ (iter_tick n d (c, t)) = false
    /\ snd (iter_tick n d (c, t)) = t.
Proof.
  intros Hd. induction m as [|m IH]; intros c t Hc Ht Hm;
    pose proof (color_distance_nonneg c t Hc Ht) as Hpos;
    destruct (color_eqb c t) eqn:E.
  - exists 0%nat. cbn [iter_tick]. unfold differ. cbn [fst snd]. rewrite E.
    repeat split; auto; lia.
  - pose proof (step_color_closer c t Hc Ht E).
    pose proof (color_distance_nonneg _ t (step_color_valid c t) Ht). lia.
  - exists 0%nat. cbn [iter_tick]. unfold differ. cbn [fst snd]. rewrite E.
    repeat split; auto; lia.
  - pose proof (step_color_closer c t Hc Ht E) as Hcl.
    destruct (IH (step_color c t) t (step_color_valid c t) Ht ltac:(lia))
      as (n & Hn & Hbefore & Hat & Htg).
    exists (S n). cbn [iter_tick]. rewrite tick_contents_no_delay by exact Hd.
    split; [lia|]. split; [|split; assumption].
    intros [|k] Hk.
    + cbn [iter_tick]. unfold differ. cbn [fst snd]. now rewrite E.
    + cbn [iter_tick]. rewrite tick_contents_no_delay by exact Hd.
      apply Hbefore. lia.
Qed.

Lemma last_cons {A : Type} (x d : A) (l : list A) :
  last (x :: l) d = last l x.
Proof.
  revert x d. induction l as [|y l IH]; intros x d; [reflexivity|].
  change (last (x :: y :: l) d) with (last (y :: l) d).
  now rewrite !IH.
Qed.

Lemma tick_events_values (n : nat) (d i : Q) :
  forall ct : ColorHSV * ColorHSV,
  List.length (filter is_set_pwm (tick_events n d i ct)) = n
  /\ last (pwm_values (tick_events n d i ct)) (fst ct)
     = fst (iter_tick n d ct).
Proof.
  induction n as [|n IH]; intros ct; [split; reflexivity|].
  cbn [tick_events filter is_set_pwm pwm_values List.length iter_tick].
  destruct (IH (tick_contents d ct)) as (H1 & H2).
  rewrite H1, last_cons, H2. split; reflexivity.
Qed.

(** X14: a smooth change started on valid hues always ends: after no more
    passes than the distance of the two colors the thread has returned with
    the in-progress flag cleared, the live color equal to the target, and
    the target as it was.  The hardware callback was called once per pass,
    last with the target color. *)
Theorem smooth_change_reaches_target (w : world) (t : thread) :
  _thread w = Some t -> pc t = Waiting 0 -> start_delay t == 0 ->
  _stop_thread w = false -> state_current w <> target_value t ->
  valid_hue (load (objects w) (state_current w)) ->
  valid_hue (load (objects w) (target_value t)) ->
  exists n,
    Z.of_nat n <= color_distance (load (objects w) (state_current w))
                                 (load (objects w) (target_value t))
    /\ let w' := background (n + 2) w in
       let calls := added w w' in
       thread_alive w' = false
       /\ (forall m, (n + 2 <= m)%nat -> background m w = w')
       /\ smooth_change_in_progress w' = false
       /\ color_eqb (load (objects w') (state_current w))
                    (load (objects w) (target_value t)) = true
       /\ load (objects w') (target_value t)
          = load (objects w) (target_value t)
       /\ List.length (filter is_set_pwm calls) = n
       /\ color_eqb (last (pwm_values calls)
                          (load (objects w) (state_current w)))
                    (load (objects w) (target_value t)) = true.
Proof.
  intros Ht Hpc Hd Hstop Hne Hvc Hvt.
  assert (Htr : truthy (start_delay t) = false) by now apply truthy_false.
  assert (Hstep : smooth_dimmer_step w
                  = set_thread w (Some (set_pc t (Stepping (state_current w))))).
  { apply (wait_done w t 0 Ht Hpc).
    rewrite Qlt_bool_false; [reflexivity|]. rewrite Hd. apply Qle_refl. }
  set (t1 := set_pc t (Stepping (state_current w))) in *.
  set (w1 := set_thread w (Some t1)) in *.
  assert (Hloop : in_loop w1 t1 (state_current w)).
  { unfold in_loop. repeat split; auto. }
  set (c := load (objects w) (state_current w)) in *.
  set (g := load (objects w) (target_value t)) in *.
  assert (Hcont : contents w1 t1 (state_current w) = (c, g)) by reflexivity.
  assert (Hfar : color_distance c g
                 <= Z.of_nat (Z.to_nat (color_distance c g))).
  { rewrite Z2Nat.id; [lia | now apply color_distance_nonneg]. }
  destruct (converge_any (start_delay t) _ Htr c g Hvc Hvt Hfar)
    as (n & Hn & Hbefore & Hat & Htg).
  exists n. split; [exact Hn|]. cbv zeta.
  replace (n + 2)%nat with (S (n + 1)) by lia.
  rewrite background_S, Hstep. fold t1. fold w1.
  destruct (loop_to_exit w1 t1 (state_current w) n Hloop)
    as (Halive & Hc' & Htrace & Hflag & Hkept).
  { rewrite Hcont. exact Hbefore. }
  { rewrite Hcont. exact Hat. }
  cbv zeta in *. rewrite Hcont in Hc', Htrace.
  change (start_delay t1) with (start_delay t) in *.
  set (w' := background (n + 1) w1) in *.
  assert (Hfst : load (objects w') (state_current w)
                 = fst (iter_tick n (start_delay t) (c, g)))
    by (now rewrite <- Hc').
  assert (Hsnd : load (objects w') (target_value t)
                 = snd (iter_tick n (start_delay t) (c, g)))
    by (now rewrite <- Hc').
  assert (Hadd : added w w'
                 = tick_events n (start_delay t) (interval_time t1) (c, g))
    by (apply added_app; exact Htrace).
  destruct (tick_events_values n (start_delay t) (interval_time t1) (c, g))
    as (Hcount & Hlast).
  cbn [fst] in Hlast.
  unfold differ in Hat. apply negb_false_iff in Hat. rewrite Htg in Hat.
  split; [exact Halive|]. split.
  { intros m Hm. destruct m as [|m]; [lia|].
    rewrite background_S, Hstep. fold t1. fold w1.
    apply exited_stays; [exact Halive | lia]. }
  split; [exact Hflag|]. split; [now rewrite Hfst|].
  split; [now rewrite Hsnd|]. split; [now rewrite Hadd|].
  rewrite Hadd, Hlast. exact Hat.
Qed.

Lemma smooth_change_reaches_target_witness :
  exists n,
    Z.of_nat n
    <= color_distance (mkColor 350 40 20 false) (mkColor 10 0 100 false)
    /\ let w' :=
         background (n + 2)
           (Samples.sample (mkColor 350 40 20 false) (mkColor 10 0 100 false)
                           (Some Samples.smooth_thread)) in
       let calls :=
         added (Samples.sample (mkColor 350 40 20 false)
                               (mkColor 10 0 100 false)
                               (Some Samples.smooth_thread)) w' in
       thread_alive w' = false
       /\ (forall m, (n + 2 <= m)%nat ->
             background m
               (Samples.sample (mkColor 350 40 20 false)
                               (mkColor 10 0 100 false)
                               (Some Samples.smooth_thread)) = w')
       /\ smooth_change_in_progress w' = false
       /\ color_eqb (load (objects w') 0%nat) (mkColor 10 0 100 false) = true
       /\ load (objects w') 1%nat = mkColor 10 0 100 false
       /\ List.length (filter is_set_pwm calls) = n
       /\ color_eqb (last (pwm_values calls) (mkColor 350 40 20 false))
                    (mkColor 10 0 100 false) = true.
Proof.
  apply (smooth_change_reaches_target
           (Samples.sample (mkColor 350 40 20 false) (mkColor 10 0 100 false)
                           (Some Samples.smooth_thread))
           Samples.smooth_thread).
  - reflexivity.
  - reflexivity.
  - reflexivity.
  - reflexivity.
  - cbn. lia.
  - unfold valid_hue. cbn. lia.
  - unfold valid_hue. cbn. lia.
Defined.

(** The thread clears the in-progress flag when it returns. *)
Lemma exit_clears_flag (w : world) :
  thread_alive w = true -> thread_alive (smooth_dimmer_step w) = false ->
  smooth_change_in_progress (smooth_dimmer_step w) = false.
Proof.
  unfold thread_alive. destruct (_thread w) as [t|] eqn:Et; [|discriminate].
  unfold smooth_dimmer_step. rewrite Et. unfold is_alive.
  destruct (pc t) as [waited|cv|] eqn:Ep; [| |discriminate]; intros _.
  - destruct (Qlt_bool waited (start_delay t) && negb (_stop_thread w));
      cbn; discriminate.
  - destruct (negb (color_eqb _ _) && negb (_stop_thread w)).
    + destruct (tick_kept t cv w) as (_ & ->). rewrite Et, Ep. discriminate.
    + reflexivity.
Qed.

Lemma return_clears_flag (n : nat) :
  forall w : world,
  thread_alive w = true -> thread_alive (background n w) = false ->
  smooth_change_in_progress (background n w) = false.
Proof.
  induction n as [|n IH]; intros w Ha Hr; [cbn in Hr; congruence|].
  rewrite background_S in *.
  destruct (thread_alive (smooth_dimmer_step w)) eqn:E.
  - now apply IH.
  - rewrite exited_background by exact E. now apply exit_clears_flag.
Qed.

(** X15: [apply_value_change] with a step interval always starts its
    thread, but the in-progress flag it sets is only left set when no thread
    was running: a thread that is cancelled clears the flag as it returns,
    after [apply_value_change] has set it, so that the smooth change that
    follows runs with the flag cleared. *)
Theorem cancelled_thread_clears_in_progress (fuel : nat) (value : ref)
    (w : world) :
  ~ smooth_change_interval w == 0 -> (2 <= fuel)%nat ->
  exists w',
    apply_value_change fuel value w = Some w'
    /\ _thread w'
       = Some (mkThread 0 (smooth_change_interval w) value (Waiting 0))
    /\ _stop_thread w' = false
    /\ smooth_change_in_progress w' = negb (thread_alive w).
Proof.
  intros Hi Hfuel. unfold apply_value_change.
  rewrite truthy_true by exact Hi. unfold _start_thread.
  cbn [_thread set_in_progress set_stop_thread smooth_change_interval].
  unfold thread_alive at 1. destruct (_thread w) as [t|] eqn:Et.
  - set (joining := emit (set_in_progress (set_stop_thread w true) true)
                         (Join None)).
    destruct (join_cancelled fuel joining eq_refl Hfuel)
      as (ran & _ & -> & Hdone).
    eexists. split; [reflexivity|]. split; [reflexivity|].
    split; [reflexivity|].
    cbn [emit set_thread set_stop_thread smooth_change_in_progress].
    assert (Hsame : thread_alive joining = is_alive t)
      by (unfold thread_alive; subst joining; cbn; now rewrite Et).
    destruct (is_alive t) eqn:Ea.
    + now apply return_clears_flag.
    + now rewrite exited_background.
  - eexists. split; [reflexivity|]. cbn. auto.
Qed.

Lemma cancelled_thread_clears_in_progress_witness :
  exists w',
    apply_value_change 2 1%nat Samples.dimming_world = Some w'
    /\ _thread w'
       = Some (mkThread 0 (smooth_change_interval Samples.dimming_world)
                        1%nat (Waiting 0))
    /\ _stop_thread w' = false
    /\ smooth_change_in_progress w'
       = negb (thread_alive Samples.dimming_world).
Proof.
  apply (cancelled_thread_clears_in_progress 2 1%nat Samples.dimming_world).
  - cbn. discriminate.
  - lia.
Defined.

(** *** The thread and the command path side by side *)

Lemma pwm_values_app (a b : list event) :
  pwm_values (a ++ b) = pwm_values a ++ pwm_values b.
Proof.
  induction a as [|[] a IH]; cbn [app pwm_values]; auto.
  now rewrite IH.
Qed.

(** What only the thread adds to the trace: sleeps and calls of the
    hardware callback. *)
Lemma thread_events_app (a b : list event) :
  filter is_publish a = [] -> filter is_publish b = [] ->
  filter is_publish (a ++ b) = [].
Proof. intros Ha Hb. now rewrite filter_app, Ha, Hb. Qed.

Lemma tick_same_run (t : thread) (cv : ref) (w u : world) :
  objects w = objects u ->
  objects (tick t cv w) = objects (tick t cv u)
  /\ exists es,
       trace (tick t cv w) = trace w ++ es
       /\ trace (tick t cv u) = trace u ++ es
       /\ filter is_publish es = [].
Proof.
  intros Ho. unfold tick. cbv zeta. cbn [emit objects set_objects].
  rewrite <- Ho.
  match goal with |- context [if ?b then _ else _] => destruct b end;
    cbn [objects set_objects emit trace]; (split; [reflexivity|]);
    rewrite <- !app_assoc; eexists; (split; [reflexivity|]);
    (split; [reflexivity|]); reflexivity.
Qed.

Lemma step_same_run (w u : world) :
  bound w -> same_run w u ->
  same_run (smooth_dimmer_step w) (smooth_dimmer_step u)
  /\ bound (smooth_dimmer_step w)
  /\ exists es,
       trace (smooth_dimmer_step w) = trace w ++ es
       /\ trace (smooth_dimmer_step u) = trace u ++ es
       /\ filter is_publish es = [].
Proof.
  intros Hb (Ho & Ht & Hs). unfold bound in Hb.
  unfold smooth_dimmer_step. rewrite <- Ht.
  destruct (_thread w) as [t|] eqn:Et.
  2:{ split; [unfold same_run; repeat split; congruence|]. split; [unfold bound; now rewrite Et|].
      exists []. now rewrite !app_nil_r. }
  destruct (pc t) as [waited|cv|] eqn:Ep; [contradiction| |].
  - rewrite <- Ho, <- Hs.
    destruct (negb (color_eqb _ _) && negb (_stop_thread w)).
    + destruct (tick_same_run t cv w u Ho) as (Ho' & es & H1 & H2 & H3).
      destruct (tick_kept t cv w) as (Hk & Hth).
      destruct (tick_kept t cv u) as (Hk' & Hth').
      split.
      { unfold same_run. rewrite Hth, Hth'. split; [exact Ho'|].
        split; [congruence|].
        destruct Hk as (_ & _ & _ & _ & _ & _ & _ & ->).
        destruct Hk' as (_ & _ & _ & _ & _ & _ & _ & ->). exact Hs. }
      split; [unfold bound; now rewrite Hth, Et, Ep|].
      exists es. auto.
    + split; [unfold same_run; cbn; auto|].
      split; [unfold bound; cbn; exact I|].
      exists []. cbn. now rewrite !app_nil_r.
  - split; [unfold same_run; repeat split; congruence|]. split; [unfold bound; now rewrite Et, Ep|].
    exists []. now rewrite !app_nil_r.
Qed.

Lemma background_same_run (n : nat) :
  forall w u : world,
  bound w -> same_run w u ->
  same_run (background n w) (background n u)
  /\ bound (background n w)
  /\ exists es,
       trace (background n w) = trace w ++ es
       /\ trace (background n u) = trace u ++ es
       /\ filter is_publish es = [].
Proof.
  induction n as [|n IH]; intros w u Hb Hr.
  - cbn [background]. split; [exact Hr|]. split; [exact Hb|].
    exists []. now rewrite !app_nil_r.
  - rewrite !background_S.
    destruct (step_same_run w u Hb Hr) as (Hr1 & Hb1 & es1 & H1 & H1' & Hp1).
    destruct (IH _ _ Hb1 Hr1) as (Hr2 & Hb2 & es2 & H2 & H2' & Hp2).
    split; [exact Hr2|]. split; [exact Hb2|].
    exists (es1 ++ es2). rewrite H2, H2', H1, H1', <- !app_assoc.
    split; [reflexivity|]. split; [reflexivity|].
    now apply thread_events_app.
Qed.

Lemma same_run_refl (w : world) : same_run w w.
Proof. now repeat split. Qed.

(** Without a start delay the thread leaves its target as it is. *)
Lemma no_delay_background (n : nat) :
  forall (w : world) (t : thread),
  _thread w = Some t -> start_delay t == 0 ->
  load (objects (background n w)) (target_value t)
  = load (objects w) (target_value t).
Proof.
  induction n as [|n IH]; intros w t Ht Hd; [reflexivity|].
  rewrite background_S.
  destruct (no_delay_step w t Ht Hd) as (Hl & t' & Ht' & Hg & Hd').
  cbv zeta in *. rewrite <- Hl, <- Hg. apply IH; [exact Ht'|].
  now rewrite Hd'.
Qed.

(** [apply_value_change] with a step interval, when no thread is running or
    the join is followed far enough. *)
Lemma apply_starts_thread (fuel : nat) (value : ref) (w : world) :
  ~ smooth_change_interval w == 0 ->
  thread_alive w = false \/ (2 <= fuel)%nat ->
  exists w3 es,
    apply_value_change fuel value w = Some w3
    /\ objects w3 = objects w
    /\ _thread w3
       = Some (mkThread 0 (smooth_change_interval w) value (Waiting 0))
    /\ _stop_thread w3 = false
    /\ state_current w3 = state_current w
    /\ state_last w3 = state_last w
    /\ single_channel w3 = single_channel w
    /\ trace w3 = trace w ++ es
    /\ pwm_values es = [] /\ filter is_publish es = []
    /\ smooth_change_interval w3 = smooth_change_interval w.
Proof.
  intros Hi Hidle. unfold apply_value_change.
  rewrite truthy_true by exact Hi. unfold _start_thread.
  cbn [_thread set_in_progress set_stop_thread smooth_change_interval].
  destruct (_thread w) as [t|] eqn:Et.
  - set (joining := emit (set_in_progress (set_stop_thread w true) true)
                         (Join None)).
    assert (Hj : exists ran,
               join_forever fuel joining = Some (background ran joining)).
    { destruct Hidle as [Hdead|Hfuel].
      - exists 0%nat. apply join_forever_done.
        unfold thread_alive in *. subst joining. cbn. now rewrite Et in *.
      - destruct (join_cancelled fuel joining eq_refl Hfuel)
          as (ran & _ & Hj & _). now exists ran. }
    destruct Hj as (ran & ->).
    destruct (cancelled_background ran joining eq_refl) as (Ho & Htr).
    destruct (background_kept ran joining)
      as (Hc & Hl & Hg & _ & _ & _ & Hsi & _).
    eexists _, [Join None; Start 0 (smooth_change_interval w) value].
    split; [reflexivity|].
    cbn [emit set_thread set_stop_thread objects _thread _stop_thread
         state_current state_last single_channel trace
         smooth_change_interval].
    rewrite Ho, Hc, Hl, Hg, Htr, Hsi. subst joining. cbn.
    rewrite <- !app_assoc. repeat split; reflexivity.
  - eexists _, [Start 0 (smooth_change_interval w) value].
    split; [reflexivity|]. cbn. repeat split; reflexivity.
Qed.

Section Commands.

Variable set_color_hsv_str : ColorHSV -> string -> option ColorHSV.
Variable is_toggle_cmd : string -> bool.

(** The chain of [if]/[elif] leaves the configuration as it is. *)
Lemma interpret_settings (e : env) (msg : string) (w w1 : world)
    (new_color : ref) :
  interpret set_color_hsv_str is_toggle_cmd e msg w = Candidate new_color w1 ->
  smooth_change_interval w1 = smooth_change_interval w
  /\ single_channel w1 = single_channel w.
Proof.
  unfold interpret.
  rewrite (deepcopy_fresh (objects w) (state_current w)). cbv beta iota.
  destruct (contains "," msg && negb (contains "NaN" msg)).
  { destruct (set_color_hsv_str _ msg); [|discriminate].
    intros H; injection H as <- <-. split; reflexivity. }
  destruct (isdigit msg);
    [intros H; injection H as <- <-; split; reflexivity|].
  destruct (String.eqb msg "ON");
    [intros H; injection H as <- <-; split; reflexivity|].
  destruct (String.eqb msg "OFF");
    [intros H; injection H as <- <-; split; reflexivity|].
  destruct (String.eqb msg "DIM");
    [destruct (start_dimming _ _); discriminate|].
  destruct (String.eqb msg "STOP");
    [destruct (stop_dimming _ _) as [[|] w2]; discriminate|].
  destruct (is_toggle_cmd msg); [|discriminate].
  destruct (within_debounce e); [discriminate|].
  cbn [state_current set_objects objects].
  rewrite (deepcopy_fresh _ (state_current w)). cbv beta iota.
  destruct (0 <? _); intros H; injection H as <- <-; split; reflexivity.
Qed.


(** A command whose candidate differs from the current color, the thread
    being given a head start: what [on_message] returns, and where the fade
    ends. *)
Lemma candidate_fades (e : env) (msg : string) (w w1 : world) (nc : ref) :
  well_formed w ->
  thread_alive w = false \/ (2 <= join_fuel e)%nat ->
  interpret set_color_hsv_str is_toggle_cmd e msg w = Candidate nc w1 ->
  color_eqb (load (objects w1) (state_current w1)) (load (objects w1) nc)
  = false ->
  valid_hue (load (objects w1) (state_current w1)) ->
  valid_hue (load (objects w1) nc) ->
  ~ smooth_change_interval w == 0 -> (1 <= head_start e)%nat ->
  exists w' n,
    on_message set_color_hsv_str is_toggle_cmd e msg w = Returned w'
    /\ state_current w' = nc
    /\ state_last w' = state_last w1
    /\ filter is_publish (added w w')
       = [Publish (if single_channel w
                   then PubBrightness (brightness (load (objects w1) nc))
                   else PubHsv (load (objects w1) nc))]
    /\ thread_alive (background n w') = false
    /\ (forall m, (n <= m)%nat -> background m w' = background n w')
    /\ load (objects (background n w')) nc = load (objects w1) nc
    /\ color_eqb (load (objects (background n w')) (state_current w))
                 (load (objects w1) nc) = true
    /\ (forall r, r <> state_current w ->
          load (objects (background n w')) r = load (objects w1) r)
    /\ color_eqb (last (pwm_values (added w (background n w')))
                       (load (objects w) (state_current w)))
                 (load (objects w1) nc) = true
    /\ smooth_change_interval w' = smooth_change_interval w
    /\ single_channel w' = single_channel w.
Proof.
  intros Hwf Hidle Hi Hdiff Hvc Hvt Hint Hhs.
  destruct (interpret_candidate set_color_hsv_str is_toggle_cmd e msg w w1 nc
              (proj1 Hwf) Hi)
    as (Htr1 & Hsc1 & Hth1 & Hst1 & Hip1 & Hsb1 & Hload1 & _).
  destruct (interpret_settings e msg w w1 nc Hi) as (Hsi1 & Hsg1).
  pose proof (differ_distinct w1 _ _ Hdiff) as Hne.
  unfold on_message. rewrite Hi, Hdiff.
  set (w2 := emit w1 (Log INFO SettingLeds)).
  destruct (apply_starts_thread (join_fuel e) nc w2)
    as (w3 & es3 & -> & Ho3 & Ht3 & Hs3 & Hc3 & Hl3 & Hg3 & Htr3 & Hpv3 & Hpb3
        & Hsi3).
  { subst w2. cbn [emit smooth_change_interval]. now rewrite Hsi1. }
  { destruct Hidle as [Hdead|Hfuel]; [left | now right].
    unfold thread_alive in *. subst w2. cbn [emit _thread].
    now rewrite Hth1. }
  destruct (head_start e) as [|hs]; [lia|]. clear Hhs.
  rewrite background_S.
  change (objects w2) with (objects w1) in Ho3.
  change (state_current w2) with (state_current w1) in Hc3.
  change (state_last w2) with (state_last w1) in Hl3.
  change (single_channel w2) with (single_channel w1) in Hg3.
  change (smooth_change_interval w2) with (smooth_change_interval w1) in Ht3.
  set (th := mkThread 0 (smooth_change_interval w1) nc (Waiting 0)) in *.
  assert (Hstep : smooth_dimmer_step w3
                  = set_thread w3
                      (Some (set_pc th (Stepping (state_current w3))))).
  { apply (wait_done w3 th 0 Ht3 eq_refl). reflexivity. }
  rewrite Hstep, Hc3.
  set (r := state_current w1) in *.
  set (th' := set_pc th (Stepping r)).
  set (w3' := set_thread w3 (Some th')).
  assert (Hloop : in_loop w3' th' r) by (unfold in_loop; repeat split; auto).
  set (c := load (objects w1) r) in *.
  set (g := load (objects w1) nc) in *.
  assert (Hcont : contents w3' th' r = (c, g)).
  { unfold contents. subst w3' th' th. cbn [objects set_thread target_value
                                              set_pc].
    now rewrite Ho3. }
  assert (Hfar : color_distance c g
                 <= Z.of_nat (Z.to_nat (color_distance c g))).
  { rewrite Z2Nat.id; [lia | now apply color_distance_nonneg]. }
  destruct (converge_any 0 _ eq_refl c g Hvc Hvt Hfar)
    as (k & _ & Hbefore & Hat & Htg).
  destruct (loop_to_exit w3' th' r k Hloop)
    as (Halive & Hc' & Htrace & _ & Hkept).
  { rewrite Hcont. exact Hbefore. }
  { rewrite Hcont. exact Hat. }
  cbv zeta in *. rewrite Hcont in Hc', Htrace.
  change (start_delay th') with (0 : Q) in *.
  set (w4 := background hs w3').
  set (w' := publish_actuator_state (set_state_current w4 nc)).
  exists w', (k + 1)%nat. split; [reflexivity|].
  assert (Hb3 : bound w3') by exact I.
  destruct (background_same_run hs w3' w3' Hb3 (same_run_refl w3'))
    as (_ & Hb4 & es1 & He1 & _ & Hp1).
  fold w4 in Hb4, He1.
  assert (Hsr : same_run w4 w').
  { unfold same_run, w', publish_actuator_state. cbv zeta.
    cbn [single_channel set_state_current].
    destruct (single_channel w4);
      cbn [emit set_state_current objects _thread _stop_thread];
      repeat split. }
  destruct (background_same_run (k + 1) w4 w' Hb4 Hsr)
    as ((Ho & Ht & _) & _ & es & He4 & He' & Hp).
  assert (H4 : background (k + 1) w4 = background (k + 1) w3').
  { unfold w4. rewrite <- background_plus.
    apply exited_stays; [exact Halive | lia]. }
  rewrite H4 in Ho, Ht, He4.
  set (wk := background (k + 1) w3') in *.
  set (W := background (k + 1) w') in *.
  destruct (background_kept hs w3')
    as (Hk1 & Hk2 & Hk3 & _ & _ & _ & Hk7 & _).
  fold w4 in Hk1, Hk2, Hk3, Hk7.
  assert (Hg4 : load (objects w4) nc = g).
  { pose proof (no_delay_background hs w3' th' eq_refl) as Hnd.
    change (target_value th') with nc in Hnd. fold w4 in Hnd.
    rewrite Hnd by reflexivity.
    subst w3'. cbn [objects set_thread]. now rewrite Ho3. }
  assert (Hfst : load (objects wk) r = fst (iter_tick k 0 (c, g)))
    by (now rewrite <- Hc').
  assert (Hsnd : load (objects wk) nc = g)
    by (rewrite <- Htg, <- Hc'; reflexivity).
  unfold differ in Hat. apply negb_false_iff in Hat. rewrite Htg in Hat.
  assert (Hpub : trace w'
                 = trace w4
                   ++ [Publish (if single_channel w
                                then PubBrightness (brightness g)
                                else PubHsv g)]).
  { unfold w', publish_actuator_state.
    cbn [single_channel set_state_current objects state_current].
    rewrite Hg4, Hk3. subst w3'. cbn [single_channel set_thread].
    rewrite Hg3, Hsg1. now destruct (single_channel w). }
  assert (H3 : trace w3' = trace w ++ Log INFO SettingLeds :: es3).
  { subst w3'. cbn [set_thread trace]. rewrite Htr3. subst w2.
    cbn [emit trace]. now rewrite Htr1, <- app_assoc. }
  assert (Hes : es1 ++ es = tick_events k 0 (interval_time th') (c, g)).
  { rewrite He1, <- app_assoc in He4. rewrite Htrace in He4.
    now apply app_inv_head in He4. }
  assert (Hcur : forall u r0,
             state_current (publish_actuator_state (set_state_current u r0))
             = r0
             /\ state_last (publish_actuator_state (set_state_current u r0))
                = state_last u).
  { intros u r0. unfold publish_actuator_state. cbv zeta.
    cbn [single_channel set_state_current].
    destruct (single_channel u); split; reflexivity. }
  split; [apply Hcur|].
  split.
  { transitivity (state_last w4); [apply Hcur|].
    rewrite Hk2. subst w3'. cbn [set_thread state_last]. exact Hl3. }
  split.
  { rewrite (added_app w w' (Log INFO SettingLeds :: es3 ++ es1
                             ++ [Publish (if single_channel w
                                          then PubBrightness (brightness g)
                                          else PubHsv g)])).
    - cbn [filter is_publish]. rewrite !filter_app, Hpb3, Hp1. reflexivity.
    - rewrite Hpub, He1, H3, <- !app_assoc. reflexivity. }
  split; [unfold thread_alive; rewrite <- Ht; exact Halive|].
  split.
  { intros m Hm. apply exited_stays; [|exact Hm].
    unfold thread_alive. fold W. rewrite <- Ht. exact Halive. }
  split; [now rewrite <- Ho|].
  split.
  { rewrite <- Ho. rewrite <- Hsc1. fold r. rewrite Hfst. exact Hat. }
  split.
  { intros x Hx. rewrite <- Ho. rewrite <- Hsc1 in Hx. fold r in Hx.
    destruct (Nat.eq_dec x nc) as [->|Hxn]; [exact Hsnd|].
    unfold wk. rewrite background_untouched.
    - subst w3'. cbn [objects set_thread]. now rewrite Ho3.
    - unfold untouched. subst w3' th' th.
      cbn [state_current set_thread _thread target_value pc set_pc].
      rewrite Hc3. auto. }
  split.
  { rewrite (added_app w W (Log INFO SettingLeds :: es3 ++ es1
                            ++ [Publish (if single_channel w
                                         then PubBrightness (brightness g)
                                         else PubHsv g)] ++ es)).
    - cbn [pwm_values]. rewrite !pwm_values_app, Hpv3. cbn [pwm_values app].
      rewrite <- pwm_values_app, Hes.
      destruct (tick_events_values k 0 (interval_time th') (c, g))
        as (_ & Hlast).
      cbn [fst] in Hlast. rewrite <- Hload1, <- Hsc1. fold c.
      rewrite Hlast. exact Hat.
    - rewrite He', Hpub, He1, H3, <- !app_assoc. reflexivity. }
  split.
  { transitivity (smooth_change_interval w4).
    { unfold w', publish_actuator_state. cbv zeta.
      cbn [single_channel set_state_current].
      now destruct (single_channel w4). }
    rewrite Hk7. subst w3'. cbn [set_thread smooth_change_interval].
    rewrite Hsi3. subst w2. cbn [emit smooth_change_interval]. exact Hsi1. }
  transitivity (single_channel w4).
  { unfold w', publish_actuator_state. cbv zeta.
    cbn [single_channel set_state_current].
    destruct (single_channel w4) eqn:E;
      cbn [emit single_channel set_state_current]; exact E. }
  rewrite Hk3. subst w3'. cbn [set_thread single_channel].
  now rewrite Hg3.
Qed.

Lemma differs_in_brightness (c : ColorHSV) (v : Z) :
  brightness c <> v -> color_eqb c (set_hsv c C_VAL v) = false.
Proof.
  intros Hv. unfold color_eqb. cbn [set_hsv hue saturation brightness].
  rewrite !Z.eqb_refl. cbn [andb]. now apply Z.eqb_neq.
Qed.


(** The candidate of a brightness command: a fresh copy of the current
    color with the brightness replaced. *)
Lemma brightness_candidate (e : env) (msg : string) (w : world) (v : Z) :
  brightness_command msg = Some v ->
  interpret set_color_hsv_str is_toggle_cmd e msg w
  = Candidate (next_free (objects w))
      (set_objects
         (set_objects w (snd (deepcopy (objects w) (state_current w))))
         (set_hsv_at (snd (deepcopy (objects w) (state_current w)))
                     (next_free (objects w)) C_VAL v)).
Proof.
  unfold brightness_command, interpret.
  rewrite (deepcopy_fresh (objects w) (state_current w)). cbv beta iota.
  destruct (contains "," msg && negb (contains "NaN" msg)); [discriminate|].
  destruct (isdigit msg); [now intros [= <-]|].
  destruct (String.eqb msg "ON"); [now intros [= <-]|].
  destruct (String.eqb msg "OFF"); [now intros [= <-]|].
  discriminate.
Qed.

(** A brightness command on an actuator that is not at that brightness, the
    thread being given a head start. *)
Lemma brightness_fades (e : env) (msg : string) (w : world) (v : Z) :
  brightness_command msg = Some v ->
  well_formed w ->
  thread_alive w = false \/ (2 <= join_fuel e)%nat ->
  valid_hue (load (objects w) (state_current w)) ->
  brightness (load (objects w) (state_current w)) <> v ->
  ~ smooth_change_interval w == 0 -> (1 <= head_start e)%nat ->
  let target := set_hsv (load (objects w) (state_current w)) C_VAL v in
  exists w' n,
    on_message set_color_hsv_str is_toggle_cmd e msg w = Returned w'
    /\ state_current w' = next_free (objects w)
    /\ state_last w' = state_last w
    /\ filter is_publish (added w w')
       = [Publish (if single_channel w then PubBrightness v
                   else PubHsv target)]
    /\ thread_alive (background n w') = false
    /\ (forall m, (n <= m)%nat -> background m w' = background n w')
    /\ load (objects (background n w')) (next_free (objects w)) = target
    /\ color_eqb (load (objects (background n w')) (state_current w)) target
       = true
    /\ (forall r, allocated w r -> r <> state_current w ->
          load (objects (background n w')) r = load (objects w) r)
    /\ color_eqb (last (pwm_values (added w (background n w')))
                       (load (objects w) (state_current w)))
                 target = true
    /\ smooth_change_interval w' = smooth_change_interval w.
Proof.
  intros Hcmd Hwf Hidle Hvc Hv Hint Hhs. cbv zeta.
  pose proof (brightness_candidate e msg w v Hcmd) as Hi.
  set (nc := next_free (objects w)) in *.
  set (h1 := snd (deepcopy (objects w) (state_current w))) in *.
  set (w1 := set_objects (set_objects w h1) (set_hsv_at h1 nc C_VAL v)) in *.
  set (cur := load (objects w) (state_current w)) in *.
  assert (Hsc : (state_current w < nc)%nat) by apply Hwf.
  assert (Hnc : load (objects w1) nc = set_hsv cur C_VAL v).
  { subst w1. cbn [objects set_objects]. unfold set_hsv_at.
    rewrite load_store_same. subst h1 nc. now rewrite load_deepcopy. }
  assert (Hold : forall r, (r < nc)%nat ->
                   load (objects w1) r = load (objects w) r).
  { intros r Hr. subst w1. cbn [objects set_objects]. unfold set_hsv_at.
    rewrite load_store_other by lia. subst h1.
    apply load_deepcopy_other. fold nc. lia. }
  assert (Hcur1 : load (objects w1) (state_current w1) = cur)
    by (apply Hold; exact Hsc).
  destruct (candidate_fades e msg w w1 nc Hwf Hidle Hi)
    as (w' & n & Hret & Hc & Hl & Hp & Hdone & Hstay & Htg & Hobj & Hrest
        & Hlast & Hsi & _); auto.
  { rewrite Hcur1, Hnc. now apply differs_in_brightness. }
  { now rewrite Hcur1. }
  { rewrite Hnc. exact Hvc. }
  exists w', n. rewrite Hnc in *.
  split; [exact Hret|]. split; [exact Hc|]. split; [exact Hl|].
  split; [exact Hp|]. split; [exact Hdone|]. split; [exact Hstay|].
  split; [exact Htg|]. split; [exact Hobj|].
  split; [|split; [exact Hlast | exact Hsi]].
  intros r Hr Hne. rewrite Hrest by exact Hne. apply Hold. exact Hr.
Qed.

(** X17: a brightness command - digits, "ON" or "OFF" - on an actuator that
    is not at that brightness, with a step interval and the thread given a
    head start, is answered at once with the new state published once: the
    current color with the brightness replaced.  Left alone the thread
    returns, and the last color it has handed to the hardware callback is
    that color. *)
Theorem brightness_command_fades_to_target (e : env) (msg : string)
    (w : world) (v : Z) :
  brightness_command msg = Some v ->
  well_formed w ->
  thread_alive w = false \/ (2 <= join_fuel e)%nat ->
  valid_hue (load (objects w) (state_current w)) ->
  brightness (load (objects w) (state_current w)) <> v ->
  ~ smooth_change_interval w == 0 -> (1 <= head_start e)%nat ->
  let target := set_hsv (load (objects w) (state_current w)) C_VAL v in
  exists w' n,
    on_message set_color_hsv_str is_toggle_cmd e msg w = Returned w'
    /\ filter is_publish (added w w')
       = [Publish (if single_channel w then PubBrightness v
                   else PubHsv target)]
    /\ thread_alive (background n w') = false
    /\ (forall m, (n <= m)%nat -> background m w' = background n w')
    /\ load (objects (background n w')) (state_current (background n w'))
       = target
    /\ color_eqb (last (pwm_values (added w (background n w')))
                       (load (objects w) (state_current w)))
                 target = true.
Proof.
  intros Hcmd Hwf Hidle Hvc Hv Hint Hhs. cbv zeta.
  destruct (brightness_fades e msg w v Hcmd Hwf Hidle Hvc Hv Hint Hhs)
    as (w' & n & Hret & Hc & _ & Hp & Hdone & Hstay & Htg & _ & _ & Hlast
        & _).
  exists w', n. repeat (split; [assumption|]).
  split; [|exact Hlast].
  destruct (background_kept n w') as (-> & _). now rewrite Hc.
Qed.









(** *** A short press of the dim button *)

Lemma Qlt_bool_lt (x y : Q) : (x < y)%Q -> Qlt_bool x y = true.
Proof.
  intros H. unfold Qlt_bool. apply negb_true_iff.
  destruct (Qle_bool y x) eqn:E; [|reflexivity].
  apply Qle_bool_iff in E. exfalso. exact (Qlt_not_le x y H E).
Qed.

Lemma set_pc_same (t : thread) : set_pc t (pc t) = t.
Proof. now destruct t. Qed.

Lemma sleeps_are_silent (j : nat) :
  pwm_values (repeat (Sleep 0.1) j) = []
  /\ filter is_publish (repeat (Sleep 0.1) j) = [].
Proof. induction j as [|j (IH1 & IH2)]; cbn; auto. Qed.

(** As long as the start delay has not passed the thread only sleeps. *)
Lemma wait_slices (j : nat) :
  forall (w : world) (t : thread) (waited : Q),
  _thread w = Some t -> pc t = Waiting waited -> _stop_thread w = false ->
  (waited + inject_Z (Z.of_nat j) * 0.1 <= start_delay t)%Q ->
  exists waited',
    _thread (background j w) = Some (set_pc t (Waiting waited'))
    /\ objects (background j w) = objects w
    /\ trace (background j w) = trace w ++ repeat (Sleep 0.1) j
    /\ smooth_change_in_progress (background j w)
       = smooth_change_in_progress w
    /\ command_state_kept w (background j w).
Proof.
  induction j as [|j IH]; intros w t waited Ht Hpc Hs Hd.
  - exists waited. cbn [background repeat].
    rewrite app_nil_r, <- Hpc, set_pc_same.
    repeat split; auto.
  - assert (Hj : (0 <= inject_Z (Z.of_nat j))%Q) by (unfold Qle; cbn; lia).
    rewrite Nat2Z.inj_succ in Hd. unfold Z.succ in Hd.
    rewrite inject_Z_plus in Hd. change (inject_Z 1) with 1%Q in Hd.
    assert (Hc : Qlt_bool waited (start_delay t) && negb (_stop_thread w)
                 = true).
    { rewrite Hs, Qlt_bool_lt; [reflexivity | lra]. }
    pose proof (wait_slice w t waited Ht Hpc Hc) as Hstep.
    destruct (IH (emit (set_thread w
                          (Some (set_pc t (Waiting (waited + 0.1)))))
                       (Sleep 0.1))
                 (set_pc t (Waiting (waited + 0.1))) (waited + 0.1)%Q)
      as (waited' & K1 & K2 & K3 & K4 & K5);
      [reflexivity | reflexivity | exact Hs | cbn [set_pc start_delay]; lra |].
    exists waited'. rewrite background_S, Hstep.
    split; [exact K1|]. split; [exact K2|].
    split; [rewrite K3; cbn [emit set_thread trace repeat];
            now rewrite <- app_assoc|].
    split; [exact K4|].
    eapply command_state_kept_trans; [|exact K5].
    unfold command_state_kept. cbn. repeat split.
Qed.

(** "DIM" on an actuator at rest. *)
Lemma dim_starts (e : env) (w : world) :
  allocated w (state_current w) ->
  thread_alive w = false -> smooth_change_in_progress w = false ->
  exists w1 es,
    on_message set_color_hsv_str is_toggle_cmd e "DIM" w = Returned w1
    /\ _thread w1
       = Some (mkThread (dimming_delay w) (dimming_interval w)
                        (S (next_free (objects w))) (Waiting 0))
    /\ _stop_thread w1 = false
    /\ smooth_change_in_progress w1 = false
    /\ dimming_state_before w1
       = Snapshot (load (objects w) (state_current w))
    /\ state_current w1 = state_current w
    /\ next_free (objects w1) = S (S (next_free (objects w)))
    /\ (forall r, (r < next_free (objects w))%nat ->
          load (objects w1) r = load (objects w) r)
    /\ trace w1 = trace w ++ es
    /\ pwm_values es = [] /\ filter is_publish es = []
    /\ load (objects w1) (S (next_free (objects w)))
       = set_hsv (load (objects w) (state_current w)) C_VAL
           (if negb (brightness (load (objects w) (state_current w)) =? 0)
            then 0 else 100)
    /\ single_channel w1 = single_channel w.
Proof.
  intros Ha Hdead Hip. unfold allocated in Ha. unfold on_message, interpret.
  rewrite (deepcopy_fresh (objects w) (state_current w)). cbv beta iota.
  change (contains "," "DIM" && negb (contains "NaN" "DIM")) with false.
  change (isdigit "DIM") with false.
  change (String.eqb "DIM" "ON") with false.
  change (String.eqb "DIM" "OFF") with false.
  change (String.eqb "DIM" "DIM") with true. cbv iota.
  set (nc := next_free (objects w)).
  set (h1 := snd (deepcopy (objects w) (state_current w))).
  assert (Hn1 : next_free h1 = S nc) by reflexivity.
  assert (E1 : forall r, (r < nc)%nat -> load h1 r = load (objects w) r).
  { intros r Hr. apply load_deepcopy_other. fold nc. lia. }
  unfold start_dimming.
  cbn [smooth_change_in_progress set_objects set_state_before objects
       state_current dimming_delay dimming_interval].
  rewrite Hip. cbn [negb].
  rewrite (deepcopy_fresh h1 (state_current w)). cbv beta iota.
  rewrite (E1 (state_current w)) by exact Ha.
  change (next_free h1) with (S nc).
  set (h2 := snd (deepcopy h1 (state_current w))).
  assert (Hn2 : next_free h2 = S (S nc)) by reflexivity.
  assert (E2 : forall r, (r <= nc)%nat -> load h2 r = load h1 r).
  { intros r Hr. apply load_deepcopy_other. rewrite Hn1. lia. }
  set (h3 := if negb (get_hsv_at h2 (S nc) C_VAL =? 0)
             then set_hsv_at h2 (S nc) C_VAL 0
             else set_hsv_at h2 (S nc) C_VAL 100).
  assert (Hn3 : next_free h3 = S (S nc)).
  { subst h3. destruct (negb _); exact Hn2. }
  assert (E3 : forall r, (r <= nc)%nat -> load h3 r = load h2 r).
  { intros r Hr. subst h3. unfold set_hsv_at.
    destruct (negb _); apply load_store_other; lia. }
  assert (E4 : load h3 (S nc)
               = set_hsv (load (objects w) (state_current w)) C_VAL
                   (if negb (brightness (load (objects w) (state_current w))
                             =? 0)
                    then 0 else 100)).
  { assert (Ec : load h2 (S nc) = load (objects w) (state_current w)).
    { subst h2. rewrite <- Hn1, load_deepcopy. now apply E1. }
    subst h3. unfold get_hsv_at, set_hsv_at. rewrite Ec. cbn [get_hsv].
    destruct (negb (brightness (load (objects w) (state_current w)) =? 0));
      now rewrite load_store_same. }
  clearbody h3 h2.
  unfold _start_thread. cbn [_thread set_objects set_state_before].
  unfold thread_alive in Hdead.
  destruct (_thread w) as [t|] eqn:Et.
  - rewrite join_forever_done
      by (unfold thread_alive; cbn [emit _thread set_objects set_state_before];
          now rewrite Et).
    eexists _, [Join None; Start (dimming_delay w) (dimming_interval w) (S nc)].
    split; [reflexivity|].
    cbn [emit set_thread set_stop_thread set_objects set_state_before
         _thread _stop_thread smooth_change_in_progress dimming_state_before
         state_current objects trace].
    rewrite Hn3, <- !app_assoc.
    repeat split; auto.
    intros r Hr. now rewrite E3, E2, E1 by lia.
  - eexists _, [Start (dimming_delay w) (dimming_interval w) (S nc)].
    split; [reflexivity|].
    cbn [emit set_thread set_stop_thread set_objects set_state_before
         _thread _stop_thread smooth_change_in_progress dimming_state_before
         state_current objects trace].
    rewrite Hn3.
    repeat split; auto.
    intros r Hr. now rewrite E3, E2, E1 by lia.
Qed.

(** "STOP" with a thread around and no smooth change in progress: the
    thread returns within the join, and the color is published if it is no
    longer the one the dim started from. *)
Lemma stop_returns (e : env) (u : world) (t : thread) (c : ColorHSV) :
  (2 <= join_budget e)%nat -> smooth_change_in_progress u = false ->
  _thread u = Some t -> allocated u (state_current u) ->
  dimming_state_before u = Snapshot c ->
  exists w2,
    on_message set_color_hsv_str is_toggle_cmd e "STOP" u = Returned w2
    /\ thread_alive w2 = false
    /\ trace w2
       = trace u
         ++ Join (Some 0.2%Q)
            :: (if color_eqb c (load (objects u) (state_current u)) then []
                else [Log INFO DimmedTo;
                      Publish
                        (if single_channel u
                         then PubBrightness
                                (brightness
                                   (load (objects u) (state_current u)))
                         else PubHsv (load (objects u) (state_current u)))])
    /\ state_current w2 = state_current u
    /\ (forall r, (r < next_free (objects u))%nat ->
          load (objects w2) r = load (objects u) r).
Proof.
  intros Hb Hip Ht Ha Hsb. unfold allocated in Ha.
  unfold on_message, interpret.
  rewrite (deepcopy_fresh (objects u) (state_current u)). cbv beta iota.
  change (contains "," "STOP" && negb (contains "NaN" "STOP")) with false.
  change (isdigit "STOP") with false.
  change (String.eqb "STOP" "ON") with false.
  change (String.eqb "STOP" "OFF") with false.
  change (String.eqb "STOP" "DIM") with false.
  change (String.eqb "STOP" "STOP") with true. cbv iota.
  set (h1 := snd (deepcopy (objects u) (state_current u))).
  assert (E1 : forall r, (r < next_free (objects u))%nat ->
                 load h1 r = load (objects u) r).
  { intros r Hr. apply load_deepcopy_other. lia. }
  clearbody h1.
  unfold stop_dimming.
  cbn [smooth_change_in_progress set_objects set_stop_thread _thread].
  rewrite Hip, Ht. cbn [negb].
  set (joining := emit (set_stop_thread (set_objects u h1) true)
                       (Join (Some 0.2%Q))).
  destruct (join_timeout_ran (join_budget e) joining) as (ran & Hle & Hj & Hfull).
  destruct (cancelled_background ran joining eq_refl) as (Ho & Htr).
  destruct (background_kept ran joining)
    as (Hk1 & _ & Hk3 & _ & _ & Hk6 & _).
  assert (Hdead : thread_alive (join_timeout (join_budget e) joining) = false).
  { destruct (thread_alive (join_timeout (join_budget e) joining)) eqn:E;
      [|reflexivity].
    specialize (Hfull eq_refl). subst ran. rewrite Hj in E.
    rewrite (exited_stays 2 (join_budget e) joining) in E;
      [|apply cancelled_exits; reflexivity | exact Hb].
    now rewrite cancelled_exits in E. }
  rewrite Hj in Hdead. rewrite Hj. clear Hj Hfull.
  set (B := background ran joining) in *.
  change (objects joining) with h1 in Ho.
  change (trace joining) with (trace u ++ [Join (Some 0.2%Q)]) in Htr.
  change (state_current joining) with (state_current u) in Hk1.
  change (single_channel joining) with (single_channel u) in Hk3.
  change (dimming_state_before joining) with (dimming_state_before u) in Hk6.
  clearbody B. clear joining.
  rewrite Hdead. cbn [negb]. rewrite Hk6, Hsb, Ho, Hk1.
  cbn [snapshot_differs]. rewrite E1 by exact Ha.
  destruct (color_eqb c (load (objects u) (state_current u))); cbn [negb].
  - exists B. split; [reflexivity|]. split; [exact Hdead|].
    split; [exact Htr|]. split; [exact Hk1|].
    intros r Hr. rewrite Ho. now apply E1.
  - eexists. split; [reflexivity|].
    unfold publish_actuator_state. cbv zeta.
    cbn [emit single_channel objects state_current].
    rewrite Hk3, Ho, Hk1, E1 by exact Ha.
    destruct (single_channel u);
      cbn [emit trace state_current objects get_hsv];
      (split; [exact Hdead|]);
      (split; [rewrite Htr, <- !app_assoc; reflexivity|]);
      (split; [exact Hk1|]);
      intros r Hr; rewrite Ho; now apply E1.
Qed.

(** X21: "DIM" on an actuator at rest followed by "STOP" before the start
    delay has passed - the thread has done nothing but sleep in slices of
    0.1 s - changes nothing: the thread returns at the join, the hardware
    callback has not been called, nothing is published, and the current
    color is the one from before. *)
Theorem short_press_changes_nothing (e1 e2 : env) (j : nat) (w : world) :
  well_formed w -> thread_alive w = false ->
  smooth_change_in_progress w = false ->
  (inject_Z (Z.of_nat j) * 0.1 <= dimming_delay w)%Q ->
  (2 <= join_budget e2)%nat ->
  exists w1 w2,
    on_message set_color_hsv_str is_toggle_cmd e1 "DIM" w = Returned w1
    /\ on_message set_color_hsv_str is_toggle_cmd e2 "STOP" (background j w1)
       = Returned w2
    /\ thread_alive w2 = false
    /\ pwm_values (added w w2) = []
    /\ filter is_publish (added w w2) = []
    /\ state_current w2 = state_current w
    /\ load (objects w2) (state_current w2)
       = load (objects w) (state_current w).
Proof.
  intros Hwf Hdead Hip Hd Hb.
  pose proof Hwf as (Hac & _). unfold allocated in Hac.
  destruct (dim_starts e1 w (proj1 Hwf) Hdead Hip)
    as (w1 & es & Hret1 & Ht1 & Hs1 & Hip1 & Hsb1 & Hc1 & Hn1 & Hl1 & Htr1
        & Hpv1 & Hpb1 & _).
  destruct (wait_slices j w1 _ 0 Ht1 eq_refl Hs1)
    as (waited & Kt & Ko & Ktr & Kip & Kk).
  { cbn [start_delay]. lra. }
  set (u := background j w1) in *.
  destruct Kk as (Kc & _ & _ & _ & _ & Ksb & _).
  destruct (stop_returns e2 u _ (load (objects w) (state_current w)) Hb
              (eq_trans Kip Hip1) Kt)
    as (w2 & Hret2 & Hdead2 & Htr2 & Hc2 & Hl2).
  { unfold allocated. rewrite Ko, Hn1, Kc, Hc1. lia. }
  { congruence. }
  rewrite Ko, Kc, Hc1, Hl1, color_eqb_refl in Htr2 by exact Hac.
  exists w1, w2. split; [exact Hret1|]. split; [exact Hret2|].
  split; [exact Hdead2|].
  assert (Hadd : added w w2
                 = es ++ repeat (Sleep 0.1) j ++ [Join (Some 0.2%Q)]).
  { apply added_app. rewrite Htr2, Ktr, Htr1, <- !app_assoc. reflexivity. }
  destruct (sleeps_are_silent j) as (Hq1 & Hq2).
  rewrite Hadd, !pwm_values_app, !filter_app, Hpv1, Hpb1, Hq1, Hq2.
  split; [reflexivity|]. split; [reflexivity|].
  split; [congruence|].
  rewrite Hc2, Kc, Hc1, Hl2, Ko, Hl1; auto.
  rewrite Ko, Hn1. lia.
Qed.

(** *** A long press of the dim button *)





(** *** The first toggle *)


End Commands.



Lemma short_press_changes_nothing_witness :
  let w := Samples.sample (mkColor 10 20 60 false) Samples.white None in
  exists w1 w2,
    on_message Samples.no_parser Samples.toggle_only (mkEnv 0 0 0 false)
               "DIM" w = Returned w1
    /\ on_message Samples.no_parser Samples.toggle_only (mkEnv 0 2 0 false)
                  "STOP" (background 3 w1) = Returned w2
    /\ thread_alive w2 = false
    /\ pwm_values (added w w2) = []
    /\ filter is_publish (added w w2) = []
    /\ state_current w2 = state_current w
    /\ load (objects w2) (state_current w2)
       = load (objects w) (state_current w).
Proof.
  apply (short_press_changes_nothing Samples.no_parser Samples.toggle_only
           (mkEnv 0 0 0 false) (mkEnv 0 2 0 false) 3
           (Samples.sample (mkColor 10 20 60 false) Samples.white None)).
  - unfold well_formed, allocated. cbn. lia.
  - reflexivity.
  - reflexivity.
  - cbn. unfold Qle. cbn. lia.
  - cbn. lia.
Defined.


Lemma brightness_command_fades_to_target_witness :
  let w := Samples.sample (mkColor 10 20 60 false) Samples.white None in
  let target := set_hsv (load (objects w) (state_current w)) C_VAL 0 in
  exists w' n,
    on_message Samples.no_parser Samples.toggle_only (mkEnv 0 0 1 false)
               "OFF" w = Returned w'
    /\ filter is_publish (added w w')
       = [Publish (if single_channel w then PubBrightness 0
                   else PubHsv target)]
    /\ thread_alive (background n w') = false
    /\ (forall m, (n <= m)%nat -> background m w' = background n w')
    /\ load (objects (background n w')) (state_current (background n w'))
       = target
    /\ color_eqb (last (pwm_values (added w (background n w')))
                       (load (objects w) (state_current w)))
                 target = true.
Proof.
  apply (brightness_command_fades_to_target Samples.no_parser
           Samples.toggle_only (mkEnv 0 0 1 false) "OFF"
           (Samples.sample (mkColor 10 20 60 false) Samples.white None) 0).
  - reflexivity.
  - unfold well_formed, allocated. cbn. lia.
  - left. reflexivity.
  - unfold valid_hue. cbn. lia.
  - cbn. lia.
  - cbn. discriminate.
  - cbn. lia.
Defined.




End EngineFacts.
